(** * pile_dedupe: MinHash/LSH deduplication of the Pile

    A shallow embedding of the Python sources
    ([working_with_pile.py], [generate_minhashes.py],
    [working_with_minhashes.py], [dedupe.py],
    [working_with_duplicates.py], [yield_deduped_pile.py]) together with
    the properties the specification states about them and further
    properties of the code.

    Files on disk are modelled by what a later [open]/[pickle.load] can
    observe of them: absent, created but not completely written, or
    completely written.  Python exceptions are values of [exn]; code
    that can raise returns a [result]. *)

From stdpp Require Import gmap strings list fin_maps sorting.
From Stdlib Require Import ZArith Lia Ascii.

Local Open Scope Z_scope.

(** ** Python exceptions and results *)

Inductive exn : Type :=
  | TypeError
  | ValueError
  | KeyError
  | IndexError
  | AssertionError
  | FileNotFoundError
  | UnpicklingError
  | ZeroDivisionError
  | RuntimeError
  | StopIteration
  | LookupError
  | MemoryError
  | SystemExit.

Inductive result (A : Type) : Type :=
  | Ok (a : A)
  | Err (e : exn).
Arguments Ok {A} a.
Arguments Err {A} e.

#[global] Instance result_ret : MRet result := λ A a, Ok a.
#[global] Instance result_bind : MBind result := λ A B k r,
  match r with
  | Ok a => k a
  | Err e => Err e
  end.

(** What a reader finds under a file name. *)
Inductive file (A : Type) : Type :=
  | Absent
  | Partial
  | Full (a : A).
Arguments Absent {A}.
Arguments Partial {A}.
Arguments Full {A} a.

(** [os.path.exists] *)
Definition exists_file {A} (f : file A) : bool :=
  match f with
  | Absent => false
  | _ => true
  end.

(** [pickle.load(open(path, "rb"))] *)
Definition pickle_load {A} (f : file A) : result A :=
  match f with
  | Absent => Err FileNotFoundError
  | Partial => Err UnpicklingError
  | Full a => Ok a
  end.

(** [json.load(open(path, "r"))] *)
Definition json_load {A} (f : file A) : result A :=
  match f with
  | Absent => Err FileNotFoundError
  | Partial => Err ValueError
  | Full a => Ok a
  end.

(** [len(x)] of a string and of a list, as Python integers. *)
Definition len (s : string) : Z := Z.of_nat (Stdlib.Strings.String.length s).
Definition llen {A} (l : list A) : Z := Z.of_nat (length l).

(** [s[start:end]] for [0 <= start <= end <= len(s)]. *)
Definition py_slice (s : string) (start_index end_index : Z) : string :=
  Stdlib.Strings.String.substring
    (Z.to_nat start_index) (Z.to_nat (end_index - start_index)) s.

(** [' '.join(words)] *)
Fixpoint join_space (words : list string) : string :=
  match words with
  | [] => ""
  | [w] => w
  | w :: ws => w +:+ " " +:+ join_space ws
  end.

(** ** External libraries

    [nltk] and [datasketch] are third-party packages.  The tokenizer and
    the base hash are taken as parameters; the MinHash arithmetic and the
    LSH index are written out. *)

(** [nltk.word_tokenize]: may raise (an [Exception]; [SystemExit] is
    raised by [sys.exit] only). *)
Class Tokenizer := word_tokenize : string → result (list string).

(** [nltk.util.ngrams(sequence, n)]: every window of [n] consecutive
    items, none when the sequence is shorter than [n]. *)
Fixpoint ngrams {A} (n : nat) (sequence : list A) : list (list A) :=
  match sequence with
  | [] => []
  | _ :: rest =>
      if decide (n ≤ length sequence)%nat
      then take n sequence :: ngrams n rest
      else []
  end.

Module datasketch.

Definition _mersenne_prime : Z := 2 ^ 61 - 1.
Definition _max_hash : Z := 2 ^ 32 - 1.

(** The base hash ([sha1_hash32] of the utf-8 bytes) and the
    permutation coefficients [(a_i, b_i)] drawn once from a seeded
    generator. *)
Class MinHashParams := {
  hashfunc : string → Z;
  permutation : nat → Z * Z;
}.

(** [MinHash.hashvalues]; a [LeanMinHash] keeps the same values. *)
Definition LeanMinHash : Type := list Z.

(** [MinHash(num_perm)] *)
Definition MinHash (num_perm : nat) : LeanMinHash :=
  replicate num_perm _max_hash.

(** One permuted hash, in [uint64] arithmetic:
    [bitwise_and((a * hv + b) % _mersenne_prime, _max_hash)]. *)
Definition permuted_hash (ab : Z * Z) (hv : Z) : Z :=
  Z.land ((((ab.1 * hv + ab.2) mod 2 ^ 64)) mod _mersenne_prime) _max_hash.

(** [MinHash.update(b)] *)
Definition update `{MinHashParams} (hashvalues : LeanMinHash) (b : string)
  : LeanMinHash :=
  let hv := hashfunc b in
  imap (λ i v, Z.min (permuted_hash (permutation i) hv) v) hashvalues.

(** *** MinHashLSH *)

(** The number of bands [b] and rows per band [r] that the library's
    [_optimal_param] picks for the configured threshold and
    [num_perm = 10] (a numerical minimisation over floats). *)
Class Banding := {
  b : nat;
  r : nat;
}.

(** Modelled from the spec: the LSH index of the [datasketch] package
    (not part of this repository): a mapping from band index to a
    mapping from band hash to the set of offsets sharing it, with the
    keys' band hashes kept for [remove].  The band hash is the band's
    tuple of signature entries itself. *)
Record MinHashLSH : Type := mkLSH {
  h : nat;
  hashranges : list (nat * nat);
  hashtables : list (gmap (list Z) (gset Z));
  keys : gmap Z (list (list Z));
}.

(** [[(i * r, (i + 1) * r) for i in range(b)]] *)
Definition bands `{Banding} : list (nat * nat) :=
  (λ i, (i * r, (i + 1) * r)%nat) <$> seq 0 b.

(** [MinHashLSH(threshold, num_perm)] *)
Definition MinHashLSH_init `{Banding} (num_perm : nat) : MinHashLSH :=
  mkLSH num_perm bands (replicate b ∅) ∅.

(** [self._H(minhash.hashvalues[start:end])] *)
Definition _H (hashvalues : LeanMinHash) (range : nat * nat) : list Z :=
  take (range.2 - range.1) (drop range.1 hashvalues).

Definition band_hashes (lsh : MinHashLSH) (hashvalues : LeanMinHash)
  : list (list Z) :=
  _H hashvalues <$> hashranges lsh.

(** [hashtable.get(H)] *)
Definition bucket (hashtable : gmap (list Z) (gset Z)) (H : list Z)
  : gset Z :=
  default ∅ (hashtable !! H).

(** The loop [for H, hashtable in zip(Hs, self.hashtables)] of
    [insert]. *)
Fixpoint insert_into (key : Z) (Hs : list (list Z))
    (tables : list (gmap (list Z) (gset Z)))
  : list (gmap (list Z) (gset Z)) :=
  match Hs, tables with
  | H :: Hs', t :: ts =>
      <[H := bucket t H ∪ {[key]}]> t :: insert_into key Hs' ts
  | _, _ => tables
  end.

(** Modelled from the spec: [insert(offset, signature)] adds the offset
    to the bucket of each band.  As in the package, [lsh.insert(key,
    minhash)] raises on [None], on a signature of the wrong length and
    on a key that is already indexed. *)
Definition insert (lsh : MinHashLSH) (key : Z)
    (minhash : option LeanMinHash) : result MinHashLSH :=
  match minhash with
  | None => Err TypeError
  | Some hashvalues =>
      if decide (length hashvalues ≠ h lsh) then Err ValueError
      else if decide (is_Some (keys lsh !! key)) then Err ValueError
      else
        let Hs := band_hashes lsh hashvalues in
        Ok (mkLSH (h lsh) (hashranges lsh)
                  (insert_into key Hs (hashtables lsh))
                  (<[key := Hs]> (keys lsh)))
  end.

(** Modelled from the spec: [query(signature)] is the union of the
    buckets of the signature's bands. *)
Definition candidates (lsh : MinHashLSH) (hashvalues : LeanMinHash)
  : gset Z :=
  ⋃ (zip_with bucket (hashtables lsh) (band_hashes lsh hashvalues)).

(** [lsh.query(minhash)] returns [list(candidates)].  Python leaves the
    order of that list unspecified; here it is the order of
    [elements]. *)
Definition query (lsh : MinHashLSH) (minhash : option LeanMinHash)
  : result (list Z) :=
  match minhash with
  | None => Err TypeError
  | Some hashvalues =>
      if decide (length hashvalues ≠ h lsh) then Err ValueError
      else Ok (elements (candidates lsh hashvalues))
  end.

(** The loop of [remove]: [remove_val] raises when the key is not in
    the bucket; a bucket left empty is deleted. *)
Fixpoint remove_from (key : Z) (Hs : list (list Z))
    (tables : list (gmap (list Z) (gset Z)))
  : result (list (gmap (list Z) (gset Z))) :=
  match Hs, tables with
  | H :: Hs', t :: ts =>
      if decide (key ∈ bucket t H) then
        let vals := bucket t H ∖ {[key]} in
        let t' := if decide (vals = ∅) then delete H t
                  else <[H := vals]> t in
        ts' ← remove_from key Hs' ts;
        Ok (t' :: ts')
      else Err KeyError
  | _, _ => Ok tables
  end.

(** Modelled from the spec: [remove] takes the offset out of the bucket
    of each of its bands and frees the buckets left empty.  As in the
    package, [lsh.remove(key)] finds the bands in [keys] and raises on a
    key that is not indexed. *)
Definition remove (lsh : MinHashLSH) (key : Z) : result MinHashLSH :=
  match keys lsh !! key with
  | None => Err ValueError
  | Some Hs =>
      tables ← remove_from key Hs (hashtables lsh);
      Ok (mkLSH (h lsh) (hashranges lsh) tables (delete key (keys lsh)))
  end.

End datasketch.

(** ** working_with_pile.py *)

(** [archiver.Reader]: [read(file)] yields the documents of a pile file;
    with [get_meta=True] it yields one object per document, of which
    [get_file_stats] takes [len]. *)
Class Reader := meta_len : string → Z.

Module working_with_pile.

(** [pile_statistics.json] *)
Record pile_statistics : Type := PileStatistics {
  document_count : Z;
  total_pile_characters : Z;
  file_start_offsets : list Z;
}.

(** The loop of [get_file_stats] over the documents of one file. *)
Definition get_file_stats `{Reader} (documents : list string) : Z * Z :=
  foldl (λ totals document,
           let total_size := totals.2 + meta_len document in
           let total_documents := totals.1 + 1 in
           (total_documents, total_size))
        (0, 0) documents.

(** [functools.reduce(function, sequence)] without an initial value
    raises on an empty sequence. *)
Definition reduce {A} (function : A → A → A) (sequence : list A) : result A :=
  match sequence with
  | [] => Err TypeError
  | x :: rest => Ok (foldl function x rest)
  end.

(** The loop that fills [start_offsets]. *)
Fixpoint start_offsets_from (results : list (Z * Z)) (current_offset : Z)
  : list Z :=
  match results with
  | [] => []
  | (file_document_count, _) :: rest =>
      current_offset ::
      start_offsets_from rest (current_offset + file_document_count)
  end.

(** [get_stats]: [files] holds the documents of the files of
    [get_pile_files()], in the sorted order of their names. *)
Definition get_stats `{Reader} (files : list (list string))
  : result (Z * Z * list Z) :=
  let results := get_file_stats <$> files in
  totals ← reduce (λ x y, (x.1 + y.1, x.2 + y.2)) results;
  Ok (totals.1, totals.2, start_offsets_from results 0).

(** [get_pile_statistics]: the statistics and what is left under
    [pile_statistics.json]. *)
Definition get_pile_statistics `{Reader}
    (pile_statistics_file : file pile_statistics)
    (files : list (list string))
  : result pile_statistics * file pile_statistics :=
  if exists_file pile_statistics_file then
    (json_load pile_statistics_file, pile_statistics_file)
  else
    match get_stats files with
    | Err e => (Err e, pile_statistics_file)
    | Ok (document_count, total_document_size_chars, start_offsets) =>
        let stats := PileStatistics document_count
                       total_document_size_chars start_offsets in
        (Ok stats, Full stats)
    end.

(** The loop over [enumerate(stats["File Start Offsets"])]. *)
Fixpoint find_start (start_offsets : list Z) (i : nat)
    (checkpoint_offset : Z) (start_file : nat) (pile_global_offset : Z)
  : nat * Z :=
  match start_offsets with
  | [] => (start_file, pile_global_offset)
  | start_offset :: rest =>
      if decide (start_offset > checkpoint_offset)
      then (start_file, pile_global_offset)
      else find_start rest (S i) checkpoint_offset i start_offset
  end.

(** The loop over the documents of one file. *)
Fixpoint read_file (documents : list string) (pile_global_offset : Z)
  : list (Z * string) :=
  match documents with
  | [] => []
  | document :: rest =>
      (pile_global_offset, document) :: read_file rest (pile_global_offset + 1)
  end.

(** The loop over [enumerate(files)]. *)
Fixpoint read_files (files : list (list string)) (i start_file : nat)
    (pile_global_offset : Z) : list (Z * string) :=
  match files with
  | [] => []
  | file :: rest =>
      if decide (i < start_file)%nat
      then read_files rest (S i) start_file pile_global_offset
      else read_file file pile_global_offset ++
           read_files rest (S i) start_file (pile_global_offset + llen file)
  end.

(** [yield_pile(checkpoint_offset)], given the statistics that
    [get_pile_statistics()] returned; [None] and [0] are both false in
    [if checkpoint_offset:]. *)
Definition yield_pile (stats : pile_statistics) (files : list (list string))
    (checkpoint_offset : option Z) : list (Z * string) :=
  let '(start_file, pile_global_offset) :=
    match checkpoint_offset with
    | Some c =>
        if decide (c ≠ 0)
        then find_start (file_start_offsets stats) 0 c 0%nat 0
        else (0%nat, 0)
    | None => (0%nat, 0)
    end in
  read_files files 0 start_file pile_global_offset.

End working_with_pile.

(** ** generate_minhashes.py *)

Module generate_minhashes.
Import datasketch.

Definition megabyte : Z := 1024 * 1024.

(** What a task returns and a batch file holds: [None] is Python's
    [None]. *)
Definition minhash : Type := option LeanMinHash.

Inductive log_record : Type :=
  | LogInfo (message : string) (ex : exn) (doc_length : Z).

Definition extract_ngrams `{Tokenizer} (data : string) (num : nat)
  : result (list string) :=
  tokens ← word_tokenize data;
  Ok (join_space <$> ngrams num tokens).

(** [math.ceil(len(document) / slice_size)]; the float quotient is
    exact for every length below 2^53. *)
Definition ceil_div (a b : Z) : Z := (a + b - 1) / b.

Definition slice_document (document : string) : list string :=
  if decide (megabyte < len document) then
    let slice_size := megabyte in
    let num_slices := ceil_div (len document) slice_size in
    (λ i,
      let start_index := slice_size * i in
      let end_index := Z.min (start_index + slice_size) (len document) in
      py_slice document start_index end_index) <$> seqZ 0 num_slices
  else [document].

(** The loop over the slices, accumulating [five_gram_set]. *)
Fixpoint five_grams_of `{Tokenizer} (slices : list string)
    (five_gram_set : gset string) : result (gset string) :=
  match slices with
  | [] => Ok five_gram_set
  | a_slice :: rest =>
      n_grams ← extract_ngrams a_slice 5;
      five_grams_of rest (five_gram_set ∪ list_to_set n_grams)
  end.

(** The loop over [five_gram_set], updating the MinHash. *)
Definition minhash_of_set `{MinHashParams} (five_gram_set : gset string)
  : LeanMinHash :=
  foldl update (MinHash 10) (elements five_gram_set).

(** The body of the [try] block. *)
Definition generate_minhash_try `{Tokenizer, MinHashParams}
    (document : string) : result LeanMinHash :=
  let slices := slice_document document in
  five_gram_set ← five_grams_of slices ∅;
  Ok (minhash_of_set five_gram_set).

Definition generate_minhash `{Tokenizer, MinHashParams}
    (document : string) : minhash * list log_record :=
  match generate_minhash_try document with
  | Ok m => (Some m, [])
  | Err ex =>
      (None, [LogInfo "Generate minhash failure" ex (len document)])
  end.

(** *** The working directory and the batch transaction *)

Record working_dir : Type := WorkingDir {
  checkpoint_file : file Z;
  checkpoint_temp_file : file Z;
  checkpoint_old_file : file Z;
  transaction_lock : bool;
  (** [minhashes_{start_offset}.pkl], by [start_offset] *)
  minhashes_files : gmap Z (file (list (Z * minhash)));
}.

Definition empty_dir : working_dir := WorkingDir Absent Absent Absent false ∅.

Definition minhashes_file (d : working_dir) (start_offset : Z)
  : file (list (Z * minhash)) :=
  default Absent (minhashes_files d !! start_offset).

Definition set_checkpoint (f : file Z) (d : working_dir) : working_dir :=
  WorkingDir f (checkpoint_temp_file d) (checkpoint_old_file d)
             (transaction_lock d) (minhashes_files d).
Definition set_checkpoint_temp (f : file Z) (d : working_dir) : working_dir :=
  WorkingDir (checkpoint_file d) f (checkpoint_old_file d)
             (transaction_lock d) (minhashes_files d).
Definition set_checkpoint_old (f : file Z) (d : working_dir) : working_dir :=
  WorkingDir (checkpoint_file d) (checkpoint_temp_file d) f
             (transaction_lock d) (minhashes_files d).
Definition set_lock (b : bool) (d : working_dir) : working_dir :=
  WorkingDir (checkpoint_file d) (checkpoint_temp_file d)
             (checkpoint_old_file d) b (minhashes_files d).
Definition set_minhashes (start_offset : Z) (f : file (list (Z * minhash)))
    (d : working_dir) : working_dir :=
  WorkingDir (checkpoint_file d) (checkpoint_temp_file d)
             (checkpoint_old_file d) (transaction_lock d)
             (<[start_offset := f]> (minhashes_files d)).

(** One file-system action of the process; the process can be killed
    between any two of them. *)
Definition fs_action : Type := working_dir → result working_dir.

(** [Path(transaction_lock).touch()] *)
Definition touch_lock : fs_action := λ d, Ok (set_lock true d).

(** [os.remove(transaction_lock)] *)
Definition remove_lock : fs_action := λ d,
  if transaction_lock d then Ok (set_lock false d) else Err FileNotFoundError.

(** [os.remove(checkpoint_temp_file)] *)
Definition remove_checkpoint_temp : fs_action := λ d,
  if exists_file (checkpoint_temp_file d)
  then Ok (set_checkpoint_temp Absent d) else Err FileNotFoundError.

(** [os.rename(checkpoint_file, checkpoint_old_file)] *)
Definition rename_checkpoint_to_old : fs_action := λ d,
  if exists_file (checkpoint_file d)
  then Ok (set_checkpoint Absent (set_checkpoint_old (checkpoint_file d) d))
  else Err FileNotFoundError.

(** [os.rename(checkpoint_temp_file, checkpoint_file)] *)
Definition rename_temp_to_checkpoint : fs_action := λ d,
  if exists_file (checkpoint_temp_file d)
  then Ok (set_checkpoint_temp Absent
             (set_checkpoint (checkpoint_temp_file d) d))
  else Err FileNotFoundError.

(** [os.rename(checkpoint_old_file, checkpoint_file)] *)
Definition rename_old_to_checkpoint : fs_action := λ d,
  if exists_file (checkpoint_old_file d)
  then Ok (set_checkpoint_old Absent
             (set_checkpoint (checkpoint_old_file d) d))
  else Err FileNotFoundError.

(** [batch[0][0]] and [batch[-1][0]] *)
Definition first_offset {D} (batch : list (Z * D)) : result Z :=
  match batch with
  | [] => Err IndexError
  | (offset, _) :: _ => Ok offset
  end.
Definition final_offset {D} (batch : list (Z * D)) : result Z :=
  match last batch with
  | None => Err IndexError
  | Some (offset, _) => Ok offset
  end.

(** [minhashes_and_meta]: the offsets of the batch paired with the
    pool's results, in task order. *)
Definition minhashes_and_meta {D} (batch : list (Z * D))
    (minhashes : list minhash) : list (Z * minhash) :=
  zip_with (λ od m, (od.1, m)) batch minhashes.

(** [bool(task_result)]: [None] is falsy, and a [LeanMinHash] is falsy
    when it has no hash values ([MinHash.__len__]). *)
Definition truthy (task_result : minhash) : bool :=
  match task_result with
  | None => false
  | Some hashvalues => bool_decide (llen hashvalues ≠ 0)
  end.

(** The callbacks of [process_batch]: [on_error] logs and calls
    [sys.exit("Brokened")], [on_done] does nothing. *)
Definition on_error (task_result : minhash) : result () := Err SystemExit.
Definition on_done (task_result : minhash) : result () := Ok ().

(** What the [generate_minhash] tasks of a batch return, in task
    order. *)
Definition task_results `{Tokenizer, MinHashParams}
    (batch : list (Z * string)) : list minhash :=
  (λ od, (generate_minhash od.2).1) <$> batch.

(** [pool.map(progress, tasks, on_error, on_done)] over the
    [generate_minhash] tasks of a batch.  As in the [tqdm_multiprocess]
    package (not part of this repository): the parent process collects
    the result of every task, calls [on_error] on a falsy one and
    [on_done] on each, and returns the results in task order.  The
    order in which the workers finish is not fixed; every falsy result
    takes the same exit. *)
Definition pool_map `{Tokenizer, MinHashParams} (batch : list (Z * string))
  : result (list minhash) :=
  _ ← mapM (λ task_result,
              _ ← (if truthy task_result then Ok ()
                   else on_error task_result);
              on_done task_result) (task_results batch);
  Ok (task_results batch).

(** The file-system actions of the transaction in [process_batch], in
    program order.  [pickle.dump(x, open(path, "wb"))] is two actions:
    [open] creates or truncates the file, then the dump fills it. *)
Definition transaction {D} (batch : list (Z * D)) (minhashes : list minhash)
  : list fs_action :=
  [ touch_lock;
    (λ d, start_offset ← first_offset batch;
          _ ← final_offset batch;
          Ok (set_minhashes start_offset Partial d));
    (λ d, start_offset ← first_offset batch;
          Ok (set_minhashes start_offset
                (Full (minhashes_and_meta batch minhashes)) d));
    (λ d, Ok (set_checkpoint_temp Partial d));
    (λ d, last_offset ← final_offset batch;
          Ok (set_checkpoint_temp (Full last_offset) d));
    (λ d, if exists_file (checkpoint_file d)
          then rename_checkpoint_to_old d else Ok d);
    rename_temp_to_checkpoint;
    remove_lock ].

Fixpoint run (actions : list fs_action) (d : working_dir)
  : result working_dir :=
  match actions with
  | [] => Ok d
  | a :: rest => d' ← a d; run rest d'
  end.

(** The directory left behind when the process is killed after [n]
    actions of the transaction. *)
Definition killed_after {D} (n : nat) (batch : list (Z * D))
    (minhashes : list minhash) (d : working_dir) : result working_dir :=
  run (take n (transaction batch minhashes)) d.

(** [process_batch]: the pool, then the transaction.  The [rsync] that
    may follow copies the working directory and leaves it unchanged. *)
Definition process_batch `{Tokenizer, MinHashParams}
    (batch : list (Z * string)) (d : working_dir) : result working_dir :=
  minhashes ← pool_map batch;
  run (transaction batch minhashes) d.

(** *** [main]: recovery, checkpoint, batching *)

(** The [if os.path.exists(transaction_lock)] block. *)
Definition recover (d : working_dir) : result working_dir :=
  if transaction_lock d then
    d1 ← (if exists_file (checkpoint_temp_file d) then
            d' ← (if exists_file (checkpoint_old_file d)
                  then rename_old_to_checkpoint d else Ok d);
            remove_checkpoint_temp d'
          else Ok d);
    remove_lock d1
  else Ok d.

Definition load_checkpoint_offset (d : working_dir) : result Z :=
  if exists_file (checkpoint_file d) then
    c ← pickle_load (checkpoint_file d); Ok (c + 1)
  else Ok 0.

Definition batch_size : Z := 100000.

(** The loop over [yield_pile(checkpoint_offset)] and the final batch. *)
Fixpoint main_loop `{Tokenizer, MinHashParams} (pile : list (Z * string))
    (checkpoint_offset : Z) (batch : list (Z * string)) (d : working_dir)
  : result working_dir :=
  match pile with
  | [] => if decide (llen batch ≠ 0) then process_batch batch d else Ok d
  | (offset, document) :: rest =>
      if decide (offset < checkpoint_offset) then
        main_loop rest checkpoint_offset batch d
      else
        let batch := batch ++ [(offset, document)] in
        if decide (llen batch = batch_size) then
          d' ← process_batch batch d;
          main_loop rest checkpoint_offset [] d'
        else main_loop rest checkpoint_offset batch d
  end.

Definition main `{Tokenizer, MinHashParams} (pile : list (Z * string))
    (d : working_dir) : result working_dir :=
  d ← recover d;
  checkpoint_offset ← load_checkpoint_offset d;
  main_loop pile checkpoint_offset [] d.

End generate_minhashes.

(** ** working_with_minhashes.py *)

Module working_with_minhashes.
Import datasketch generate_minhashes.

(** The sort key: the start offset in the file name. *)
Definition by_start_offset {A} : relation (Z * A) := λ x y, x.1 ≤ y.1.
#[global] Instance by_start_offset_dec {A} : RelDecision (@by_start_offset A) :=
  λ x y, decide (x.1 ≤ y.1).
#[global] Instance by_start_offset_trans {A} :
  Transitive (@by_start_offset A).
Proof. intros x y z. unfold by_start_offset. lia. Qed.
#[global] Instance by_start_offset_total {A} : Total (@by_start_offset A).
Proof. intros x y. unfold by_start_offset. lia. Qed.

(** The files matching [*minhashes_*.pkl], sorted on the start offset
    in their names. *)
Definition minhash_files
    (minhashes_directory : gmap Z (file (list (Z * minhash))))
  : list (Z * file (list (Z * minhash))) :=
  merge_sort by_start_offset (map_to_list minhashes_directory).

(** A generator that is run to its end: the items it yields and the
    exception that ends it, if any. *)
Fixpoint load_files {A} (files : list (Z * file (list A)))
  : list A * option exn :=
  match files with
  | [] => ([], None)
  | (_, f) :: rest =>
      match pickle_load f with
      | Ok data => let '(items, e) := load_files rest in (data ++ items, e)
      | Err e => ([], Some e)
      end
  end.

Definition yield_minhashes
    (minhashes_directory : gmap Z (file (list (Z * minhash))))
  : list (Z * minhash) * option exn :=
  load_files (minhash_files minhashes_directory).

(** The loop of [verify_minhashes] over the stored minhashes.
    [pile_gen] is what is left of [yield_pile()], [random_samples] what
    is left of the sorted sample; once the sample is used up
    [next_sample] keeps its last value. *)
Fixpoint verify_loop `{Tokenizer, MinHashParams}
    (minhashes : list (Z * minhash)) (previous_offset : Z)
    (pile_gen : list (Z * string)) (next_sample : Z)
    (random_samples : list Z) : result () :=
  match minhashes with
  | [] => Ok ()
  | (offset, minhash) :: rest =>
      if decide (offset = previous_offset + 1) then
        match pile_gen with
        | [] => Err StopIteration
        | (ground_truth_offset, document) :: pile_gen =>
            if decide (offset = ground_truth_offset) then
              if decide (offset = next_sample) then
                let ground_truth_minhash := (generate_minhash document).1 in
                if decide (minhash = ground_truth_minhash) then
                  match random_samples with
                  | next_sample :: random_samples =>
                      verify_loop rest offset pile_gen
                                  next_sample random_samples
                  | [] => verify_loop rest offset pile_gen next_sample []
                  end
                else Err AssertionError
              else verify_loop rest offset pile_gen
                               next_sample random_samples
            else Err AssertionError
        end
      else Err AssertionError
  end.

(** [verify_minhashes]: [minhashes] is what [yield_minhashes] yields,
    [pile] what [yield_pile()] yields, and [random_samples] the sorted
    sample of 10000 offsets below the number of minhashes. *)
Definition verify_minhashes `{Tokenizer, MinHashParams}
    (minhashes : list (Z * minhash) * option exn)
    (pile : list (Z * string)) (random_samples : list Z) : result () :=
  match minhashes.2 with
  | Some e => Err e
  | None =>
      let minhashes_count := llen minhashes.1 in
      if decide (minhashes_count < 10000) then Ok ()
      else
        match random_samples with
        | [] => Err StopIteration
        | next_sample :: random_samples =>
            verify_loop minhashes.1 (-1) pile next_sample random_samples
        end
  end.

End working_with_minhashes.

(** ** dedupe.py *)

Module dedupe.
Import datasketch generate_minhashes working_with_minhashes.

Definition duplicate_record : Type := Z * list Z.

(** What the run leaves in the duplicates directory, in program
    order.  [SavedDuplicateBatch] stands for the two dumps of
    [save_duplicate_batch]. *)
Inductive event : Type :=
  | OpenedLSH
  | DumpedLSH
  | SavedDuplicateBatch (batch_number : Z)
                        (duplicates : list duplicate_record)
  | CheckedDiskSpace (passed : bool)
  | SavedDuplicateStats (duplicate_count : Z)
  | TouchedDone.

(** The outcome of [(usage.free / usage.total) > 0.05], a comparison
    of floats, at the [n]-th call of [ensure_disk_space]. *)
Class Disk := free_space_ok : nat → bool.

(** The local variables of [main] and the files it reads back. *)
Record state : Type := State {
  lsh : MinHashLSH;
  duplicates : list duplicate_record;
  batch_number : Z;
  duplicate_count : Z;
  lsh_pkl : file MinHashLSH;
  done_file : bool;
  events : list event;
}.

Definition emit (e : event) (st : state) : state :=
  State (lsh st) (duplicates st) (batch_number st) (duplicate_count st)
        (lsh_pkl st) (done_file st) (events st ++ [e]).

Definition is_check (e : event) : bool :=
  match e with
  | CheckedDiskSpace _ => true
  | _ => false
  end.

Definition checks_done (st : state) : nat :=
  length (List.filter is_check (events st)).

Definition ensure_disk_space `{Disk} (st : state) : result () * state :=
  let passed := free_space_ok (checks_done st) in
  (if passed then Ok () else Err AssertionError,
   emit (CheckedDiskSpace passed) st).

(** [load_or_create_lsh]: the build loop. *)
Fixpoint build_lsh (lsh : MinHashLSH) (minhashes : list (Z * minhash))
  : result MinHashLSH :=
  match minhashes with
  | [] => Ok lsh
  | (offset, m) :: rest => lsh' ← insert lsh offset m; build_lsh lsh' rest
  end.

Definition set_lsh_pkl (f : file MinHashLSH) (st : state) : state :=
  State (lsh st) (duplicates st) (batch_number st) (duplicate_count st)
        f (done_file st) (events st).
Definition set_lsh (l : MinHashLSH) (st : state) : state :=
  State l (duplicates st) (batch_number st) (duplicate_count st)
        (lsh_pkl st) (done_file st) (events st).

(** [pickle.dump(lsh, open(lsh_path, "wb"))], in place: the [open]
    creates the file, the dump completes it. *)
Definition dump_lsh (l : MinHashLSH) : list (state → state) :=
  [ (λ st, emit OpenedLSH (set_lsh_pkl Partial st));
    (λ st, emit DumpedLSH (set_lsh_pkl (Full l) st)) ].

Definition load_or_create_lsh `{Banding}
    (minhashes_directory : gmap Z (file (list (Z * minhash))))
    (st : state) : result () * state :=
  if exists_file (lsh_pkl st) then
    match pickle_load (lsh_pkl st) with
    | Ok l => (Ok (), set_lsh l st)
    | Err e => (Err e, st)
    end
  else
    let '(minhashes, failure) := yield_minhashes minhashes_directory in
    match build_lsh (MinHashLSH_init 10) minhashes with
    | Err e => (Err e, st)
    | Ok l =>
        match failure with
        | Some e => (Err e, st)
        | None => (Ok (), set_lsh l (foldl (λ st a, a st) st (dump_lsh l)))
        end
    end.

Definition save_duplicate_batch (st : state) : state :=
  emit (SavedDuplicateBatch (batch_number st) (duplicates st)) st.

Definition save_frequency : Z := 1000000.

(** [for found_offset in results: if found_offset != offset: ... break] *)
Fixpoint found_other (offset : Z) (results : list Z) : bool :=
  match results with
  | [] => false
  | found_offset :: rest =>
      if decide (found_offset ≠ offset) then true
      else found_other offset rest
  end.

(** The first half of the loop body: query, record, remove. *)
Definition record_duplicate (offset : Z) (m : minhash) (st : state)
  : result () * state :=
  match query (lsh st) m with
  | Err e => (Err e, st)
  | Ok results =>
      if found_other offset results then
        let st := State (lsh st) (duplicates st ++ [(offset, results)])
                        (batch_number st) (duplicate_count st + 1)
                        (lsh_pkl st) (done_file st) (events st) in
        match remove (lsh st) offset with
        | Err e => (Err e, st)
        | Ok l => (Ok (), set_lsh l st)
        end
      else (Ok (), st)
  end.

(** The second half: flush a full batch, then check the disk. *)
Definition flush_if_full `{Disk} (st : state) : result () * state :=
  if decide (llen (duplicates st) = save_frequency) then
    let st := save_duplicate_batch st in
    let st := State (lsh st) [] (batch_number st + 1) (duplicate_count st)
                    (lsh_pkl st) (done_file st) (events st) in
    ensure_disk_space st
  else (Ok (), st).

Definition loop_body `{Disk} (item : Z * minhash) (st : state)
  : result () * state :=
  match record_duplicate item.1 item.2 st with
  | (Ok _, st) => flush_if_full st
  | (Err e, st) => (Err e, st)
  end.

Fixpoint main_loop `{Disk} (minhashes : list (Z * minhash)) (st : state)
  : result () * state :=
  match minhashes with
  | [] => (Ok (), st)
  | item :: rest =>
      match loop_body item st with
      | (Ok _, st) => main_loop rest st
      | (Err e, st) => (Err e, st)
      end
  end.

(** The state [main] starts from, given what the duplicates directory
    holds. *)
Definition initial_state (lsh_pkl : file MinHashLSH) (done_file : bool)
  : state :=
  State (mkLSH 0 [] [] ∅) [] 0 0 lsh_pkl done_file [].

Definition main `{Banding, Disk}
    (minhashes_directory : gmap Z (file (list (Z * minhash))))
    (st : state) : result () * state :=
  if done_file st then (Ok (), st)
  else
    match load_or_create_lsh minhashes_directory st with
    | (Err e, st) => (Err e, st)
    | (Ok _, st) =>
        let '(minhashes, failure) := yield_minhashes minhashes_directory in
        match main_loop minhashes st with
        | (Err e, st) => (Err e, st)
        | (Ok _, st) =>
            match failure with
            | Some e => (Err e, st)
            | None =>
                let st := if decide (llen (duplicates st) ≠ 0)
                          then save_duplicate_batch st else st in
                let st := emit (SavedDuplicateStats (duplicate_count st)) st in
                let st := emit TouchedDone st in
                (Ok (),
                 State (lsh st) (duplicates st) (batch_number st)
                       (duplicate_count st) (lsh_pkl st) true (events st))
            end
        end
    end.

(** The duplicate records a run wrote to disk. *)
Definition emitted (es : list event) : list duplicate_record :=
  es ≫= λ e, match e with SavedDuplicateBatch _ ds => ds | _ => [] end.

(** The numbers of the batch files a run wrote, in program order. *)
Definition batch_numbers (es : list event) : list Z :=
  es ≫= λ e, match e with SavedDuplicateBatch n _ => [n] | _ => [] end.

End dedupe.

(** ** working_with_duplicates.py *)

Module working_with_duplicates.

(** What a pickle file of the duplicates directory holds: the records
    of a batch, or only their offsets (the [smol] variant). *)
Inductive pickle : Type :=
  | Records (data : list (Z * list Z))
  | Offsets (data : list Z).

(** A directory: the names and contents of its files, in the order in
    which the operating system lists them. *)
Definition directory : Type := list (string * file pickle).

(** [os.path.join(directory, name)] for a relative [name]. *)
Definition os_path_join (path name : string) : string :=
  match path with
  | "" => name
  | _ =>
      if Stdlib.Strings.String.eqb
           (Stdlib.Strings.String.substring
              (Stdlib.Strings.String.length path - 1) 1 path) "/"
      then path +:+ name
      else path +:+ "/" +:+ name
  end.

(** [fnmatch] for patterns made of literal characters and [*]. *)
Fixpoint fnmatch (pattern name : string) : bool :=
  match pattern with
  | "" => match name with "" => true | _ => false end
  | String "*" pattern' =>
      (fix star (name : string) : bool :=
         fnmatch pattern' name ||
         match name with
         | "" => false
         | String _ name' => star name'
         end) name
  | String c pattern' =>
      match name with
      | "" => false
      | String c' name' => Ascii.eqb c c' && fnmatch pattern' name'
      end
  end.

(** [glob.glob(os.path.join(path, pattern))]: the matching names of the
    listing, in listing order, as paths; names with a leading dot are
    not matched by a leading [*]. *)
Definition glob (path pattern : string) (listing : directory)
  : list (string * file pickle) :=
  (λ entry, (os_path_join path entry.1, entry.2)) <$>
  List.filter
    (λ entry, fnmatch pattern entry.1 &&
              negb (Stdlib.Strings.String.prefix "." entry.1))
    listing.

(** [needle in haystack] *)
Fixpoint contains (needle haystack : string) : bool :=
  Stdlib.Strings.String.prefix needle haystack ||
  match haystack with
  | "" => false
  | String _ rest => contains needle rest
  end.

(** [for offset, found_offsets in data: yield (offset, found_offsets)];
    unpacking an integer raises. *)
Definition unpack (data : pickle) : list (Z * list Z) * option exn :=
  match data with
  | Records data => (data, None)
  | Offsets [] => ([], None)
  | Offsets (_ :: _) => ([], Some TypeError)
  end.

(** The loop over [duplicates_files], run to its end. *)
Fixpoint read_files (duplicates_files : list (string * file pickle))
    (first_file_only : bool) : list (Z * list Z) * option exn :=
  match duplicates_files with
  | [] => ([], None)
  | (_, f) :: rest =>
      match pickle_load f with
      | Err e => ([], Some e)
      | Ok data =>
          match unpack data with
          | (items, Some e) => (items, Some e)
          | (items, None) =>
              if first_file_only then (items, None)
              else
                let '(more, e) := read_files rest first_file_only in
                (items ++ more, e)
          end
      end
  end.

(** The records of a completely written record file. *)
Definition records_of (f : file pickle) : list (Z * list Z) :=
  match f with
  | Full (Records data) => data
  | _ => []
  end.

Definition duplicates_files (duplicates_directory : string)
    (listing : directory) : list (string * file pickle) :=
  List.filter (λ x, negb (contains "smol" x.1))
              (glob duplicates_directory "*duplicates_*.pkl" listing).

Definition yield_duplicates (duplicates_directory : string)
    (listing : directory) (first_file_only : bool)
  : list (Z * list Z) * option exn :=
  read_files (duplicates_files duplicates_directory listing) first_file_only.

(** [duplicate_statistics.json] *)
Record duplicate_stats : Type := Stats {
  total_duplicates : Z;
}.

(** [get_duplicate_stats(duplicates_directory)]: [None] when the file
    is missing. *)
Definition get_duplicate_stats (stats_file : file duplicate_stats)
  : result (option duplicate_stats) :=
  if exists_file stats_file then
    stats ← json_load stats_file; Ok (Some stats)
  else Ok None.

(** *** [inspect_duplicates] *)

(** The index [indexed_documents]: a document, or Python's [None]. *)
Abbreviation document_index := (gmap Z (option string)).

(** The loop that prepares the index: an entry holding [None] for the
    offset and the found offsets of every record. *)
Fixpoint prepare_index (records : list (Z * list Z))
    (indexed_documents : document_index) : document_index :=
  match records with
  | [] => indexed_documents
  | (offset, found_offsets) :: rest =>
      prepare_index rest
        (foldl (λ index found_offset, <[found_offset := None]> index)
               (<[offset := None]> indexed_documents) found_offsets)
  end.

(** The full scan of the pile. *)
Fixpoint full_scan (pile : list (Z * string))
    (indexed_documents : document_index) : document_index :=
  match pile with
  | [] => indexed_documents
  | (offset, document) :: rest =>
      full_scan rest
        (if decide (is_Some (indexed_documents !! offset))
         then <[offset := Some document]> indexed_documents
         else indexed_documents)
  end.

(** [indexed_documents[key]] *)
Definition getitem (indexed_documents : document_index) (key : Z)
  : result (option string) :=
  match indexed_documents !! key with
  | Some document => Ok document
  | None => Err KeyError
  end.

(** The display loop: for each record, the document logged for its
    offset and the documents logged for its found offsets. *)
Fixpoint show_records (records : list (Z * list Z))
    (indexed_documents : document_index)
  : result (list (option string * list (option string))) :=
  match records with
  | [] => Ok []
  | (offset, found_offsets) :: rest =>
      document ← getitem indexed_documents offset;
      matching ← mapM (getitem indexed_documents) found_offsets;
      shown ← show_records rest indexed_documents;
      Ok ((document, matching) :: shown)
  end.

(** [inspect_duplicates]: [index_file] is [verify_pile_documents.pkl],
    [pile] what [yield_pile()] yields; the prompts of [input] are left
    out.  The result is the index left on disk and what was logged. *)
Definition inspect_duplicates (duplicates_directory : string)
    (listing : directory) (index_file : file document_index)
    (pile : list (Z * string))
  : result (file document_index *
            list (option string * list (option string))) :=
  indexed ←
    (if exists_file index_file then
       indexed_documents ← pickle_load index_file;
       Ok (index_file, indexed_documents)
     else
       let '(records, failure) :=
         yield_duplicates duplicates_directory listing true in
       match failure with
       | Some e => Err e
       | None =>
           let indexed_documents := full_scan pile (prepare_index records ∅) in
           Ok (Full indexed_documents, indexed_documents)
       end);
  let '(records, failure) :=
    yield_duplicates duplicates_directory listing true in
  shown ← show_records records indexed.2;
  match failure with
  | Some e => Err e
  | None => Ok (indexed.1, shown)
  end.

End working_with_duplicates.

(** ** yield_deduped_pile.py *)

Module yield_deduped_pile.
Import working_with_duplicates.

(** The values [current_duplicate] and [global_offset] take. *)
Inductive pyval : Type :=
  | PyNone
  | PyInt (n : Z)
  | PyTuple (offset : Z) (found_offsets : list Z).

(** Python's [==] on these values: a tuple, an integer and [None] are
    never equal to one another. *)
Definition py_eq (x y : pyval) : bool :=
  match x, y with
  | PyNone, PyNone => true
  | PyInt m, PyInt n => bool_decide (m = n)
  | PyTuple o1 f1, PyTuple o2 f2 => bool_decide (o1 = o2 ∧ f1 = f2)
  | _, _ => false
  end.

(** What the generator needs from the file system. *)
Record files : Type := Files {
  duplicate_statistics_json : file duplicate_stats;
  pile_statistics_pkl : file Z;
  duplicates_listing : directory;
}.

(** A call of a function with one required positional parameter:
    Python binds the arguments before the body runs. *)
Definition call_1 {A B} (f : A → result B) (args : list A) : result B :=
  match args with
  | [a] => f a
  | _ => Err TypeError
  end.

(** [next(duplicates)] on what is left of the generator. *)
Definition next (duplicates : list (Z * list Z) * option exn)
  : result (Z * list Z) * (list (Z * list Z) * option exn) :=
  match duplicates with
  | (item :: rest, failure) => (Ok item, (rest, failure))
  | ([], Some e) => (Err e, ([], None))
  | ([], None) => (Err StopIteration, ([], None))
  end.

(** The statements before the loop: statistics and logging. *)
Definition preamble (fs : files) : result () :=
  duplicate_stats ← call_1 (λ _ : string,
                      get_duplicate_stats (duplicate_statistics_json fs)) [];
  total_duplicates ← match duplicate_stats with
                     | Some stats => Ok (total_duplicates stats)
                     | None => Err TypeError
                     end;
  document_count ← pickle_load (pile_statistics_pkl fs);
  if decide (document_count = 0) then Err ZeroDivisionError else Ok ().

(** The loop over [yield_pile()]: the pairs yielded, and the exception
    that ends the generator, if any.  [StopIteration] from [next] is
    caught inside the loop; before the loop it ends the generator with
    [RuntimeError]. *)
Fixpoint filter_loop (pile : list (Z * string)) (current_duplicate : pyval)
    (duplicates : list (Z * list Z) * option exn)
  : list (Z * string) * option exn :=
  match pile with
  | [] => ([], None)
  | (global_offset, document) :: rest =>
      if py_eq current_duplicate (PyInt global_offset) then
        match next duplicates with
        | (Ok item, duplicates) =>
            filter_loop rest (PyTuple item.1 item.2) duplicates
        | (Err StopIteration, duplicates) =>
            filter_loop rest PyNone duplicates
        | (Err e, _) => ([], Some e)
        end
      else
        let '(yielded, e) := filter_loop rest current_duplicate duplicates in
        ((global_offset, document) :: yielded, e)
  end.

Definition yield_deduped_pile (pile_directory duplicates_directory : string)
    (fs : files) (pile : list (Z * string))
  : list (Z * string) * option exn :=
  match preamble fs with
  | Err e => ([], Some e)
  | Ok _ =>
      let duplicates :=
        yield_duplicates duplicates_directory (duplicates_listing fs) false in
      match next duplicates with
      | (Err StopIteration, _) => ([], Some RuntimeError)
      | (Err e, _) => ([], Some e)
      | (Ok item, duplicates) =>
          filter_loop pile (PyTuple item.1 item.2) duplicates
      end
  end.

End yield_deduped_pile.

(** ** Stand-ins for the external parameters, used on concrete inputs *)

(** Whitespace tokenization: agrees with [nltk.word_tokenize] on
    space-separated lower-case words. *)
Definition whitespace_tokenizer : Tokenizer := λ s, Ok (String.words s).

(** A tokenizer that raises on every non-empty text. *)
Definition failing_tokenizer : Tokenizer := λ s,
  match s with
  | "" => Ok []
  | _ => Err LookupError
  end.

Definition toy_params : datasketch.MinHashParams := {|
  datasketch.hashfunc s := len s;
  datasketch.permutation i := (Z.of_nat i + 1, Z.of_nat i);
|}.

(** Three bands of three rows: the minimiser of the library's error
    integral for the default threshold 0.5 and ten permutations. *)
Definition three_bands : datasketch.Banding := {|
  datasketch.b := 3;
  datasketch.r := 3;
|}.

(** A reader whose objects with metadata are [(text, meta)] pairs, of
    length two. *)
Definition pair_reader : Reader := λ _, 2.

(** A volume on which every free-space check fails, and one on which
    every check passes. *)
Definition full_disk : dedupe.Disk := λ _, false.
Definition roomy_disk : dedupe.Disk := λ _, true.

(** A duplicates directory that the operating system lists with the
    second batch first. *)
Definition unordered_listing : working_with_duplicates.directory :=
  [ ("duplicates_0001.pkl",
       Full (working_with_duplicates.Records [(7, [9; 7])]));
    ("duplicates_smol_0001.pkl", Full (working_with_duplicates.Offsets [7]));
    ("duplicate_statistics.json", Partial);
    ("duplicates_0000.pkl",
       Full (working_with_duplicates.Records [(0, [1; 0]); (3, [4; 3])]));
    ("duplicates_smol_0000.pkl",
       Full (working_with_duplicates.Offsets [0; 3])) ].

(** A two-document corpus with its duplicates directory. *)
Definition twin_pile : list (Z * string) :=
  [(0, "the quick brown fox jumps over the lazy dog");
   (1, "the quick brown fox jumps over the lazy dog")].
Definition twin_files : yield_deduped_pile.files := {|
  yield_deduped_pile.duplicate_statistics_json :=
    Full (working_with_duplicates.Stats 1);
  yield_deduped_pile.pile_statistics_pkl := Full 2;
  yield_deduped_pile.duplicates_listing :=
    [ ("duplicates_0000.pkl",
         Full (working_with_duplicates.Records [(0, [1; 0])]));
      ("duplicates_smol_0000.pkl",
         Full (working_with_duplicates.Offsets [0])) ];
|}.

(** ** Properties of the minhash store *)

Module generate_minhashes_spec.
Import datasketch generate_minhashes.

(** No transaction in flight, and every file that is read later is
    complete. *)
Definition quiescent (d : working_dir) : Prop :=
  transaction_lock d = false ∧
  checkpoint_temp_file d = Absent ∧
  checkpoint_file d ≠ Partial ∧
  checkpoint_old_file d ≠ Partial ∧
  (∀ o, checkpoint_old_file d = Full o →
        ∃ c, checkpoint_file d = Full c ∧ o < c).

(** A consistent directory resumes at [c0]: it is quiescent and the only
    batch file that may be incomplete is the one the resumed run writes
    first. *)
Definition consistent (d : working_dir) (c0 : Z) : Prop :=
  quiescent d ∧
  load_checkpoint_offset d = Ok c0 ∧
  (∀ s, minhashes_file d s = Partial → s = c0).

(** A two-document corpus, committed as one final batch. *)
Definition two_docs : list (Z * string) := [(0, "a b c d e f"); (1, "")].
Definition two_minhashes : list minhash :=
  @task_results whitespace_tokenizer toy_params two_docs.

(** No document of the pile makes [generate_minhash] fail. *)
Definition hashable `{Tokenizer, MinHashParams} (pile : list (Z * string))
  : Prop :=
  Forall (λ od, (generate_minhash od.2).1 ≠ None) pile.

(** A full batch of empty documents starting at [start]. *)
Definition full_batch (start : Z) : list (Z * string) :=
  (λ i, (i, "")) <$> seqZ start batch_size.

(** Modelled on the words of the specification: the signature of a
    single pass over the token stream of the whole document, without
    slicing. *)
Definition single_pass_minhash `{Tokenizer, MinHashParams}
    (document : string) : result LeanMinHash :=
  n_grams ← extract_ngrams document 5;
  Ok (minhash_of_set (list_to_set n_grams)).

(** [n] spaces in front of a text. *)
Fixpoint pad (n : nat) (text : string) : string :=
  match n with
  | O => text
  | S n => String " " (pad n text)
  end.

(** A document of 1 MiB + 7 characters whose only five words straddle
    the slice boundary, and one of 1 MiB + 11 characters whose words
    all lie in the second slice. *)
Definition straddling_document : string :=
  pad (Z.to_nat 1048574) "a b c d e".
Definition aligned_document : string :=
  pad (Z.to_nat 1048576) "a b c d e f".

(** The batches that the loop of [main] hands to [process_batch] when
    it skips no document, in order: [batch] is the batch being
    filled. *)
Fixpoint batches (pile batch : list (Z * string))
  : list (list (Z * string)) :=
  match pile with
  | [] => if decide (llen batch ≠ 0) then [batch] else []
  | od :: rest =>
      let batch := batch ++ [od] in
      if decide (llen batch = batch_size) then batch :: batches rest []
      else batches rest batch
  end.

(** The commits of a list of batches, one after the other. *)
Fixpoint commit_all `{Tokenizer, MinHashParams}
    (bs : list (list (Z * string))) (d : working_dir) : result working_dir :=
  match bs with
  | [] => Ok d
  | batch :: bs => d' ← process_batch batch d; commit_all bs d'
  end.

(** Two directories that the commits of [bs] make equal: they agree
    on the checkpoint, on every batch file that [bs] does not write,
    and on the old checkpoint unless the first commit replaces it. *)
Definition washed_out (bs : list (list (Z * string)))
    (d1 d2 : working_dir) : Prop :=
  checkpoint_file d1 = checkpoint_file d2 ∧
  (bs = [] → checkpoint_temp_file d1 = checkpoint_temp_file d2 ∧
             transaction_lock d1 = transaction_lock d2) ∧
  (checkpoint_old_file d1 = checkpoint_old_file d2 ∨
   (exists_file (checkpoint_file d1) = true ∧ bs ≠ [])) ∧
  (∀ s, (∀ batch, batch ∈ bs → first_offset batch ≠ Ok s) →
        minhashes_files d1 !! s = minhashes_files d2 !! s).

End generate_minhashes_spec.

(** ** Properties of the dedupe pass *)

Module dedupe_spec.
Import datasketch generate_minhashes working_with_minhashes dedupe.

(** Two signatures collide when they agree on at least one band. *)
Definition collide `{Banding} (hv1 hv2 : LeanMinHash) : Prop :=
  Exists (λ range, _H hv1 range = _H hv2 range) bands.

(** One hash table represents the band [range] of the signatures in
    [live]. *)
Definition table_rep (live : gmap Z LeanMinHash) (range : nat * nat)
    (t : gmap (list Z) (gset Z)) : Prop :=
  ∀ H k, k ∈ bucket t H ↔ ∃ hv, live !! k = Some hv ∧ _H hv range = H.

(** The index holds exactly the signatures in [live]. *)
Definition rep `{Banding} (l : MinHashLSH) (live : gmap Z LeanMinHash)
  : Prop :=
  h l = 10%nat ∧
  hashranges l = bands ∧
  keys l = band_hashes l <$> live ∧
  Forall2 (table_rep live) bands (hashtables l).

(** The offsets in [live] whose signature collides with [hv]. *)
Definition matches `{Banding} (live : gmap Z LeanMinHash) (hv : LeanMinHash)
  : gset Z :=
  dom (filter (λ kv, collide kv.2 hv) live).

(** The records of the pass, computed on the set of live signatures. *)
Fixpoint pass `{Banding} (live : gmap Z LeanMinHash)
    (sigs : list (Z * LeanMinHash)) : list duplicate_record :=
  match sigs with
  | [] => []
  | (offset, hv) :: rest =>
      let results := elements (matches live hv) in
      if found_other offset results
      then (offset, results) :: pass (delete offset live) rest
      else pass live rest
  end.

(** The invariant of the pass: the stream ahead is sorted and still
    indexed, and every offset already passed that is still indexed is
    older than the stream ahead and collides with nothing else in the
    index. *)
Definition pass_inv `{Banding} (live : gmap Z LeanMinHash)
    (sigs : list (Z * LeanMinHash)) : Prop :=
  StronglySorted Z.lt sigs.*1 ∧
  (∀ o hv, (o, hv) ∈ sigs → live !! o = Some hv) ∧
  (∀ p hvp, live !! p = Some hvp → p ∉ sigs.*1 →
     Forall (λ o, p < o) sigs.*1 ∧
     ∀ q hvq, live !! q = Some hvq → q ≠ p → ¬ collide hvp hvq).

(** A stream of well-formed signatures, as stored minhashes. *)
Definition stored (sigs : list (Z * LeanMinHash)) : list (Z * minhash) :=
  (λ x, (x.1, Some x.2)) <$> sigs.

(** [min(M)] *)
Definition min_offset (M : list Z) : option Z :=
  foldr (λ x acc, Some (from_option (Z.min x) x acc)) None M.

(** The number of records emitted for [offset]. *)
Definition records_for (offset : Z) (records : list duplicate_record) : nat :=
  length (filter (λ rec, rec.1 = offset) records).

(** Full batches, each followed by a free-space check that passed. *)
Inductive passed_flushes : list event → Prop :=
  | passed_nil : passed_flushes []
  | passed_snoc es n ds :
      passed_flushes es →
      llen ds = save_frequency →
      passed_flushes
        (es ++ [SavedDuplicateBatch n ds; CheckedDiskSpace true]).

(** Two identical documents at offsets 0 and 1 ([twin_pile]): their
    signature under the stand-in tokenizer and hash, and the batch file
    that holds them. *)
Definition twin_signature : LeanMinHash :=
  [23; 47; 71; 95; 119; 143; 167; 191; 215; 239].
Definition twin_sigs : list (Z * LeanMinHash) :=
  [(0, twin_signature); (1, twin_signature)].
Definition twins : gmap Z (file (list (Z * minhash))) :=
  {[ 0 := Full (stored twin_sigs) ]}.

(** The bookkeeping of the pass: the counter is the number of records
    written and pending, and the batch files written so far are
    numbered from 0 up to the current batch number. *)
Definition accounted (st : state) : Prop :=
  duplicate_count st = llen (emitted (events st)) + llen (duplicates st) ∧
  0 ≤ batch_number st ∧
  batch_numbers (events st) = seqZ 0 (batch_number st).

End dedupe_spec.

(** * Proofs *)

(** ** The pool and its error callback *)

Section pool_proofs.
Import datasketch generate_minhashes generate_minhashes_spec.
Context `{Tokenizer, MinHashParams}.
Implicit Types (d : working_dir) (pile batch : list (Z * string)).

Lemma bind_Ok {A B} (a : A) (k : A → result B) : (Ok a ≫= k) = k a.
Proof. reflexivity. Qed.

Lemma length_updates (updates : list string) hashvalues :
  length (foldl update hashvalues updates) = length hashvalues.
Proof.
  revert hashvalues. induction updates as [|b updates IH];
    intros hashvalues; [done|].
  simpl. rewrite IH. unfold update. apply length_imap.
Qed.

Lemma length_minhash_of_set five_gram_set :
  length (minhash_of_set five_gram_set) = 10%nat.
Proof. unfold minhash_of_set. rewrite length_updates. done. Qed.

(** What [generate_minhash] returns is falsy only when it is [None]:
    a signature has ten hash values. *)
Lemma generate_minhash_truthy document :
  truthy (generate_minhash document).1 = true ↔
  (generate_minhash document).1 ≠ None.
Proof.
  unfold generate_minhash, generate_minhash_try.
  destruct (five_grams_of _ _) as [five_gram_set|ex]; cbn.
  - rewrite bool_decide_eq_true. unfold llen.
    rewrite length_minhash_of_set. split; [done|lia].
  - split; [done|by intros []].
Qed.

Lemma mapM_Ok {A B} (f : A → result B) (l : list A) :
  Forall (λ x, ∃ y, f x = Ok y) l → ∃ ys, mapM f l = Ok ys.
Proof.
  induction 1 as [|x l [y Hx] _ [ys IH]]; [by eexists|].
  cbn [mapM]. rewrite Hx, bind_Ok, IH. by eexists.
Qed.

Lemma mapM_Err {A B} (f : A → result B) (l : list A) e :
  Exists (λ x, f x = Err e) l →
  Forall (λ x, ∀ e', f x = Err e' → e' = e) l →
  mapM f l = Err e.
Proof.
  intros Hsome Hall. induction Hall as [|x l Hx _ IH].
  { by apply Exists_nil in Hsome. }
  cbn [mapM]. destruct (f x) as [y|e'] eqn:Hfx.
  - rewrite bind_Ok. apply Exists_cons in Hsome as [?|Hsome]; [congruence|].
    by rewrite IH.
  - by rewrite (Hx e' eq_refl).
Qed.

(** The empty document has a signature when the tokenizer accepts the
    empty text. *)
Lemma empty_document_hashable tokens :
  word_tokenize "" = Ok tokens → (generate_minhash "").1 ≠ None.
Proof.
  intros Htok. unfold generate_minhash, generate_minhash_try.
  unfold slice_document. rewrite decide_False by (by vm_compute).
  cbn [five_grams_of]. unfold extract_ngrams. rewrite Htok.
  by rewrite !bind_Ok.
Qed.

(** The pool returns the results of the tasks when every one of them is
    a signature. *)
Lemma pool_map_Ok batch :
  hashable batch → pool_map batch = Ok (task_results batch).
Proof.
  intros Hall. unfold pool_map.
  match goal with |- (mapM ?f _ ≫= _) = _ =>
    pose proof (mapM_Ok f (task_results batch)) as Hok
  end.
  destruct Hok as [units Hunits]; [|by rewrite Hunits].
  unfold task_results. apply Forall_fmap.
  eapply Forall_impl; [exact Hall|]. intros od Hod. cbn beta.
  apply generate_minhash_truthy in Hod. simpl in Hod |- *.
  rewrite Hod. by eexists.
Qed.

(** One [None] among the results makes the pool exit. *)
Lemma pool_map_exit batch od :
  od ∈ batch → (generate_minhash od.2).1 = None →
  pool_map batch = Err SystemExit.
Proof.
  intros Hin Hnone. unfold pool_map.
  match goal with |- (mapM ?f _ ≫= _) = _ =>
    rewrite (mapM_Err f (task_results batch) SystemExit); [done|..]
  end.
  - unfold task_results. apply Exists_fmap, Exists_exists.
    exists od. split; [done|]. cbn. by rewrite Hnone.
  - apply Forall_forall. intros task_result _ e'.
    destruct (truthy task_result); [done|]. by intros [= <-].
Qed.

Lemma pool_map_inv batch minhashes :
  pool_map batch = Ok minhashes →
  minhashes = task_results batch ∧ hashable batch.
Proof.
  intros Hpool.
  destruct (decide (hashable batch)) as [Hall|Hsome].
  - rewrite pool_map_Ok in Hpool by done. by injection Hpool as <-.
  - apply not_Forall_Exists in Hsome; [|apply _].
    apply Exists_exists in Hsome as (od & Hin & Hnone).
    apply dec_stable in Hnone.
    by rewrite (pool_map_exit batch od) in Hpool.
Qed.

Lemma process_batch_Ok batch d :
  hashable batch →
  process_batch batch d = run (transaction batch (task_results batch)) d.
Proof. intros Hall. unfold process_batch. by rewrite pool_map_Ok. Qed.

Lemma process_batch_exit batch d od :
  od ∈ batch → (generate_minhash od.2).1 = None →
  process_batch batch d = Err SystemExit.
Proof.
  intros Hin Hnone. unfold process_batch.
  by rewrite (pool_map_exit batch od).
Qed.

(** The commit of a non-empty batch succeeds from any directory. *)
Lemma transaction_succeeds {D} (batch : list (Z * D)) minhashes d s l :
  first_offset batch = Ok s →
  final_offset batch = Ok l →
  ∃ d', run (transaction batch minhashes) d = Ok d' ∧
        minhashes_files d' =
          <[s := Full (minhashes_and_meta batch minhashes)]>
            (minhashes_files d) ∧
        checkpoint_file d' = Full l ∧
        checkpoint_temp_file d' = Absent ∧
        transaction_lock d' = false.
Proof.
  intros Hs Hl. unfold transaction. rewrite Hs, Hl.
  destruct d as [ck tmp old lock files]. simpl.
  destruct ck; simpl; eexists; (split; [reflexivity|]); simpl;
    by rewrite insert_insert_eq.
Qed.

Lemma offsets_of_batch {D} (batch : list (Z * D)) :
  batch ≠ [] → ∃ s l, first_offset batch = Ok s ∧ final_offset batch = Ok l.
Proof.
  intros Hne. destruct batch as [|[s doc] batch]; [done|].
  unfold final_offset.
  destruct (last ((s, doc) :: batch)) as [[l ldoc]|] eqn:Hlast.
  - by exists s, l.
  - by apply last_None in Hlast.
Qed.

(** A batch is committed, or the pool exits; nothing else ends
    [process_batch] on a non-empty batch. *)
Lemma process_batch_outcome batch d :
  batch ≠ [] →
  (∃ d', process_batch batch d = Ok d') ∨
  process_batch batch d = Err SystemExit.
Proof.
  intros Hne. destruct (offsets_of_batch batch Hne) as (s & l & Hs & Hl).
  destruct (decide (hashable batch)) as [Hall|Hsome].
  - left. rewrite process_batch_Ok by done.
    destruct (transaction_succeeds batch (task_results batch) d s l Hs Hl)
      as (d' & Hrun & _). by exists d'.
  - right. apply not_Forall_Exists in Hsome; [|apply _].
    apply Exists_exists in Hsome as (od & Hin & Hnone).
    apply dec_stable in Hnone. by apply (process_batch_exit batch d od).
Qed.

(** The loop of [main] ends in the exit of the pool when a document
    of the batch being filled, or a document still to come that is not
    skipped, has no signature. *)
Lemma main_loop_exit pile checkpoint_offset acc d :
  Exists (λ od, (generate_minhash od.2).1 = None) acc ∨
  Exists (λ od, checkpoint_offset ≤ od.1 ∧
                (generate_minhash od.2).1 = None) pile →
  main_loop pile checkpoint_offset acc d = Err SystemExit.
Proof.
  revert acc d. induction pile as [|[offset document] pile IH];
    intros acc d Hfail.
  - destruct Hfail as [Hacc|Hpile]; [|by apply Exists_nil in Hpile].
    apply Exists_exists in Hacc as (od & Hin & Hnone).
    cbn [main_loop]. rewrite decide_True.
    + by apply (process_batch_exit acc d od).
    + destruct acc; [by apply elem_of_nil in Hin|done].
  - cbn [main_loop]. case_decide as Hskip.
    { apply IH. destruct Hfail as [Hacc|Hpile]; [by left|right].
      apply Exists_cons in Hpile as [[Hge _]|Hpile]; [simpl in Hge; lia|done]. }
    assert (Exists (λ od, (generate_minhash od.2).1 = None)
                   (acc ++ [(offset, document)]) ∨
            Exists (λ od, checkpoint_offset ≤ od.1 ∧
                          (generate_minhash od.2).1 = None) pile)
      as [Hbatch|Hrest].
    { destruct Hfail as [Hacc|Hpile].
      - left. apply Exists_app. by left.
      - apply Exists_cons in Hpile as [[_ Hnone]|Hpile]; [|by right].
        left. apply Exists_app. right. by constructor. }
    + case_decide; [|by apply IH; left].
      apply Exists_exists in Hbatch as (od & Hin & Hnone).
      by rewrite (process_batch_exit _ d od).
    + case_decide; [|by apply IH; right].
      destruct (process_batch_outcome (acc ++ [(offset, document)]) d)
        as [[d' ->]| ->]; [by destruct acc| |done].
      simpl. apply IH. by right.
Qed.
End pool_proofs.

(** ** The minhash store: batch commit and recovery *)

Section store_proofs.
Import datasketch generate_minhashes generate_minhashes_spec.
Context {D : Type}.
Implicit Types (d : working_dir) (batch : list (Z * D)).

Lemma load_checkpoint_offset_full d c :
  checkpoint_file d = Full c → load_checkpoint_offset d = Ok (c + 1).
Proof. unfold load_checkpoint_offset. by intros ->. Qed.

Lemma load_checkpoint_offset_absent d :
  checkpoint_file d = Absent → load_checkpoint_offset d = Ok 0.
Proof. unfold load_checkpoint_offset. by intros ->. Qed.

(** The loop of [main] skips every document below the checkpoint
    offset, so the first batch of a resumed run starts there. *)
Lemma main_loop_skip `{Tokenizer, MinHashParams}
    offset document rest checkpoint_offset acc d :
  offset < checkpoint_offset →
  main_loop ((offset, document) :: rest) checkpoint_offset acc d =
  main_loop rest checkpoint_offset acc d.
Proof. intros Hlt. simpl. by rewrite decide_True. Qed.

(** X10.  A commit that runs to its end keeps the directory consistent and
    moves the checkpoint to the last offset of the batch. *)
Lemma process_batch_commits d batch minhashes c0 l :
  consistent d c0 →
  first_offset batch = Ok c0 →
  final_offset batch = Ok l →
  c0 ≤ l →
  ∃ d',
    run (transaction batch minhashes) d = Ok d' ∧
    consistent d' (l + 1) ∧
    checkpoint_file d' = Full l ∧
    minhashes_file d' c0 = Full (minhashes_and_meta batch minhashes).
Proof.
  intros (Hq & Hc & Hp) Hs Hl Hle.
  destruct Hq as (Hlock & Htemp & Hck & Hold & Hlt).
  destruct d as [ck tmp old lock files]; simpl in *; subst lock tmp.
  unfold transaction. rewrite Hs, Hl.
  unfold consistent, quiescent.
  destruct ck as [| |c]; [|done|]; (destruct old as [| |o]; [|done|]).
  all: try (destruct (Hlt _ eq_refl) as (? & [= <-] & Hoc)).
  all: try (by destruct (Hlt _ eq_refl) as (? & ? & _)).
  all: simpl; eexists; split; [reflexivity|].
  all: unfold load_checkpoint_offset, minhashes_file in *; simpl in *.
  all: try (injection Hc as <-).
  all: repeat split; try done.
  all: try (intros ? [= <-]; eexists; split; [done|lia]).
  all: try (by rewrite lookup_insert_eq).
  all: intros s'; rewrite ?lookup_insert; repeat case_decide;
       simpl; try done; intros Hx%Hp; lia.
Qed.

(** C3 (as amended).  Let the directory be consistent and resume at
    [c0], and let the process be killed after [n] of the eight
    file-system actions of a batch commit, with the lock taken and not
    yet released ([1 <= n <= 7]).  Recovery then succeeds and leaves a
    consistent directory resuming at some [c2]; [c2 <= c0], except when
    the kill fell after the rename of the temporary checkpoint
    ([n = 7]): then the interrupted batch counts as committed,
    [c2] is its last offset plus one, and its batch file is complete. *)
Theorem recovery_after_kill d batch minhashes n c0 l :
  consistent d c0 →
  first_offset batch = Ok c0 →
  final_offset batch = Ok l →
  c0 ≤ l →
  (1 ≤ n ≤ 7)%nat →
  ∃ d1 d2 c2,
    killed_after n batch minhashes d = Ok d1 ∧
    transaction_lock d1 = true ∧
    recover d1 = Ok d2 ∧
    consistent d2 c2 ∧
    (c2 ≤ c0 ∨
     (n = 7%nat ∧ c2 = l + 1 ∧
      minhashes_file d2 c0 = Full (minhashes_and_meta batch minhashes))).
Proof.
  intros (Hq & Hc & Hp) Hs Hl Hle Hn.
  destruct Hq as (Hlock & Htemp & Hck & Hold & Hlt).
  destruct d as [ck tmp old lock files]; simpl in *; subst lock tmp.
  unfold killed_after, transaction. rewrite Hs, Hl.
  assert (n = 1 ∨ n = 2 ∨ n = 3 ∨ n = 4 ∨ n = 5 ∨ n = 6 ∨ n = 7)%nat
    as Hcase by lia.
  unfold consistent, quiescent.
  destruct ck as [| |c]; [|done|]; (destruct old as [| |o]; [|done|]).
  all: try (destruct (Hlt _ eq_refl) as (? & [= <-] & Hoc)).
  all: try (by destruct (Hlt _ eq_refl) as (? & ? & _)).
  all: destruct Hcase as [->|[->|[->|[->|[->|[->| ->]]]]]]; simpl.
  all: eexists _, _, _; split; [reflexivity|]; split; [reflexivity|];
       split; [reflexivity|].
  all: unfold load_checkpoint_offset, minhashes_file in *; simpl in *.
  all: try (injection Hc as <-).
  all: split;
    [split;
      [repeat split; try done;
       try (intros ? [= <-]; eexists; split; [done|lia])|]|].
  all: try (split; [reflexivity|]).
  all: try (intros s'; rewrite ?lookup_insert; repeat case_decide;
            simpl; try done; try auto; intros Hx%Hp; lia).
  all: try (left; lia).
  all: right; split; [done|]; split; [lia|].
  all: by rewrite lookup_insert_eq.
Qed.

(** Wherever the batch commit is cut short, the file under the final
    checkpoint name is absent or complete, and a batch file that the
    commit leaves incomplete is accompanied by the transaction lock. *)
Lemma killed_commit_keeps_checkpoint_whole d batch minhashes n d1 :
  checkpoint_file d ≠ Partial →
  killed_after n batch minhashes d = Ok d1 →
  checkpoint_file d1 ≠ Partial ∧
  (∀ s, minhashes_file d1 s = Partial →
        minhashes_file d s = Partial ∨ transaction_lock d1 = true).
Proof.
  intros Hck. unfold killed_after, transaction.
  destruct (first_offset batch) as [s0|e] eqn:Hs;
    destruct (final_offset batch) as [l|e'] eqn:Hl.
  all: destruct d as [ck tmp old lock files]; simpl in *.
  all: (destruct ck as [| |c]; [|done|]); destruct lock.
  all: do 9 (try destruct n as [|n]); simpl.
  all: try (by intros [=]).
  all: intros [= <-]; simpl; (split; [done|]).
  all: intros s'; unfold minhashes_file; simpl;
       rewrite ?lookup_insert; repeat case_decide; simpl; auto; done.
Qed.

End store_proofs.

Section store_instances.
Import datasketch generate_minhashes generate_minhashes_spec.

(** The empty directory is consistent and resumes at offset 0. *)
Lemma empty_dir_consistent : consistent empty_dir 0.
Proof.
  repeat split; done.
Qed.

Lemma recovery_after_kill_witness :
  ∃ d1 d2 c2,
    killed_after 5 two_docs two_minhashes empty_dir = Ok d1 ∧
    transaction_lock d1 = true ∧
    recover d1 = Ok d2 ∧
    consistent d2 c2 ∧
    (c2 ≤ 0 ∨
     (5%nat = 7%nat ∧ c2 = 1 + 1 ∧
      minhashes_file d2 0 = Full (minhashes_and_meta two_docs two_minhashes))).
Proof.
  apply (recovery_after_kill empty_dir two_docs two_minhashes 5 0 1).
  - exact empty_dir_consistent.
  - reflexivity.
  - reflexivity.
  - lia.
  - lia.
Defined.

(** C3, counterexample.  A two-document corpus is committed from an
    empty directory as one batch, and the process is killed after the
    temporary checkpoint was renamed into place (seven actions).  No
    checkpoint was durable before the batch (a run would start at
    offset 0); after recovery the checkpoint holds the batch's last
    offset 1 and the next run starts at offset 2. *)
Lemma recovery_can_commit_interrupted_batch :
  load_checkpoint_offset empty_dir = Ok 0 ∧
  (d1 ← killed_after 7 two_docs two_minhashes empty_dir;
   d2 ← recover d1;
   c2 ← load_checkpoint_offset d2;
   Ok (checkpoint_file d2, c2)) = Ok (Full 1, 2) ∧
  ¬ (2 ≤ 0).
Proof. split; [reflexivity|]. split; [reflexivity|]. lia. Qed.

(** C5, counterexample.  The batch file is opened under its final name
    and written in place: a process killed between the [open] and the
    end of the dump (two actions into the commit) leaves
    [minhashes_0.pkl] incomplete under its final name.  The LSH dump is
    written the same way: after the first of its two actions [lsh.pkl]
    is incomplete, and the next run of the dedupe fails to load it. *)
Lemma batch_file_written_in_place :
  (d1 ← killed_after 2 two_docs two_minhashes empty_dir;
   Ok (minhashes_file d1 0)) = Ok Partial ∧
  dedupe.lsh_pkl
    (foldl (λ st a, a st) (dedupe.initial_state Absent false)
       (take 1 (dedupe.dump_lsh (@MinHashLSH_init three_bands 10))))
    = Partial ∧
  (@dedupe.main three_bands roomy_disk dedupe_spec.twins
     (dedupe.initial_state Partial false)).1 = Err UnpicklingError.
Proof. by vm_compute. Qed.

Lemma final_offset_full_batch start :
  final_offset (full_batch start) = Ok (start + 99999).
Proof.
  unfold final_offset, full_batch.
  rewrite last_lookup, list_lookup_fmap, length_fmap, length_seqZ.
  assert (seqZ start batch_size !! Init.Nat.pred (Z.to_nat batch_size)
          = Some (start + 99999)) as ->; [|done].
  apply lookup_seqZ. unfold batch_size. lia.
Qed.

(** The loop of [main] hands every run of [batch_size] documents at or
    above the checkpoint offset to [process_batch]. *)
Lemma main_loop_full_batch `{Tokenizer, MinHashParams}
    (ahead acc rest : list (Z * string)) checkpoint_offset d :
  ahead ≠ [] →
  llen (acc ++ ahead) = batch_size →
  Forall (λ od, checkpoint_offset ≤ od.1) ahead →
  main_loop (ahead ++ rest) checkpoint_offset acc d =
  (d' ← process_batch (acc ++ ahead) d; main_loop rest checkpoint_offset [] d').
Proof.
  revert acc. induction ahead as [|[offset document] ahead IH];
    intros acc Hne Hlen Hall; [done|].
  apply Forall_cons in Hall as [Ho Hall]. simpl in Ho.
  cbn [main_loop app]. rewrite decide_False by lia.
  destruct ahead as [|next ahead].
  - rewrite decide_True by done. done.
  - rewrite decide_False.
    2: { unfold llen in *. rewrite !length_app in *. simpl in *. lia. }
    rewrite (IH (acc ++ [(offset, document)])); [|done| |done].
    + by rewrite <- (assoc_L (++)).
    + by rewrite <- (assoc_L (++)).
Qed.

(** With stale [checkpoint_old.pkl]: two commits, then a kill once the
    temporary checkpoint of the third is written. *)
Lemma stale_old_checkpoint_restored `{Tokenizer, MinHashParams}
    (batch1 batch2 batch3 : list (Z * string)) c1 c2 :
  final_offset batch1 = Ok c1 →
  final_offset batch2 = Ok c2 →
  batch3 ≠ [] →
  hashable batch1 → hashable batch2 → hashable batch3 →
  ∃ d2 d3 d4,
    (d1 ← process_batch batch1 empty_dir; process_batch batch2 d1) = Ok d2 ∧
    checkpoint_file d2 = Full c2 ∧
    (minhashes ← pool_map batch3;
     killed_after 5 batch3 minhashes d2) = Ok d3 ∧
    checkpoint_file d3 = Full c2 ∧
    recover d3 = Ok d4 ∧
    checkpoint_file d4 = Full c1 ∧
    load_checkpoint_offset d4 = Ok (c1 + 1).
Proof.
  intros Hl1 Hl2 Hne Hall1 Hall2 Hall3.
  assert (∃ s1, first_offset batch1 = Ok s1) as [s1 Hs1].
  { destruct batch1 as [|[??]?]; [done|]. by eexists. }
  assert (∃ s2, first_offset batch2 = Ok s2) as [s2 Hs2].
  { destruct batch2 as [|[??]?]; [done|]. by eexists. }
  assert (∃ s3, first_offset batch3 = Ok s3) as [s3 Hs3].
  { destruct batch3 as [|[??]?]; [done|]. by eexists. }
  assert (∃ l3, final_offset batch3 = Ok l3) as [l3 Hl3].
  { unfold final_offset. destruct (last batch3) as [[??]|] eqn:Hlast.
    - by eexists.
    - by apply last_None in Hlast. }
  unfold process_batch. rewrite !pool_map_Ok by done.
  unfold killed_after, transaction.
  rewrite Hs1, Hl1, Hs2, Hl2, Hs3, Hl3. simpl.
  eexists _, _, _. repeat split.
Qed.

(** A batch of empty documents is hashed when the tokenizer accepts
    the empty text. *)
Lemma full_batch_hashable `{Tokenizer, MinHashParams} tokens start :
  word_tokenize "" = Ok tokens → hashable (full_batch start).
Proof.
  intros Htok. unfold hashable, full_batch. apply Forall_fmap.
  apply Forall_forall. intros i _. cbn.
  by apply (empty_document_hashable tokens).
Qed.

(** C4.  A corpus of 200,001 empty documents, which the tokenizer
    accepts.  From an empty directory the batches of offsets 0 to
    99999 and 100000 to 199999 are committed; the commit of the last
    batch, offset 200000, is killed once its temporary checkpoint is
    written (five actions).  Before recovery the checkpoint holds
    199999; recovery renames the stale [checkpoint_old.pkl] over it,
    the checkpoint holds 99999 and the next run starts again at offset
    100000. *)
Theorem checkpoint_moves_backward `{Tokenizer, MinHashParams} tokens :
  word_tokenize "" = Ok tokens →
  ∃ d2 d3 d4,
    (d1 ← process_batch (full_batch 0) empty_dir;
     process_batch (full_batch 100000) d1) = Ok d2 ∧
    checkpoint_file d2 = Full 199999 ∧
    (minhashes ← pool_map [(200000, "")];
     killed_after 5 [(200000, "")] minhashes d2) = Ok d3 ∧
    checkpoint_file d3 = Full 199999 ∧
    recover d3 = Ok d4 ∧
    checkpoint_file d4 = Full 99999 ∧
    load_checkpoint_offset d4 = Ok 100000.
Proof.
  intros Htok.
  apply (stale_old_checkpoint_restored
           (full_batch 0) (full_batch 100000) [(200000, "")] 99999 199999).
  - exact (final_offset_full_batch 0).
  - exact (final_offset_full_batch 100000).
  - discriminate.
  - by apply (full_batch_hashable tokens).
  - by apply (full_batch_hashable tokens).
  - constructor; [|constructor]. by apply (empty_document_hashable tokens).
Qed.

Lemma checkpoint_moves_backward_witness :
  ∃ d2 d3 d4,
    (d1 ← @process_batch whitespace_tokenizer toy_params
            (full_batch 0) empty_dir;
     @process_batch whitespace_tokenizer toy_params
       (full_batch 100000) d1) = Ok d2 ∧
    checkpoint_file d2 = Full 199999 ∧
    (minhashes ← @pool_map whitespace_tokenizer toy_params [(200000, "")];
     killed_after 5 [(200000, "")] minhashes d2) = Ok d3 ∧
    checkpoint_file d3 = Full 199999 ∧
    recover d3 = Ok d4 ∧
    checkpoint_file d4 = Full 99999 ∧
    load_checkpoint_offset d4 = Ok 100000.
Proof.
  apply (@checkpoint_moves_backward whitespace_tokenizer toy_params []).
  reflexivity.
Defined.

End store_instances.

(** ** The LSH index represents the set of live signatures *)

Section lsh_proofs.
Import datasketch generate_minhashes working_with_minhashes dedupe dedupe_spec.
Context `{Banding}.
Implicit Types (live : gmap Z LeanMinHash) (hv : LeanMinHash)
               (t : gmap (list Z) (gset Z)) (l : MinHashLSH).

Lemma collide_sym hv1 hv2 : collide hv1 hv2 → collide hv2 hv1.
Proof.
  unfold collide. rewrite !Exists_exists.
  intros (rg & Hin & Heq). by exists rg.
Qed.

Lemma bucket_insert t H0 vals H' :
  bucket (<[H0 := vals]> t) H' = if decide (H0 = H') then vals else bucket t H'.
Proof. unfold bucket. rewrite lookup_insert. by case_decide. Qed.

Lemma bucket_delete t H0 H' :
  bucket (delete H0 t) H' = if decide (H0 = H') then ∅ else bucket t H'.
Proof. unfold bucket. rewrite lookup_delete. by case_decide. Qed.

Lemma table_rep_insert live range t key hv :
  live !! key = None →
  table_rep live range t →
  table_rep (<[key := hv]> live) range
    (<[_H hv range := bucket t (_H hv range) ∪ {[key]}]> t).
Proof.
  intros Hfresh Hrep H' k. rewrite bucket_insert.
  case_decide as Heq.
  - subst H'. rewrite elem_of_union, elem_of_singleton, (Hrep _ k). split.
    + intros [(hv' & Hk & HH)| ->].
      * exists hv'. rewrite lookup_insert_ne; [done|]. congruence.
      * exists hv. by rewrite lookup_insert_eq.
    + intros (hv' & Hk & HH). destruct (decide (k = key)) as [->|Hne]; [by right|].
      left. rewrite lookup_insert_ne in Hk by done. eauto.
  - rewrite (Hrep _ k). split; intros (hv' & Hk & HH).
    + exists hv'. rewrite lookup_insert_ne; [done|]. congruence.
    + destruct (decide (k = key)) as [->|Hne].
      * rewrite lookup_insert_eq in Hk. congruence.
      * rewrite lookup_insert_ne in Hk by done. eauto.
Qed.

Lemma tables_rep_insert live ranges tables key hv :
  live !! key = None →
  Forall2 (table_rep live) ranges tables →
  Forall2 (table_rep (<[key := hv]> live)) ranges
    (insert_into key (_H hv <$> ranges) tables).
Proof.
  intros Hfresh. induction 1 as [|range t ranges tables Ht _ IH]; csimpl.
  - constructor.
  - constructor; [by apply table_rep_insert | done].
Qed.

Lemma table_rep_remove live range t key hv :
  live !! key = Some hv →
  table_rep live range t →
  key ∈ bucket t (_H hv range) ∧
  table_rep (delete key live) range
    (let vals := bucket t (_H hv range) ∖ {[key]} in
     if decide (vals = ∅) then delete (_H hv range) t
     else <[_H hv range := vals]> t).
Proof.
  intros Hkey Hrep. split; [apply Hrep; eauto|].
  intros H' k. simpl.
  assert (k ∈ (if decide (_H hv range = H')
               then bucket t (_H hv range) ∖ {[key]} else bucket t H') ↔
          ∃ hv', delete key live !! k = Some hv' ∧ _H hv' range = H') as Hgoal.
  { case_decide as Heq.
    - subst H'. rewrite elem_of_difference, elem_of_singleton, (Hrep _ k). split.
      + intros [(hv' & Hk & HH) Hne]. exists hv'.
        by rewrite lookup_delete_ne.
      + intros (hv' & Hk & HH).
        apply lookup_delete_Some in Hk as [Hne Hk]. eauto.
    - rewrite (Hrep _ k). split; intros (hv' & Hk & HH).
      + exists hv'. rewrite lookup_delete_ne; [done|]. congruence.
      + apply lookup_delete_Some in Hk as [Hne Hk]. eauto. }
  rewrite <- Hgoal.
  destruct (decide (bucket t (_H hv range) ∖ {[key]} = ∅)) as [Hempty|Hempty].
  - rewrite bucket_delete. case_decide; [|done]. by rewrite Hempty.
  - by rewrite bucket_insert.
Qed.

Lemma tables_rep_remove live ranges tables key hv :
  live !! key = Some hv →
  Forall2 (table_rep live) ranges tables →
  ∃ tables',
    remove_from key (_H hv <$> ranges) tables = Ok tables' ∧
    Forall2 (table_rep (delete key live)) ranges tables'.
Proof.
  intros Hkey. induction 1 as [|range t ranges tables Ht _ (tables' & Heq & IH)];
    csimpl.
  - eexists. split; [done|constructor].
  - destruct (table_rep_remove _ _ _ _ _ Hkey Ht) as [Hin Hrep].
    rewrite decide_True by done. rewrite Heq. csimpl.
    eexists. split; [done|]. by constructor.
Qed.

Lemma tables_rep_candidates live ranges tables hv k :
  Forall2 (table_rep live) ranges tables →
  k ∈ ⋃ (zip_with bucket tables (_H hv <$> ranges)) ↔
  ∃ hv', live !! k = Some hv' ∧
         Exists (λ range, _H hv' range = _H hv range) ranges.
Proof.
  induction 1 as [|range t ranges tables Ht _ IH]; csimpl.
  - rewrite elem_of_empty. split; [done|].
    intros (hv' & _ & Hex). by apply Exists_nil in Hex.
  - rewrite elem_of_union, IH, (Ht _ k). split.
    + intros [(hv' & Hk & HH)|(hv' & Hk & Hex)]; exists hv'.
      * split; [done|]. by left.
      * split; [done|]. by right.
    + intros (hv' & Hk & Hex). apply Exists_cons in Hex as [HH|Hex]; eauto.
Qed.

Lemma Forall2_replicate_r {A B} (P : A → B → Prop) (xs : list A) (y : B) :
  (∀ x, P x y) → Forall2 P xs (replicate (length xs) y).
Proof. intros HP. induction xs; csimpl; constructor; auto. Qed.

Lemma rep_init : rep (MinHashLSH_init 10) ∅.
Proof.
  unfold rep, MinHashLSH_init; simpl.
  split; [done|]. split; [done|]. split; [by rewrite fmap_empty|].
  assert (b = length bands) as Hb.
  { unfold bands. by rewrite length_fmap, length_seq. }
  rewrite Hb. apply Forall2_replicate_r.
  intros range H' k. unfold bucket. rewrite lookup_empty. simpl.
  rewrite elem_of_empty. split; [done|].
  intros (hv & Hk & _). by rewrite lookup_empty in Hk.
Qed.

Lemma rep_insert l live key hv :
  rep l live → live !! key = None → length hv = 10%nat →
  ∃ l', insert l key (Some hv) = Ok l' ∧ rep l' (<[key := hv]> live).
Proof.
  intros (Hh & Hranges & Hkeys & Htables) Hfresh Hlen.
  unfold insert. rewrite decide_False by lia.
  rewrite decide_False.
  2: { rewrite Hkeys, lookup_fmap, Hfresh. by intros [? ?]. }
  eexists. split; [done|].
  unfold rep, band_hashes in *; simpl. repeat split; try done.
  - by rewrite Hkeys, fmap_insert.
  - rewrite Hranges. by apply tables_rep_insert.
Qed.

Lemma rep_candidates l live hv :
  rep l live → candidates l hv = matches live hv.
Proof.
  intros (Hh & Hranges & Hkeys & Htables).
  apply set_eq. intros k. unfold candidates, band_hashes. rewrite Hranges.
  rewrite (tables_rep_candidates live bands (hashtables l) hv k Htables).
  unfold matches. rewrite elem_of_dom. unfold is_Some.
  setoid_rewrite map_lookup_filter_Some. simpl. unfold collide.
  split; intros (hv' & ? & ?); exists hv'; done.
Qed.

Lemma rep_query l live hv :
  rep l live → length hv = 10%nat →
  query l (Some hv) = Ok (elements (matches live hv)).
Proof.
  intros Hrep Hlen. unfold query.
  rewrite decide_False by (destruct Hrep as [-> _]; lia).
  by rewrite (rep_candidates l live hv Hrep).
Qed.

Lemma rep_remove l live key hv :
  rep l live → live !! key = Some hv →
  ∃ l', remove l key = Ok l' ∧ rep l' (delete key live).
Proof.
  intros (Hh & Hranges & Hkeys & Htables) Hkey.
  assert (band_hashes l hv = _H hv <$> bands) as Hbh.
  { unfold band_hashes. by rewrite Hranges. }
  unfold remove. rewrite Hkeys, lookup_fmap, Hkey. csimpl. rewrite Hbh.
  destruct (tables_rep_remove live bands (hashtables l) key hv Hkey Htables)
    as (tables' & -> & Hrep').
  simpl. eexists. split; [done|].
  unfold rep, band_hashes in *; simpl. repeat split; try done.
  by rewrite fmap_delete.
Qed.

Lemma elem_of_matches live hv k :
  k ∈ matches live hv ↔ ∃ hv', live !! k = Some hv' ∧ collide hv' hv.
Proof.
  unfold matches. rewrite elem_of_dom. unfold is_Some.
  by setoid_rewrite map_lookup_filter_Some.
Qed.

Lemma found_other_true offset results :
  found_other offset results = true ↔ ∃ k, k ∈ results ∧ k ≠ offset.
Proof.
  induction results as [|x results IH]; simpl.
  - split; [done|]. intros (k & Hk & _). by apply elem_of_nil in Hk.
  - case_decide as Hx.
    + split; [|done]. intros _. exists x. split; [left|done].
    + rewrite IH. subst x. split.
      * intros (k & Hk & Hne). exists k. split; [by right|done].
      * intros (k & Hk & Hne). exists k. split; [|done].
        apply elem_of_cons in Hk as [->|Hk]; done.
Qed.
End lsh_proofs.

(** ** The loop of the dedupe pass *)

Section loop_proofs.
Import datasketch generate_minhashes working_with_minhashes dedupe dedupe_spec.
Context `{Banding, Disk}.
Implicit Types (live : gmap Z LeanMinHash) (hv : LeanMinHash)
               (sigs : list (Z * LeanMinHash)) (st : state).

Lemma emitted_app es1 es2 : emitted (es1 ++ es2) = emitted es1 ++ emitted es2.
Proof. unfold emitted. apply bind_app. Qed.

Lemma record_duplicate_rep st live offset hv :
  rep (lsh st) live → live !! offset = Some hv → length hv = 10%nat →
  ∃ st',
    record_duplicate offset (Some hv) st = (Ok (), st') ∧
    events st' = events st ∧
    if found_other offset (elements (matches live hv)) then
      duplicates st' =
        duplicates st ++ [(offset, elements (matches live hv))] ∧
      rep (lsh st') (delete offset live)
    else st' = st.
Proof.
  intros Hrep Hlive Hlen. unfold record_duplicate.
  rewrite (rep_query _ _ _ Hrep Hlen).
  destruct (found_other offset (elements (matches live hv))); simpl.
  - destruct (rep_remove _ _ _ _ Hrep Hlive) as (l' & -> & Hrep').
    eexists. split; [done|]. simpl. done.
  - eexists. done.
Qed.

Lemma flush_if_full_passed st :
  (∀ n, free_space_ok n = true) →
  ∃ st',
    flush_if_full st = (Ok (), st') ∧
    lsh st' = lsh st ∧
    emitted (events st') ++ duplicates st' =
      emitted (events st) ++ duplicates st.
Proof.
  intros Hdisk. unfold flush_if_full. case_decide.
  - unfold ensure_disk_space. rewrite Hdisk. eexists. split; [done|]. simpl.
    split; [done|]. rewrite !emitted_app. simpl. by rewrite !app_nil_r.
  - by eexists.
Qed.

(** The loop of [main] computes [pass] on the live signatures. *)
Lemma main_loop_pass sigs st live :
  (∀ n, free_space_ok n = true) →
  rep (lsh st) live →
  NoDup sigs.*1 →
  (∀ o hv, (o, hv) ∈ sigs → live !! o = Some hv ∧ length hv = 10%nat) →
  ∃ st',
    main_loop (stored sigs) st = (Ok (), st') ∧
    emitted (events st') ++ duplicates st' =
      emitted (events st) ++ duplicates st ++ pass live sigs.
Proof.
  intros Hdisk. revert st live.
  induction sigs as [|[o hv] sigs IH]; intros st live Hrep Hnd Hlive; csimpl.
  - eexists. split; [done|]. by rewrite app_nil_r.
  - apply NoDup_cons in Hnd as [Hfresh Hnd].
    destruct (Hlive o hv) as [Ho Hlen]; [left|].
    unfold loop_body; simpl.
    destruct (record_duplicate_rep st live o hv Hrep Ho Hlen)
      as (st1 & -> & Hev & Hrec).
    destruct (flush_if_full_passed st1 Hdisk) as (st2 & -> & Hlsh & Hem).
    destruct (found_other o (elements (matches live hv))).
    + destruct Hrec as [Hdup Hrep1].
      destruct (IH st2 (delete o live)) as (st' & -> & Hem').
      { by rewrite Hlsh. }
      { done. }
      { intros o' hv' Hin. destruct (Hlive o' hv') as [Ho' Hlen']; [by right|].
        split; [|done]. rewrite lookup_delete_ne; [done|].
        intros ->. apply Hfresh. apply list_elem_of_fmap. by exists (o', hv'). }
      eexists. split; [done|].
      rewrite Hem', (assoc_L (++)), Hem, Hev, Hdup. by rewrite <- !(assoc_L (++)).
    + subst st1.
      destruct (IH st2 live) as (st' & -> & Hem').
      { by rewrite Hlsh. }
      { done. }
      { intros o' hv' Hin. apply Hlive. by right. }
      eexists. split; [done|].
      rewrite Hem', (assoc_L (++)), Hem. by rewrite <- !(assoc_L (++)).
Qed.

(** A [None] among the stored minhashes stops the build of the
    index. *)
Lemma build_lsh_None l offset rest :
  build_lsh l ((offset, None) :: rest) = Err TypeError.
Proof. reflexivity. Qed.

Lemma build_lsh_rep sigs l live :
  rep l live →
  NoDup sigs.*1 →
  (∀ o hv, (o, hv) ∈ sigs → live !! o = None ∧ length hv = 10%nat) →
  ∃ l', build_lsh l (stored sigs) = Ok l' ∧
        rep l' (list_to_map sigs ∪ live).
Proof.
  revert l live. induction sigs as [|[o hv] sigs IH];
    intros l live Hrep Hnd Hfresh.
  - eexists. split; [done|]. simpl. by rewrite (left_id_L ∅ (∪)).
  - apply NoDup_cons in Hnd as [Ho Hnd].
    destruct (Hfresh o hv) as [Hnone Hlen]; [left|].
    change (build_lsh l (stored ((o, hv) :: sigs)))
      with (l' ← insert l o (Some hv); build_lsh l' (stored sigs)).
    destruct (rep_insert l live o hv Hrep Hnone Hlen) as (l1 & -> & Hrep1).
    csimpl.
    destruct (IH l1 (<[o := hv]> live) Hrep1 Hnd) as (l' & -> & Hrep').
    { intros o' hv' Hin. destruct (Hfresh o' hv') as [Hn' Hl']; [by right|].
      split; [|done]. rewrite lookup_insert_ne; [done|].
      intros ->. apply Ho. apply list_elem_of_fmap. by exists (o', hv'). }
    eexists. split; [done|].
    rewrite <- insert_union_l, insert_union_r; [done|].
    by apply not_elem_of_list_to_map_1.
Qed.
End loop_proofs.

(** ** What the pass emits *)

Section pass_proofs.
Import datasketch generate_minhashes working_with_minhashes dedupe dedupe_spec.
Context `{Banding}.
Implicit Types (live : gmap Z LeanMinHash) (hv : LeanMinHash)
               (sigs : list (Z * LeanMinHash)).

Lemma collide_refl_of hv1 hv2 : collide hv1 hv2 → collide hv2 hv2.
Proof.
  unfold collide. rewrite !Exists_exists. intros (rg & Hin & _). by exists rg.
Qed.

Lemma sorted_head_lt o (offsets : list Z) k :
  StronglySorted Z.lt (o :: offsets) → k ∈ offsets → o < k.
Proof.
  intros Hs Hk. apply StronglySorted_inv in Hs as [_ Hall].
  by apply (proj1 (Forall_forall _ _) Hall).
Qed.

Lemma pass_inv_matches live o hv rest k :
  pass_inv live ((o, hv) :: rest) →
  k ∈ matches live hv →
  k = o ∨ (o < k ∧ ∃ hv', (k, hv') ∈ rest ∧ collide hv' hv).
Proof.
  intros (Hsorted & Hahead & Hpast) Hk.
  apply elem_of_matches in Hk as (hv' & Hlive & Hcol).
  destruct (decide (k = o)) as [->|Hne]; [by left|right].
  destruct (decide (k ∈ ((o, hv) :: rest).*1)) as [Hin|Hnin].
  - csimpl in Hin. apply elem_of_cons in Hin as [?|Hin]; [done|].
    split; [by eapply sorted_head_lt|].
    apply list_elem_of_fmap in Hin as ([k' hv''] & -> & Hin). simpl in *.
    exists hv''. split; [done|].
    assert (live !! k' = Some hv'') as Hk' by (apply Hahead; by right).
    congruence.
  - destruct (Hpast k hv' Hlive Hnin) as [_ Hiso].
    destruct (Hiso o hv); [apply Hahead; left|done|done].
Qed.

Lemma pass_inv_emit live o hv rest :
  pass_inv live ((o, hv) :: rest) → pass_inv (delete o live) rest.
Proof.
  intros (Hsorted & Hahead & Hpast). csimpl in Hsorted.
  split; [by apply StronglySorted_inv in Hsorted as [? _]|]. split.
  - intros o' hv' Hin. rewrite lookup_delete_ne; [apply Hahead; by right|].
    intros ->. eapply Z.lt_irrefl, sorted_head_lt; [done|].
    apply list_elem_of_fmap. by exists (o', hv').
  - intros p hvp [Hpo Hp]%lookup_delete_Some Hnin.
    destruct (Hpast p hvp Hp) as [Hold Hiso].
    { csimpl. rewrite not_elem_of_cons. split; [congruence|done]. }
    split; [by apply Forall_cons in Hold as [_ ?]|].
    intros q hvq [_ Hq]%lookup_delete_Some. by apply Hiso.
Qed.

Lemma pass_inv_keep live o hv rest :
  pass_inv live ((o, hv) :: rest) →
  found_other o (elements (matches live hv)) = false →
  pass_inv live rest.
Proof.
  intros (Hsorted & Hahead & Hpast) Hnone. csimpl in Hsorted.
  split; [by apply StronglySorted_inv in Hsorted as [? _]|]. split.
  - intros o' hv' Hin. apply Hahead. by right.
  - intros p hvp Hp Hnin. destruct (decide (p = o)) as [->|Hne].
    + split; [by apply StronglySorted_inv in Hsorted as [_ ?]|].
      intros q hvq Hq Hqo Hcol.
      assert (live !! o = Some hv) as Ho by (apply Hahead; left).
      assert (hvp = hv) as -> by congruence.
      apply not_true_iff_false in Hnone. apply Hnone.
      apply found_other_true. exists q. split; [|done].
      apply elem_of_elements, elem_of_matches. exists hvq.
      split; [done|]. by apply collide_sym.
    + destruct (Hpast p hvp Hp) as [Hold Hiso].
      { csimpl. rewrite not_elem_of_cons. done. }
      split; [by apply Forall_cons in Hold as [_ ?]|done].
Qed.

(** What the pass emits. *)
Lemma pass_spec live sigs :
  pass_inv live sigs →
  (pass live sigs).*1 `sublist_of` sigs.*1 ∧
  (∀ o M, (o, M) ∈ pass live sigs →
     o ∈ M ∧ (∀ k, k ∈ M → o ≤ k) ∧ (∃ k, k ∈ M ∧ o < k) ∧
     (∀ k, k ∈ M → is_Some (live !! k))) ∧
  (∀ o hv, (o, hv) ∈ sigs →
     o ∈ (pass live sigs).*1 ↔
     ∃ o' hv', (o', hv') ∈ sigs ∧ o < o' ∧ collide hv hv').
Proof.
  revert live. induction sigs as [|[o hv] rest IH]; intros live Hinv.
  { simpl. split; [done|]. split.
    - intros o M Hin. by apply elem_of_nil in Hin.
    - intros o hv Hin. by apply elem_of_nil in Hin. }
  pose proof Hinv as (Hsorted & Hahead & Hpast).
  assert (live !! o = Some hv) as Ho by (apply Hahead; left).
  assert (∀ o' hv', (o', hv') ∈ rest → o < o') as Hlater.
  { intros o' hv' Hin. eapply sorted_head_lt; [done|].
    apply list_elem_of_fmap. by exists (o', hv'). }
  simpl. destruct (found_other o (elements (matches live hv))) eqn:Hfound.
  - destruct (IH _ (pass_inv_emit _ _ _ _ Hinv)) as (Hsub & Hrecs & Hiff).
    apply found_other_true in Hfound as (k0 & Hk0 & Hne0).
    apply elem_of_elements in Hk0.
    destruct (pass_inv_matches _ _ _ _ _ Hinv Hk0)
      as [?|(Hlt0 & hv0 & Hin0 & Hcol0)]; [done|].
    split; [csimpl; by apply sublist_skip|]. split.
    + intros o1 M [[= -> ->]|Hin]%elem_of_cons.
      * split.
        { apply elem_of_elements, elem_of_matches. exists hv.
          split; [done|]. by eapply collide_refl_of. }
        split.
        { intros k Hk%elem_of_elements.
          destruct (pass_inv_matches _ _ _ _ _ Hinv Hk) as [->|[? _]]; lia. }
        split.
        { exists k0. split; [by apply elem_of_elements|done]. }
        intros k Hk%elem_of_elements.
        apply elem_of_matches in Hk as (? & ? & _). by eexists.
      * destruct (Hrecs o1 M Hin) as (? & ? & ? & Hdom).
        repeat split; try done.
        intros k Hk. destruct (Hdom k Hk) as [x Hx].
        apply lookup_delete_Some in Hx as [_ Hx]. by eexists.
    + intros o1 hv1 [[= -> ->]|Hin]%elem_of_cons.
      * split; [|intros _; csimpl; left].
        intros _. exists k0, hv0. split; [by right|].
        split; [done|]. by apply collide_sym.
      * csimpl. rewrite elem_of_cons, (Hiff o1 hv1 Hin). split.
        { intros [->|(o' & hv' & Hin' & ? & ?)].
          - exfalso. eapply Z.lt_irrefl, Hlater. done.
          - exists o', hv'. split; [by right|done]. }
        { intros (o' & hv' & [[= -> ->]|Hin']%elem_of_cons & Hlt & Hcol).
          - exfalso. specialize (Hlater _ _ Hin). lia.
          - right. by exists o', hv'. }
  - destruct (IH _ (pass_inv_keep _ _ _ _ Hinv Hfound)) as (Hsub & Hrecs & Hiff).
    split; [csimpl; by apply sublist_cons|]. split; [done|].
    intros o1 hv1 [[= -> ->]|Hin]%elem_of_cons.
    + split.
      * intros Hin. exfalso.
        apply (λ H, elem_of_sublist _ _ _ H Hsub) in Hin.
        apply list_elem_of_fmap in Hin as ([o' hv'] & -> & Hin).
        specialize (Hlater _ _ Hin). simpl in Hlater. lia.
      * intros (o' & hv' & [[= -> ->]|Hin']%elem_of_cons & Hlt & Hcol); [lia|].
        apply not_true_iff_false in Hfound. exfalso. apply Hfound.
        apply found_other_true. exists o'. split; [|lia].
        apply elem_of_elements, elem_of_matches. exists hv'.
        split; [by apply Hahead; right|]. by apply collide_sym.
    + rewrite (Hiff o1 hv1 Hin). split.
      * intros (o' & hv' & Hin' & ? & ?). exists o', hv'.
        split; [by right|done].
      * intros (o' & hv' & [[= -> ->]|Hin']%elem_of_cons & Hlt & Hcol).
        { exfalso. specialize (Hlater _ _ Hin). lia. }
        by exists o', hv'.
Qed.
End pass_proofs.

(** ** The dedupe run *)

Section main_proofs.
Import datasketch generate_minhashes working_with_minhashes dedupe dedupe_spec.
Context `{Banding, Disk}.
Implicit Types (live : gmap Z LeanMinHash) (hv : LeanMinHash)
               (sigs : list (Z * LeanMinHash)).

Lemma sorted_NoDup (offsets : list Z) :
  StronglySorted Z.lt offsets → NoDup offsets.
Proof.
  induction offsets as [|o offsets IH]; intros Hs; [constructor|].
  constructor.
  - intros Hin. eapply Z.lt_irrefl, sorted_head_lt; done.
  - apply IH. by apply StronglySorted_inv in Hs as [? _].
Qed.

Lemma sorted_lookup_lt (offsets : list Z) i j a c :
  StronglySorted Z.lt offsets → (i < j)%nat →
  offsets !! i = Some a → offsets !! j = Some c → a < c.
Proof.
  intros Hs. revert i j. induction Hs as [|o offsets Hs IH Hall];
    intros i j Hij Hi Hj; [done|].
  destruct j as [|j]; [lia|]. destruct i as [|i]; simpl in *.
  - injection Hi as <-. apply (proj1 (Forall_forall _ _) Hall).
    by eapply list_elem_of_lookup_2.
  - eapply (IH i j); [lia|done..].
Qed.

Lemma pass_inv_initial sigs :
  StronglySorted Z.lt sigs.*1 → pass_inv (list_to_map sigs) sigs.
Proof.
  intros Hs. split; [done|]. split.
  - intros o hv Hin. apply elem_of_list_to_map_1; [|done].
    by apply sorted_NoDup.
  - intros p hvp Hp%elem_of_list_to_map_2 Hnin. destruct Hnin.
    apply list_elem_of_fmap. by exists (p, hvp).
Qed.

(** A run of [main] on a fresh duplicates directory succeeds and
    writes exactly the records of [pass]. *)
Lemma main_emits_pass dir sigs :
  (∀ n, free_space_ok n = true) →
  yield_minhashes dir = (stored sigs, None) →
  StronglySorted Z.lt sigs.*1 →
  Forall (λ x, length x.2 = 10%nat) sigs →
  ∃ st',
    main dir (initial_state Absent false) = (Ok (), st') ∧
    emitted (events st') = pass (list_to_map sigs) sigs.
Proof.
  intros Hdisk Hyield Hs Hlen.
  pose proof (sorted_NoDup _ Hs) as Hnd.
  assert (∀ o hv, (o, hv) ∈ sigs → length hv = 10%nat) as Hlen'.
  { intros o hv Hin. by apply (proj1 (Forall_forall _ _) Hlen (o, hv)). }
  destruct (build_lsh_rep sigs (MinHashLSH_init 10) ∅ rep_init Hnd)
    as (l & Hbuild & Hrep).
  { intros o hv Hin. split; [apply lookup_empty|by eapply Hlen']. }
  rewrite (right_id_L ∅ (∪)) in Hrep.
  unfold main, load_or_create_lsh; simpl. rewrite Hyield, Hbuild. simpl.
  match goal with
  | |- context [main_loop (stored sigs) ?st] =>
      destruct (main_loop_pass sigs st (list_to_map sigs) Hdisk Hrep Hnd)
        as (st2 & -> & Hem)
  end.
  { intros o hv Hin. split; [|by eapply Hlen'].
    by apply elem_of_list_to_map_1. }
  simpl in Hem.
  eexists. split; [done|]. simpl.
  rewrite !emitted_app. simpl. rewrite !app_nil_r. rewrite <- Hem.
  case_decide as Hd.
  - unfold save_duplicate_batch. simpl. rewrite emitted_app. simpl.
    by rewrite app_nil_r.
  - destruct (duplicates st2); [by rewrite app_nil_r|].
    unfold llen in Hd. simpl in Hd. lia.
Qed.

Lemma records_for_NoDup o (records : list duplicate_record) :
  NoDup records.*1 →
  (o ∈ records.*1 → records_for o records = 1%nat) ∧
  (o ∉ records.*1 → records_for o records = 0%nat).
Proof.
  unfold records_for.
  induction records as [|[o' M] records IH]; csimpl; intros Hnd.
  { split; [intros Hin; by apply elem_of_nil in Hin|done]. }
  apply NoDup_cons in Hnd as [Hfresh Hnd]. destruct (IH Hnd) as [IH1 IH0].
  rewrite filter_cons. simpl. case_decide as Ho.
  - subst o'. simpl in Hfresh. split.
    + intros _. simpl. f_equal. by apply IH0.
    + intros []. left.
  - split.
    + intros [?|Hin]%elem_of_cons; [congruence|]. by apply IH1.
    + intros [_ Hnin]%not_elem_of_cons. by apply IH0.
Qed.

Lemma min_offset_exists (M : list Z) :
  M ≠ [] → ∃ m, min_offset M = Some m ∧ m ∈ M ∧ ∀ k, k ∈ M → m ≤ k.
Proof.
  induction M as [|x M IH]; [done|]. intros _. simpl.
  destruct M as [|y M].
  - exists x. simpl. split; [done|]. split; [left|].
    intros k [->|Hk%elem_of_nil]%elem_of_cons; [lia|done].
  - destruct IH as (m & -> & Hm & Hmin); [done|]. simpl.
    exists (Z.min x m). split; [done|]. split.
    + destruct (Z.min_spec x m) as [[_ ->]|[_ ->]]; [left|by right].
    + intros k [->|Hk]%elem_of_cons; [lia|]. specialize (Hmin k Hk). lia.
Qed.

Lemma min_offset_least (M : list Z) o :
  o ∈ M → (∀ k, k ∈ M → o ≤ k) → min_offset M = Some o.
Proof.
  intros Hin Hleast. destruct (min_offset_exists M) as (m & -> & Hm & Hmin).
  { intros ->. by apply elem_of_nil in Hin. }
  f_equal. specialize (Hleast m Hm). specialize (Hmin o Hin). lia.
Qed.

(** C1 (as amended).  On a fresh duplicates directory, with a stream of
    well-formed signatures in increasing offset order and every
    free-space check passing, the run succeeds.  For a cluster of
    pairwise colliding documents at offsets [o1 < ... < ok] it writes
    exactly one duplicate record for each member that has a later
    member ([o1] to [o(k-1)]), and none for the last member [ok] when
    no later document of the stream collides with it: the survivor of
    the cluster is its last member. *)
Theorem cluster_keeps_last dir sigs cluster :
  (∀ n, free_space_ok n = true) →
  yield_minhashes dir = (stored sigs, None) →
  StronglySorted Z.lt sigs.*1 →
  Forall (λ x, length x.2 = 10%nat) sigs →
  StronglySorted Z.lt cluster.*1 →
  (∀ x, x ∈ cluster → x ∈ sigs) →
  (∀ x y, x ∈ cluster → y ∈ cluster → collide x.2 y.2) →
  ∃ st',
    main dir (initial_state Absent false) = (Ok (), st') ∧
    ∀ i x, cluster !! i = Some x →
      ((S i < length cluster)%nat →
         records_for x.1 (emitted (events st')) = 1%nat) ∧
      ((S i = length cluster)%nat →
         (∀ y, y ∈ sigs → x.1 < y.1 → ¬ collide x.2 y.2) →
         records_for x.1 (emitted (events st')) = 0%nat).
Proof.
  intros Hdisk Hyield Hs Hlen Hcs Hsub Hcol.
  destruct (main_emits_pass dir sigs Hdisk Hyield Hs Hlen) as (st' & Hmain & Hem).
  exists st'. split; [done|]. rewrite Hem.
  destruct (pass_spec _ _ (pass_inv_initial sigs Hs)) as (Hsl & _ & Hiff).
  assert (NoDup (pass (list_to_map sigs) sigs).*1) as Hnd.
  { eapply sublist_NoDup; [|exact Hsl]. by apply sorted_NoDup. }
  intros i [o hv] Hi.
  assert ((o, hv) ∈ cluster) as Hin by (by eapply list_elem_of_lookup_2).
  destruct (records_for_NoDup o _ Hnd) as [Hone Hzero]. simpl. split.
  - intros Hnext. apply Hone, (Hiff o hv); [by apply Hsub|].
    destruct (lookup_lt_is_Some_2 cluster (S i) Hnext) as [[o' hv'] Hi'].
    assert ((o', hv') ∈ cluster) as Hin' by (by eapply list_elem_of_lookup_2).
    exists o', hv'. split; [by apply Hsub|]. split; [|by apply (Hcol _ _ Hin Hin')].
    apply (sorted_lookup_lt cluster.*1 i (S i)); [done|lia|..];
      rewrite list_lookup_fmap; [by rewrite Hi|by rewrite Hi'].
  - intros _ Hnone. apply Hzero. rewrite (Hiff o hv); [|by apply Hsub].
    intros (o' & hv' & Hin' & Hlt & Hc). by apply (Hnone (o', hv')).
Qed.

(** C2 (as amended).  Under the same conditions every duplicate record
    [(o, M)] the run writes has [min(M) = o] and a hit larger than [o]:
    the match set holds [o] itself and otherwise only later offsets,
    and the record is written only because the query returned a later
    offset.  [o] does not appear in the match set of any record
    written for a later offset. *)
Theorem record_points_forward dir sigs :
  (∀ n, free_space_ok n = true) →
  yield_minhashes dir = (stored sigs, None) →
  StronglySorted Z.lt sigs.*1 →
  Forall (λ x, length x.2 = 10%nat) sigs →
  ∃ st',
    main dir (initial_state Absent false) = (Ok (), st') ∧
    ∀ o M, (o, M) ∈ emitted (events st') →
      min_offset M = Some o ∧
      (∃ k, k ∈ M ∧ o < k) ∧
      ∀ o' M', (o', M') ∈ emitted (events st') → o < o' → o ∉ M'.
Proof.
  intros Hdisk Hyield Hs Hlen.
  destruct (main_emits_pass dir sigs Hdisk Hyield Hs Hlen) as (st' & Hmain & Hem).
  exists st'. split; [done|]. rewrite Hem.
  destruct (pass_spec _ _ (pass_inv_initial sigs Hs)) as (_ & Hrecs & _).
  intros o M Hin. destruct (Hrecs o M Hin) as (Hself & Hleast & Hlater & _).
  split; [by apply min_offset_least|]. split; [done|].
  intros o' M' Hin' Hlt Ho.
  destruct (Hrecs o' M' Hin') as (_ & Hleast' & _).
  specialize (Hleast' o Ho). lia.
Qed.
End main_proofs.

Section main_instances.
Import datasketch generate_minhashes working_with_minhashes dedupe dedupe_spec.

(** The batch file [twins] is what the generator stores for the
    two-document corpus. *)
Lemma twins_are_generated :
  (minhashes ← @pool_map whitespace_tokenizer toy_params twin_pile;
   Ok (minhashes_and_meta twin_pile minhashes)) = Ok (stored twin_sigs).
Proof. by vm_compute. Qed.

Lemma twin_sigs_sorted : StronglySorted Z.lt twin_sigs.*1.
Proof. repeat constructor. Qed.

Lemma twin_sigs_lengths : Forall (λ x, length x.2 = 10%nat) twin_sigs.
Proof. repeat constructor. Qed.

Lemma twin_sigs_collide x y :
  x ∈ twin_sigs → y ∈ twin_sigs → @collide three_bands x.2 y.2.
Proof.
  intros Hx Hy.
  assert (∀ z, z ∈ twin_sigs → z.2 = twin_signature) as Htwin.
  { intros z Hz. repeat (apply elem_of_cons in Hz as [->|Hz]; [done|]).
    by apply elem_of_nil in Hz. }
  rewrite (Htwin x Hx), (Htwin y Hy).
  apply Exists_exists. exists (0, 3)%nat. split; [|done].
  vm_compute. left.
Qed.

Lemma cluster_keeps_last_witness :
  ∃ st',
    @main three_bands roomy_disk twins (initial_state Absent false)
      = (Ok (), st') ∧
    ∀ i x, twin_sigs !! i = Some x →
      ((S i < length twin_sigs)%nat →
         records_for x.1 (emitted (events st')) = 1%nat) ∧
      ((S i = length twin_sigs)%nat →
         (∀ y, y ∈ twin_sigs → x.1 < y.1 → ¬ @collide three_bands x.2 y.2) →
         records_for x.1 (emitted (events st')) = 0%nat).
Proof.
  apply (@cluster_keeps_last three_bands roomy_disk twins twin_sigs twin_sigs).
  - reflexivity.
  - reflexivity.
  - exact twin_sigs_sorted.
  - exact twin_sigs_lengths.
  - exact twin_sigs_sorted.
  - auto.
  - exact twin_sigs_collide.
Defined.

Lemma record_points_forward_witness :
  ∃ st',
    @main three_bands roomy_disk twins (initial_state Absent false)
      = (Ok (), st') ∧
    ∀ o M, (o, M) ∈ emitted (events st') →
      min_offset M = Some o ∧
      (∃ k, k ∈ M ∧ o < k) ∧
      ∀ o' M', (o', M') ∈ emitted (events st') → o < o' → o ∉ M'.
Proof.
  apply (@record_points_forward three_bands roomy_disk twins twin_sigs).
  - reflexivity.
  - reflexivity.
  - exact twin_sigs_sorted.
  - exact twin_sigs_lengths.
Defined.

(** C1, counterexample.  Two identical documents at offsets 0 and 1:
    the run writes one duplicate record, for offset 0, the first of
    the cluster, and none for offset 1. *)
Lemma first_of_cluster_is_emitted :
  (@main three_bands roomy_disk twins (initial_state Absent false)).1 = Ok () ∧
  emitted (events
    (@main three_bands roomy_disk twins (initial_state Absent false)).2)
    = [(0, [1; 0])] ∧
  records_for 0 [(0, [1; 0])] = 1%nat ∧
  records_for 1 [(0, [1; 0])] = 0%nat.
Proof. vm_compute. repeat split. Qed.

(** C2, counterexample.  On the same two documents the only record is
    [(0, [1; 0])]: the minimum of its match set is 0, not an offset
    smaller than 0, and the hit that caused it is the later offset 1. *)
Lemma record_matches_are_not_earlier :
  emitted (events
    (@main three_bands roomy_disk twins (initial_state Absent false)).2)
    = [(0, [1; 0])] ∧
  min_offset [1; 0] = Some 0 ∧
  ¬ (0 < 0).
Proof. split; [by vm_compute|]. split; [done|lia]. Qed.
End main_instances.

(** ** The order of writes and free-space checks *)

Section trace_proofs.
Import datasketch generate_minhashes working_with_minhashes dedupe dedupe_spec.
Context `{Banding, Disk}.
Implicit Types (st : state) (es : list event).

Lemma passed_flushes_app es1 es2 :
  passed_flushes es1 → passed_flushes es2 → passed_flushes (es1 ++ es2).
Proof.
  intros H1. induction 1 as [|es n ds _ IH Hfull].
  - by rewrite app_nil_r.
  - rewrite (assoc_L (++)). by constructor.
Qed.

Lemma passed_flushes_one n ds :
  llen ds = save_frequency →
  passed_flushes [SavedDuplicateBatch n ds; CheckedDiskSpace true].
Proof. intros Hfull. by apply (passed_snoc [] n ds passed_nil). Qed.

(** [record_duplicate] writes nothing and grows the pending batch by
    at most one record. *)
Lemma record_duplicate_trace offset m st :
  ∃ res st',
    record_duplicate offset m st = (res, st') ∧
    events st' = events st ∧
    llen (duplicates st) ≤ llen (duplicates st') ≤ llen (duplicates st) + 1.
Proof.
  unfold record_duplicate, llen.
  destruct (query (lsh st) m) as [results|e];
    [|eexists _, _; split; [done|]; split; [done|lia]].
  destruct (found_other offset results);
    [|eexists _, _; split; [done|]; split; [done|lia]].
  simpl. destruct (remove (lsh st) offset); eexists _, _; (split; [done|]);
    simpl; (split; [done|]); rewrite length_app; simpl; lia.
Qed.

(** One iteration of the loop: nothing is written, or a full batch is
    written and the free-space check follows it. *)
Lemma loop_body_trace item st :
  llen (duplicates st) < save_frequency →
  ∃ res st',
    loop_body item st = (res, st') ∧
    ((res = Ok () ∧ llen (duplicates st') < save_frequency ∧
      (events st' = events st ∨
       ∃ n ds, llen ds = save_frequency ∧
         events st' =
           events st ++ [SavedDuplicateBatch n ds; CheckedDiskSpace true]))
     ∨ (∃ e, res = Err e ∧ events st' = events st)
     ∨ (res = Err AssertionError ∧
        ∃ n ds, llen ds = save_frequency ∧
          events st' =
            events st ++ [SavedDuplicateBatch n ds; CheckedDiskSpace false])).
Proof.
  intros Hlt. unfold loop_body.
  destruct (record_duplicate_trace item.1 item.2 st) as (res & st1 & -> & Hev & Hlen).
  destruct res as [[]|e]; [|eexists _, _; split; [done|]; right; left; eauto].
  unfold flush_if_full. case_decide as Hfull.
  - unfold ensure_disk_space, save_duplicate_batch. simpl.
    match goal with |- context [free_space_ok ?n] =>
      destruct (free_space_ok n) end.
    + eexists _, _. split; [done|]. left. split; [done|]. simpl.
      split; [done|]. right. exists (batch_number st1), (duplicates st1).
      split; [done|]. by rewrite <- (assoc_L (++)), Hev.
    + eexists _, _. split; [done|]. right; right. split; [done|].
      exists (batch_number st1), (duplicates st1).
      split; [done|]. simpl. by rewrite <- (assoc_L (++)), Hev.
  - eexists _, _. split; [done|]. left. split; [done|].
    split; [lia|]. by left.
Qed.

Lemma main_loop_trace items st :
  llen (duplicates st) < save_frequency →
  ∃ res st' es tail,
    main_loop items st = (res, st') ∧
    events st' = events st ++ es ++ tail ∧
    passed_flushes es ∧
    ((res = Ok () ∧ llen (duplicates st') < save_frequency ∧ tail = [])
     ∨ (∃ e, res = Err e ∧ tail = [])
     ∨ (res = Err AssertionError ∧
        ∃ n ds, llen ds = save_frequency ∧
          tail = [SavedDuplicateBatch n ds; CheckedDiskSpace false])).
Proof.
  revert st. induction items as [|item items IH]; intros st Hlt; simpl.
  { exists (Ok ()), st, [], []. split; [done|].
    split; [by rewrite !app_nil_r|]. split; [constructor|]. by left. }
  destruct (loop_body_trace item st Hlt) as (res & st1 & -> & Hcase).
  destruct Hcase as [(-> & Hlt1 & Hev)|[(e & -> & Hev)|(-> & n & ds & Hfull & Hev)]].
  - destruct (IH st1 Hlt1) as (res & st' & es & tail & -> & Hev' & Hes & Hcase).
    destruct Hev as [Hev|(n & ds & Hfull & Hev)].
    + exists res, st', es, tail. rewrite Hev', Hev. done.
    + exists res, st', ([SavedDuplicateBatch n ds; CheckedDiskSpace true] ++ es), tail.
      split; [done|]. split.
      { rewrite Hev', Hev. by rewrite <- !(assoc_L (++)). }
      split; [|done]. apply passed_flushes_app; [|done].
      by apply passed_flushes_one.
  - exists (Err e), st1, [], []. split; [done|].
    split; [by rewrite !app_nil_r|]. split; [constructor|]. right; left. eauto.
  - exists (Err AssertionError), st1, [], [SavedDuplicateBatch n ds; CheckedDiskSpace false].
    split; [done|]. split; [done|]. split; [constructor|]. right; right. eauto.
Qed.

(** C7 (as amended).  The events of any run of [main] that is not
    skipped are: possibly the dump of the LSH; then full batches of
    [save_frequency] records, each written first and followed by a
    free-space check that passed; then either the final partial batch
    (if any), the statistics and the [dedupe.done] marker, with no
    check, when the run succeeds; or a full batch followed by the check
    that failed, when the run stops with [AssertionError]; or nothing,
    when the run stops on another error. *)
Theorem disk_check_follows_full_batch dir lsh_pkl0 :
  ∃ res st' pre es tail,
    main dir (initial_state lsh_pkl0 false) = (res, st') ∧
    events st' = pre ++ es ++ tail ∧
    (pre = [] ∨ pre = [OpenedLSH; DumpedLSH]) ∧
    passed_flushes es ∧
    ((res = Ok () ∧
      ∃ final dc,
        tail = final ++ [SavedDuplicateStats dc; TouchedDone] ∧
        (final = [] ∨
         ∃ n ds, final = [SavedDuplicateBatch n ds] ∧
                 0 < llen ds < save_frequency))
     ∨ (res = Err AssertionError ∧
        ∃ n ds, llen ds = save_frequency ∧
          tail = [SavedDuplicateBatch n ds; CheckedDiskSpace false])
     ∨ (∃ e, res = Err e ∧ tail = [])).
Proof.
  unfold main. simpl.
  assert (∃ r0 st0,
    load_or_create_lsh dir (initial_state lsh_pkl0 false) = (r0, st0) ∧
    duplicates st0 = [] ∧
    ((events st0 = [] ∨ events st0 = [OpenedLSH; DumpedLSH]))) as
    (r0 & st0 & -> & Hdup & Hpre).
  { unfold load_or_create_lsh. simpl.
    destruct lsh_pkl0 as [| |l]; simpl.
    - destruct (yield_minhashes dir) as [minhashes failure].
      destruct (build_lsh _ minhashes); [|eexists _, _; eauto].
      destruct failure; eexists _, _; simpl; eauto.
    - eexists _, _; eauto.
    - eexists _, _; eauto. }
  destruct r0 as [[]|e].
  2: { exists (Err e), st0, (events st0), [], []. split; [done|].
       split; [by rewrite !app_nil_r|]. split; [done|].
       split; [constructor|]. right; right. eauto. }
  destruct (yield_minhashes dir) as [minhashes failure].
  destruct (main_loop_trace minhashes st0) as (res & st1 & es & tail & -> & Hev & Hes & Hcase).
  { rewrite Hdup. done. }
  destruct Hcase as [(-> & Hlt & ->)|[(e & -> & ->)|(-> & n & ds & Hfull & ->)]].
  - destruct failure as [e|].
    { exists (Err e), st1, (events st0), es, []. split; [done|].
      split; [done|]. split; [done|]. split; [done|]. right; right. eauto. }
    destruct (decide (llen (duplicates st1) ≠ 0)) as [Hne|Hz].
    + eexists (Ok ()), _, (events st0), es,
        [SavedDuplicateBatch (batch_number st1) (duplicates st1);
         SavedDuplicateStats (duplicate_count st1); TouchedDone].
      split; [done|]. simpl.
      unfold save_duplicate_batch. simpl. rewrite Hev, app_nil_r.
      split; [by rewrite <- !(assoc_L (++))|].
      split; [done|]. split; [done|]. left. split; [done|].
      eexists [_], _. split; [done|]. right. eexists _, _. split; [done|].
      unfold llen in *. lia.
    + eexists (Ok ()), _, (events st0), es,
        [SavedDuplicateStats (duplicate_count st1); TouchedDone].
      split; [done|].
      simpl. rewrite Hev, app_nil_r.
      split; [by rewrite <- !(assoc_L (++))|].
      split; [done|]. split; [done|]. left. split; [done|].
      exists [], (duplicate_count st1). split; [done|]. by left.
  - exists (Err e), st1, (events st0), es, []. split; [done|].
    split; [done|]. split; [done|]. split; [done|]. right; right. eauto.
  - exists (Err AssertionError), st1, (events st0), es,
      [SavedDuplicateBatch n ds; CheckedDiskSpace false]. split; [done|].
    split; [done|]. split; [done|]. split; [done|]. right; left. eauto.
Qed.
End trace_proofs.

Section trace_instances.
Import datasketch generate_minhashes working_with_minhashes dedupe dedupe_spec.

(** C7, counterexample.  Two identical documents, on a volume where
    every free-space check would fail: the final batch is written, no
    check is made before or after it, and the run succeeds. *)
Lemma final_batch_is_not_checked :
  (@main three_bands full_disk twins (initial_state Absent false)).1 = Ok () ∧
  events (@main three_bands full_disk twins (initial_state Absent false)).2
    = [OpenedLSH; DumpedLSH; SavedDuplicateBatch 0 [(0, [1; 0])];
       SavedDuplicateStats 1; TouchedDone].
Proof. by vm_compute. Qed.
End trace_instances.

(** ** Slicing, shingling and the signature *)

Section shingler_proofs.
Import datasketch generate_minhashes generate_minhashes_spec.
Context `{Tokenizer, MinHashParams}.

Lemma five_grams_of_fails slices acc a_slice e :
  a_slice ∈ slices → word_tokenize a_slice = Err e →
  ∃ e', five_grams_of slices acc = Err e'.
Proof.
  revert acc. induction slices as [|s slices IH]; intros acc Hin Hfail.
  { by apply elem_of_nil in Hin. }
  simpl. unfold extract_ngrams.
  destruct (word_tokenize s) as [tokens|e0] eqn:Htok; simpl; [|by eexists].
  apply elem_of_cons in Hin as [->|Hin]; [congruence|]. by apply IH.
Qed.

Lemma slice_document_short document :
  len document ≤ megabyte → slice_document document = [document].
Proof. intros Hle. unfold slice_document. by rewrite decide_False by lia. Qed.

Lemma generate_minhash_empty :
  word_tokenize "" = Ok [] →
  generate_minhash "" = (Some (MinHash 10), []).
Proof.
  intros Htok. unfold generate_minhash, generate_minhash_try.
  rewrite slice_document_short by done. simpl.
  unfold extract_ngrams. rewrite Htok. simpl.
  rewrite (left_id_L ∅ (∪)). unfold minhash_of_set.
  by rewrite elements_empty.
Qed.

(** C6 (as amended).  When tokenization raises on a slice of a
    document, [generate_minhash] does not raise: it logs one record at
    info level and returns [None].  [None] is not the signature of the
    empty document, which is the untouched [MinHash(num_perm=10)].
    The run does not go on with the next document: the pool hands the
    [None] to the error callback of [process_batch], which exits the
    process before the transaction of the batch starts, and a run
    whose corpus holds the document at its checkpoint offset or after
    it ends in that exit. *)
Theorem failed_document_yields_None document a_slice e pile offset d c0 :
  a_slice ∈ slice_document document →
  word_tokenize a_slice = Err e →
  word_tokenize "" = Ok [] →
  (offset, document) ∈ pile →
  consistent d c0 →
  c0 ≤ offset →
  (∃ e', generate_minhash document =
           (None, [LogInfo "Generate minhash failure" e' (len document)])) ∧
  generate_minhash "" = (Some (MinHash 10), []) ∧
  (generate_minhash document).1 ≠ (generate_minhash "").1 ∧
  (∀ batch d', (offset, document) ∈ batch →
               process_batch batch d' = Err SystemExit) ∧
  main pile d = Err SystemExit.
Proof.
  intros Hin Hfail Hempty Hpile ((Hlock & _) & Hload & _) Hge.
  destruct (five_grams_of_fails _ ∅ _ _ Hin Hfail) as [e' He'].
  assert (generate_minhash document =
            (None, [LogInfo "Generate minhash failure" e' (len document)]))
    as Hgen.
  { unfold generate_minhash, generate_minhash_try. by rewrite He'. }
  split; [by exists e'|]. split; [by apply generate_minhash_empty|].
  split; [by rewrite Hgen, generate_minhash_empty|].
  split.
  - intros batch d' Hbatch.
    apply (process_batch_exit batch d' (offset, document)); [done|].
    simpl. by rewrite Hgen.
  - unfold main, recover. rewrite Hlock. simpl. rewrite Hload. simpl.
    apply main_loop_exit. right. apply Exists_exists.
    exists (offset, document). simpl. by rewrite Hgen.
Qed.

(** *** Sliding windows *)

Lemma ngrams_length {A} n (l : list A) g :
  g ∈ ngrams n l → (n ≤ length l)%nat.
Proof.
  induction l as [|x l IH]; simpl; [by intros ?%elem_of_nil|].
  case_decide; [done|]. by intros ?%elem_of_nil.
Qed.

Lemma ngrams_app_l {A} n (l l2 : list A) g :
  g ∈ ngrams n l → g ∈ ngrams n (l ++ l2).
Proof.
  induction l as [|x l IH]; [by intros ?%elem_of_nil|].
  cbn [ngrams app]. case_decide as Hn; [|by intros ?%elem_of_nil].
  rewrite decide_True by (simpl in *; rewrite length_app; lia).
  intros [->|Hin]%elem_of_cons.
  - apply elem_of_cons. left.
    change (x :: l ++ l2) with ((x :: l) ++ l2). by rewrite take_app_le.
  - right. by apply IH.
Qed.

Lemma ngrams_app_r {A} n (l1 l : list A) g :
  g ∈ ngrams n l → g ∈ ngrams n (l1 ++ l).
Proof.
  intros Hin. induction l1 as [|x l1 IH]; [done|].
  cbn [ngrams app]. apply ngrams_length in IH as Hlen.
  rewrite decide_True by (simpl; lia). by right.
Qed.

Lemma ngrams_concat {A} n (ls : list (list A)) l g :
  l ∈ ls → g ∈ ngrams n l → g ∈ ngrams n (concat ls).
Proof.
  intros (l1 & l2 & ->)%list_elem_of_split Hg.
  rewrite concat_app, concat_cons.
  by apply ngrams_app_r, ngrams_app_l.
Qed.

Lemma five_grams_of_ok slices slice_tokens acc :
  Forall2 (λ a_slice toks, word_tokenize a_slice = Ok toks)
          slices slice_tokens →
  five_grams_of slices acc =
    Ok (acc ∪ ⋃ ((λ toks, list_to_set (join_space <$> ngrams 5 toks))
                   <$> slice_tokens)).
Proof.
  intros Hall. revert acc.
  induction Hall as [|s toks slices slice_tokens Htok _ IH]; intros acc.
  - simpl. by rewrite (right_id_L ∅ (∪)).
  - cbn [five_grams_of]. unfold extract_ngrams. rewrite Htok. csimpl.
    rewrite IH. by rewrite (assoc_L (∪)).
Qed.

(** C8 (as amended).  For a document longer than 1 MiB whose token
    stream is the concatenation of the token streams of its slices, and
    in which every 5-gram of the stream lies inside one slice, the
    signature computed from the slices equals the signature of a single
    pass over the whole document. *)
Theorem sliced_equals_single_pass document tokens slice_tokens :
  megabyte < len document →
  word_tokenize document = Ok tokens →
  Forall2 (λ a_slice toks, word_tokenize a_slice = Ok toks)
          (slice_document document) slice_tokens →
  tokens = concat slice_tokens →
  (∀ g, g ∈ ngrams 5 tokens →
        ∃ toks, toks ∈ slice_tokens ∧ g ∈ ngrams 5 toks) →
  generate_minhash_try document = single_pass_minhash document.
Proof.
  intros _ Htok Hslices Hconcat Hinside.
  unfold generate_minhash_try, single_pass_minhash, extract_ngrams.
  rewrite (five_grams_of_ok _ _ ∅ Hslices), Htok. csimpl.
  do 2 f_equal. rewrite (left_id_L ∅ (∪)). apply set_eq. intros g'.
  rewrite elem_of_union_list, elem_of_list_to_set, list_elem_of_fmap. split.
  - intros (X & (toks & -> & Htoks)%list_elem_of_fmap & Hg').
    apply elem_of_list_to_set, list_elem_of_fmap in Hg' as (g & -> & Hg).
    exists g. split; [done|]. subst tokens. by eapply ngrams_concat.
  - intros (g & -> & Hg). destruct (Hinside g Hg) as (toks & Htoks & Hg').
    exists (list_to_set (join_space <$> ngrams 5 toks)). split.
    + apply list_elem_of_fmap. by exists toks.
    + apply elem_of_list_to_set, list_elem_of_fmap. by exists g.
Qed.
End shingler_proofs.

(** ** Documents longer than one slice *)

Section padded_documents.
Import datasketch generate_minhashes generate_minhashes_spec.

Lemma length_pad n text :
  Stdlib.Strings.String.length (pad n text) =
  (n + Stdlib.Strings.String.length text)%nat.
Proof. induction n as [|n IH]; simpl; [done|by rewrite IH]. Qed.

Lemma substring_pad_prefix n m text :
  Stdlib.Strings.String.substring 0 (n + m) (pad n text) =
  pad n (Stdlib.Strings.String.substring 0 m text).
Proof. induction n as [|n IH]; simpl; [done|by rewrite IH]. Qed.

Lemma substring_pad_skip n m k text :
  Stdlib.Strings.String.substring (n + m) k (pad n text) =
  Stdlib.Strings.String.substring m k text.
Proof. induction n as [|n IH]; simpl; [done|by rewrite IH]. Qed.

Lemma words_pad n text : String.words (pad n text) = String.words text.
Proof. induction n as [|n IH]; [done|]. unfold String.words in *. by simpl. Qed.

(** The two slices of a padded document of more than one and at most
    two MiB. *)
Lemma slice_document_pad n m k text :
  Z.of_nat (n + m) = megabyte →
  (0 < k)%nat → Z.of_nat k ≤ megabyte →
  Stdlib.Strings.String.length text = (m + k)%nat →
  slice_document (pad n text) =
    [pad n (Stdlib.Strings.String.substring 0 m text);
     Stdlib.Strings.String.substring m k text].
Proof.
  intros Hnm Hk Hkm Htext.
  assert (len (pad n text) = megabyte + Z.of_nat k) as Hlen.
  { unfold len. rewrite length_pad, Htext. lia. }
  unfold slice_document. rewrite Hlen. rewrite decide_True by lia.
  assert (ceil_div (megabyte + Z.of_nat k) megabyte = 2) as ->.
  { unfold ceil_div. symmetry. apply (Z.div_unique _ _ 2 (Z.of_nat k - 1)).
    - left. unfold megabyte in *. lia.
    - lia. }
  change (seqZ 0 2) with [0; 1]. cbn [fmap list_fmap].
  unfold py_slice. f_equal; [|f_equal].
  - replace (Z.to_nat (megabyte * 0)) with 0%nat by lia.
    replace (Z.to_nat (Z.min (megabyte * 0 + megabyte) (megabyte + Z.of_nat k)
                       - megabyte * 0)) with (n + m)%nat by lia.
    apply substring_pad_prefix.
  - replace (Z.to_nat (megabyte * 1)) with (n + m)%nat by lia.
    replace (Z.to_nat (Z.min (megabyte * 1 + megabyte) (megabyte + Z.of_nat k)
                       - megabyte * 1)) with k by lia.
    apply substring_pad_skip.
Qed.

Lemma straddling_document_long : megabyte < len straddling_document.
Proof.
  unfold len, straddling_document. rewrite length_pad.
  change (Stdlib.Strings.String.length "a b c d e") with 9%nat.
  unfold megabyte. lia.
Qed.

Lemma straddling_document_slices :
  slice_document straddling_document =
    [pad (Z.to_nat 1048574) "a "; "b c d e"].
Proof.
  unfold straddling_document.
  rewrite (slice_document_pad (Z.to_nat 1048574) 2 7 "a b c d e");
    [done| unfold megabyte; lia | lia | unfold megabyte; lia | done].
Qed.

Lemma aligned_document_long : megabyte < len aligned_document.
Proof.
  unfold len, aligned_document. rewrite length_pad.
  change (Stdlib.Strings.String.length "a b c d e f") with 11%nat.
  unfold megabyte. lia.
Qed.

Lemma aligned_document_slices :
  slice_document aligned_document =
    [pad (Z.to_nat 1048576) ""; "a b c d e f"].
Proof.
  unfold aligned_document.
  rewrite (slice_document_pad (Z.to_nat 1048576) 0 11 "a b c d e f");
    [done| unfold megabyte; lia | lia | unfold megabyte; lia | done].
Qed.

Lemma sliced_equals_single_pass_witness :
  @generate_minhash_try whitespace_tokenizer toy_params aligned_document =
  @single_pass_minhash whitespace_tokenizer toy_params aligned_document.
Proof.
  apply (@sliced_equals_single_pass whitespace_tokenizer toy_params
           aligned_document ["a"; "b"; "c"; "d"; "e"; "f"]
           [[]; ["a"; "b"; "c"; "d"; "e"; "f"]]).
  - exact aligned_document_long.
  - unfold word_tokenize, whitespace_tokenizer, aligned_document.
    by rewrite words_pad.
  - rewrite aligned_document_slices.
    unfold word_tokenize, whitespace_tokenizer.
    constructor; [by rewrite words_pad|].
    constructor; [reflexivity|constructor].
  - reflexivity.
  - intros g Hg. exists ["a"; "b"; "c"; "d"; "e"; "f"].
    split; [|exact Hg]. apply elem_of_cons. right. apply elem_of_cons. by left.
Defined.

(** C8, counterexample.  A document of 1 MiB + 7 characters: spaces,
    then the five words [a b c d e], of which [a] ends the first slice
    and [b c d e] make the second.  No slice holds five tokens, so the
    sliced shingle set is empty and the signature is the untouched
    [MinHash(num_perm=10)]; a single pass finds the shingle
    ["a b c d e"], and the signature records its hashes. *)
Lemma slicing_loses_straddling_shingle :
  megabyte < len straddling_document ∧
  @five_grams_of whitespace_tokenizer (slice_document straddling_document) ∅
    = Ok ∅ ∧
  @extract_ngrams whitespace_tokenizer straddling_document 5
    = Ok ["a b c d e"] ∧
  @generate_minhash_try whitespace_tokenizer toy_params straddling_document
    = Ok (MinHash 10) ∧
  @single_pass_minhash whitespace_tokenizer toy_params straddling_document
    = Ok [9; 19; 29; 39; 49; 59; 69; 79; 89; 99] ∧
  @generate_minhash_try whitespace_tokenizer toy_params straddling_document
    ≠ @single_pass_minhash whitespace_tokenizer toy_params
        straddling_document.
Proof.
  assert (@five_grams_of whitespace_tokenizer
            (slice_document straddling_document) ∅ = Ok ∅) as Hset.
  { rewrite straddling_document_slices. cbn [five_grams_of].
    unfold extract_ngrams, word_tokenize, whitespace_tokenizer.
    rewrite words_pad. by vm_compute. }
  assert (@extract_ngrams whitespace_tokenizer straddling_document 5
            = Ok ["a b c d e"]) as Hgrams.
  { unfold extract_ngrams, word_tokenize, whitespace_tokenizer,
      straddling_document. rewrite words_pad. by vm_compute. }
  assert (@generate_minhash_try whitespace_tokenizer toy_params
            straddling_document = Ok (MinHash 10)) as Hsliced.
  { unfold generate_minhash_try. rewrite Hset. by vm_compute. }
  assert (@single_pass_minhash whitespace_tokenizer toy_params
            straddling_document
          = Ok [9; 19; 29; 39; 49; 59; 69; 79; 89; 99]) as Hsingle.
  { unfold single_pass_minhash. rewrite Hgrams. by vm_compute. }
  split; [exact straddling_document_long|].
  do 4 (split; [done|]). rewrite Hsliced, Hsingle. by vm_compute.
Qed.
End padded_documents.

(** ** A tokenizer that raises *)

Section failing_documents.
Import datasketch generate_minhashes generate_minhashes_spec.

Lemma failed_document_yields_None_witness :
  (∃ e', @generate_minhash failing_tokenizer toy_params "a b" =
           (None, [LogInfo "Generate minhash failure" e' (len "a b")])) ∧
  @generate_minhash failing_tokenizer toy_params "" = (Some (MinHash 10), []) ∧
  (@generate_minhash failing_tokenizer toy_params "a b").1 ≠
    (@generate_minhash failing_tokenizer toy_params "").1 ∧
  (∀ batch d', (1, "a b") ∈ batch →
     @process_batch failing_tokenizer toy_params batch d'
       = Err SystemExit) ∧
  @main failing_tokenizer toy_params
    [(0, ""); (1, "a b"); (2, "")] empty_dir = Err SystemExit.
Proof.
  apply (@failed_document_yields_None failing_tokenizer toy_params
           "a b" "a b" LookupError [(0, ""); (1, "a b"); (2, "")] 1
           empty_dir 0).
  - vm_compute. left.
  - reflexivity.
  - reflexivity.
  - right. left.
  - repeat split; done.
  - lia.
Defined.

(** C6, counterexample.  With a tokenizer that raises, the document
    ["a b"] yields [None]; the empty document yields the signature
    [MinHash(num_perm=10)].  The two differ.  The run over a corpus
    that holds the document between two empty ones does not go on: it
    ends in [SystemExit], and the first run over the two empty
    documents alone ends normally. *)
Lemma failure_is_not_the_empty_signature :
  (@generate_minhash failing_tokenizer toy_params "a b").1 = None ∧
  (@generate_minhash failing_tokenizer toy_params "").1 = Some (MinHash 10) ∧
  (@generate_minhash failing_tokenizer toy_params "a b").1 ≠
    (@generate_minhash failing_tokenizer toy_params "").1 ∧
  @main failing_tokenizer toy_params
    [(0, ""); (1, "a b"); (2, "")] empty_dir = Err SystemExit ∧
  (d ← @main failing_tokenizer toy_params [(0, ""); (2, "")] empty_dir;
   Ok (checkpoint_file d)) = Ok (Full 2).
Proof. by vm_compute. Qed.
End failing_documents.

(** ** Reading the duplicates back *)

Section reader_proofs.
Import working_with_duplicates yield_deduped_pile.

(** A pair and an integer are never equal. *)
Lemma py_eq_tuple_int offset found_offsets n :
  py_eq (PyTuple offset found_offsets) (PyInt n) = false.
Proof. reflexivity. Qed.

(** The reader yields the records of the files it is given in the
    order of the list. *)
Lemma read_files_in_order (files : list (string * file pickle)) :
  Forall (λ x, ∃ data, x.2 = Full (Records data)) files →
  read_files files false = (files ≫= λ x, records_of x.2, None).
Proof.
  induction 1 as [|[name f] files [data Hf] _ IH]; [done|].
  simpl in Hf. subst f. cbn [read_files pickle_load unpack].
  rewrite IH. done.
Qed.

(** C9.  The operating system lists [duplicates_0001.pkl] before
    [duplicates_0000.pkl].  The reader selects the two record files and
    leaves the [smol] files out, but it opens them in listing order and
    yields the record of batch 1 before the records of batch 0.  When
    the path of the directory itself contains [smol], it selects no
    file at all. *)
Theorem duplicates_read_in_listing_order :
  (duplicates_files "pile_duplicates" unordered_listing).*1
    = ["pile_duplicates/duplicates_0001.pkl";
       "pile_duplicates/duplicates_0000.pkl"] ∧
  yield_duplicates "pile_duplicates" unordered_listing false
    = ([(7, [9; 7]); (0, [1; 0]); (3, [4; 3])], None) ∧
  yield_duplicates "smol_run" unordered_listing false = ([], None).
Proof. by vm_compute. Qed.

(** The loop of the generator, taken on its own with a duplicate record
    in [current_duplicate]: the record is a pair and never equals the
    integer offset, so [next] is never called again and every
    [(offset, document)] pair of the corpus is yielded. *)
Lemma filter_loop_yields_everything pile offset found_offsets duplicates :
  filter_loop pile (PyTuple offset found_offsets) duplicates = (pile, None).
Proof.
  induction pile as [|[global_offset document] pile IH]; [done|].
  cbn [filter_loop]. rewrite py_eq_tuple_int. by rewrite IH.
Qed.

(** C10.  On the two-document corpus with one duplicate record in its
    duplicates directory, the generator yields no document at all
    where the claim has it yield both: its first statement calls
    [get_duplicate_stats] without the one argument the function
    requires, which raises [TypeError] before the loop is reached. *)
Theorem deduped_pile_raises_before_yielding :
  yield_deduped_pile "pile" "pile_duplicates" twin_files twin_pile
    = ([], Some TypeError) ∧
  yield_deduped_pile "pile" "pile_duplicates" twin_files twin_pile
    ≠ (twin_pile, None).
Proof. by vm_compute. Qed.
End reader_proofs.

(** ** The pile reader *)

Section pile_proofs.
Import generate_minhashes working_with_pile.
Context `{Reader}.
Implicit Types (files : list (list string)) (documents : list string).

Lemma get_file_stats_totals documents :
  get_file_stats documents =
  (llen documents, foldr Z.add 0 (meta_len <$> documents)).
Proof.
  unfold get_file_stats.
  assert (∀ n s, foldl (λ totals document,
                    (totals.1 + 1, totals.2 + meta_len document))
                  (n, s) documents
          = (n + llen documents,
             s + foldr Z.add 0 (meta_len <$> documents))) as Hgen.
  { induction documents as [|document documents IH]; intros n s; csimpl.
    - unfold llen. simpl. f_equal; lia.
    - rewrite IH. unfold llen. simpl length. f_equal; lia. }
  apply Hgen.
Qed.

Lemma llen_app {A} (l1 l2 : list A) : llen (l1 ++ l2) = llen l1 + llen l2.
Proof. unfold llen. rewrite length_app. lia. Qed.

Lemma start_offsets_from_files files current_offset :
  start_offsets_from (get_file_stats <$> files) current_offset =
  (λ i, current_offset + llen (concat (take i files)))
    <$> seq 0 (length files).
Proof.
  revert current_offset.
  induction files as [|file files IH]; intros current_offset; [done|].
  csimpl. rewrite get_file_stats_totals. simpl. rewrite IH.
  f_equal; [unfold llen; simpl; lia|].
  rewrite <- fmap_S_seq, <- list_fmap_compose.
  apply list_fmap_ext. intros _ i _. simpl. rewrite llen_app. lia.
Qed.

Lemma reduce_totals (results : list (Z * Z)) x :
  foldl (λ x y, (x.1 + y.1, x.2 + y.2)) x results =
  (x.1 + foldr Z.add 0 results.*1, x.2 + foldr Z.add 0 results.*2).
Proof.
  revert x. induction results as [|y results IH]; intros x; csimpl.
  - destruct x. simpl. f_equal; lia.
  - rewrite IH. simpl. f_equal; lia.
Qed.

Lemma foldr_add_shift (l : list Z) z :
  foldr Z.add z l = foldr Z.add 0 l + z.
Proof. induction l as [|x l IH]; simpl; lia. Qed.

Lemma sum_llen_concat files :
  foldr Z.add 0 (get_file_stats <$> files).*1 = llen (concat files).
Proof.
  induction files as [|file files IH]; [done|].
  csimpl. rewrite get_file_stats_totals, llen_app. simpl.
  f_equal. exact IH.
Qed.

Lemma sum_meta_len_concat files :
  foldr Z.add 0 (get_file_stats <$> files).*2 =
  foldr Z.add 0 (meta_len <$> concat files).
Proof.
  induction files as [|file files IH]; [done|].
  csimpl. rewrite get_file_stats_totals, fmap_app, foldr_app. simpl.
  rewrite IH. by rewrite (foldr_add_shift _ (foldr _ _ _)).
Qed.

(** X1.  [get_stats] raises on a pile without files; otherwise the document
    count is the number of documents of all files, the size is the sum
    of the lengths the reader reports, and the start offset of each
    file is the number of documents in the files before it. *)
Theorem get_stats_prefix_sums files :
  get_stats files =
  match files with
  | [] => Err TypeError
  | _ =>
      Ok (llen (concat files),
          foldr Z.add 0 (meta_len <$> concat files),
          (λ i, llen (concat (take i files))) <$> seq 0 (length files))
  end.
Proof.
  destruct files as [|file files]; [done|].
  unfold get_stats. rewrite start_offsets_from_files.
  change (get_file_stats <$> file :: files)
    with (get_file_stats file :: (get_file_stats <$> files)).
  unfold reduce. csimpl. rewrite reduce_totals.
  rewrite sum_llen_concat, sum_meta_len_concat, get_file_stats_totals.
  simpl. rewrite llen_app, fmap_app, foldr_app.
  rewrite (foldr_add_shift _ (foldr _ _ _)).
  done.
Qed.

Lemma read_file_app documents1 documents2 offset :
  read_file (documents1 ++ documents2) offset =
  read_file documents1 offset ++
  read_file documents2 (offset + llen documents1).
Proof.
  revert offset. induction documents1 as [|d documents1 IH]; intros offset.
  - simpl. f_equal. unfold llen. simpl. lia.
  - simpl. rewrite IH. do 3 f_equal. unfold llen. simpl length. lia.
Qed.

Lemma read_file_offsets documents offset :
  (read_file documents offset).*1 = seqZ offset (llen documents) ∧
  (read_file documents offset).*2 = documents.
Proof.
  revert offset. induction documents as [|d documents IH]; intros offset.
  - done.
  - destruct (IH (offset + 1)) as [IH1 IH2]. csimpl. rewrite IH1, IH2.
    split; [|done].
    unfold llen. simpl length. rewrite Nat2Z.inj_succ.
    rewrite (seqZ_cons offset) by lia. do 2 f_equal. lia.
Qed.

Lemma read_files_all files i start_file offset :
  (start_file ≤ i)%nat →
  read_files files i start_file offset = read_file (concat files) offset.
Proof.
  revert i offset. induction files as [|file files IH]; intros i offset Hle.
  - done.
  - simpl. rewrite decide_False by lia. rewrite IH by lia.
    by rewrite read_file_app.
Qed.

Lemma read_files_skip skipped files i offset :
  read_files (skipped ++ files) i (i + length skipped) offset =
  read_file (concat files) offset.
Proof.
  revert i. induction skipped as [|file skipped IH]; intros i.
  - simpl. rewrite Nat.add_0_r. by apply read_files_all.
  - simpl. rewrite decide_True by lia.
    replace (i + S (length skipped))%nat with (S i + length skipped)%nat
      by lia.
    apply IH.
Qed.

(** Where the search for the start file ends: at a file boundary that
    is not above the checkpoint offset, or at the beginning. *)
Lemma find_start_boundary before ahead checkpoint_offset
    start_file pile_global_offset k offset :
  (∃ skipped rest,
      before ++ ahead = skipped ++ rest ∧ start_file = length skipped ∧
      pile_global_offset = llen (concat skipped) ∧
      (skipped = [] ∨ pile_global_offset ≤ checkpoint_offset)) →
  find_start
    (start_offsets_from (get_file_stats <$> ahead) (llen (concat before)))
    (length before) checkpoint_offset start_file pile_global_offset
    = (k, offset) →
  ∃ skipped rest,
    before ++ ahead = skipped ++ rest ∧ k = length skipped ∧
    offset = llen (concat skipped) ∧
    (skipped = [] ∨ offset ≤ checkpoint_offset).
Proof.
  revert before start_file pile_global_offset.
  induction ahead as [|file ahead IH];
    intros before start_file pile_global_offset Hb Hfind.
  - simpl in Hfind. by injection Hfind as <- <-.
  - csimpl in Hfind. rewrite get_file_stats_totals in Hfind.
    simpl in Hfind. case_decide as Hgt.
    + by injection Hfind as <- <-.
    +
      specialize (IH (before ++ [file]) (length before)
                     (llen (concat before))).
      rewrite <- (assoc_L (++)) in IH. simpl in IH.
      apply IH.
      * exists before, (file :: ahead).
        split; [done|]. split; [done|]. split; [done|]. right. lia.
      * rewrite length_app, concat_app, llen_app. simpl.
        rewrite app_nil_r, Nat.add_1_r. exact Hfind.
Qed.

(** X2.  Without a checkpoint offset the pile is read from its first file:
    the documents of all files in order, numbered from 0. *)
Theorem yield_pile_numbers_documents stats files :
  (yield_pile stats files None).*1 = seqZ 0 (llen (concat files)) ∧
  (yield_pile stats files None).*2 = concat files.
Proof.
  unfold yield_pile. rewrite read_files_all by done.
  apply read_file_offsets.
Qed.

Lemma yield_pile_suffix stats files checkpoint_offset :
  file_start_offsets stats =
    start_offsets_from (get_file_stats <$> files) 0 →
  ∃ skipped,
    yield_pile stats files None =
      skipped ++ yield_pile stats files (Some checkpoint_offset) ∧
    Forall (λ od, od.1 < checkpoint_offset) skipped.
Proof.
  intros Hstats. unfold yield_pile. rewrite Hstats.
  rewrite (read_files_all _ 0 0) by done.
  case_decide as Hc; [|exists []; split; [by rewrite read_files_all|done]].
  destruct (find_start _ _ _ _ _) as [k offset] eqn:Hfind.
  destruct (find_start_boundary [] files checkpoint_offset 0%nat 0 k offset)
    as (skipped & rest & Hfiles & -> & -> & Hle); [|exact Hfind|].
  { exists [], files. split; [done|]. split; [done|]. split; [done|]. by left. }
  simpl in Hfiles. subst files.
  rewrite (read_files_skip skipped rest 0), concat_app, read_file_app.
  exists (read_file (concat skipped) 0). split; [done|].
  destruct Hle as [->|Hle]; [done|].
  apply Forall_forall. intros [o document] Hin. simpl.
  assert (o ∈ (read_file (concat skipped) 0).*1) as Ho.
  { apply list_elem_of_fmap. by exists (o, document). }
  rewrite (proj1 (read_file_offsets _ _)) in Ho.
  apply elem_of_seqZ in Ho. lia.
Qed.

Lemma computed_statistics_fit files stats pile_statistics_file :
  get_pile_statistics Absent files = (Ok stats, pile_statistics_file) →
  file_start_offsets stats =
    start_offsets_from (get_file_stats <$> files) 0 ∧
  pile_statistics_file = Full stats.
Proof.
  unfold get_pile_statistics, get_stats. simpl.
  destruct (reduce _ _) as [totals|e]; [|done].
  simpl. by intros [= <- <-].
Qed.

(** X3.  With the statistics computed from the files that are read,
    [yield_pile(checkpoint_offset)] yields a suffix of what
    [yield_pile()] yields, with the same offsets, and every document
    it leaves out lies below the checkpoint offset. *)
Theorem yield_pile_resumes files stats pile_statistics_file
    checkpoint_offset :
  get_pile_statistics Absent files = (Ok stats, pile_statistics_file) →
  ∃ skipped,
    yield_pile stats files None =
      skipped ++ yield_pile stats files (Some checkpoint_offset) ∧
    Forall (λ od, od.1 < checkpoint_offset) skipped.
Proof.
  intros (Hstats & _)%computed_statistics_fit.
  by apply yield_pile_suffix.
Qed.

Lemma main_loop_skip_all `{Tokenizer, datasketch.MinHashParams}
    (skipped rest acc : list (Z * string)) checkpoint_offset d :
  Forall (λ od, od.1 < checkpoint_offset) skipped →
  main_loop (skipped ++ rest) checkpoint_offset acc d =
  main_loop rest checkpoint_offset acc d.
Proof.
  induction 1 as [|[offset document] skipped Hlt _ IH]; [done|].
  simpl in Hlt. simpl. by rewrite decide_True.
Qed.

(** X4.  The batches the generator commits on a resumed run are the same
    whether the pile is read from the file that holds the checkpoint
    offset or from its first file. *)
Theorem resumed_run_reads_enough `{Tokenizer, datasketch.MinHashParams}
    files stats pile_statistics_file checkpoint_offset d :
  get_pile_statistics Absent files = (Ok stats, pile_statistics_file) →
  main_loop (yield_pile stats files (Some checkpoint_offset))
            checkpoint_offset [] d =
  main_loop (yield_pile stats files None) checkpoint_offset [] d.
Proof.
  intros (Hstats & _)%computed_statistics_fit.
  destruct (yield_pile_suffix stats files checkpoint_offset Hstats)
    as (skipped & -> & Hlt).
  by rewrite main_loop_skip_all.
Qed.
End pile_proofs.

Section pile_instances.
Import generate_minhashes working_with_pile.

Lemma yield_pile_resumes_witness :
  ∃ skipped,
    yield_pile (PileStatistics 3 6 [0; 2]) [["a"; "b"]; ["c"]] None =
      skipped ++
      yield_pile (PileStatistics 3 6 [0; 2]) [["a"; "b"]; ["c"]] (Some 2) ∧
    Forall (λ od, od.1 < 2) skipped.
Proof.
  apply (@yield_pile_resumes pair_reader [["a"; "b"]; ["c"]]
           (PileStatistics 3 6 [0; 2])
           (Full (PileStatistics 3 6 [0; 2])) 2).
  reflexivity.
Defined.

Lemma resumed_run_reads_enough_witness :
  @main_loop whitespace_tokenizer toy_params
    (yield_pile (PileStatistics 3 6 [0; 2]) [["a"; "b"]; ["c"]] (Some 2))
    2 [] empty_dir =
  @main_loop whitespace_tokenizer toy_params
    (yield_pile (PileStatistics 3 6 [0; 2]) [["a"; "b"]; ["c"]] None)
    2 [] empty_dir.
Proof.
  apply (@resumed_run_reads_enough pair_reader whitespace_tokenizer
           toy_params [["a"; "b"]; ["c"]] (PileStatistics 3 6 [0; 2])
           (Full (PileStatistics 3 6 [0; 2])) 2 empty_dir).
  reflexivity.
Defined.
End pile_instances.

(** ** Slices and signatures *)

Section slice_proofs.
Import datasketch generate_minhashes.

Lemma substring_split (n m : nat) (s : string) :
  Stdlib.Strings.String.substring 0 n s +:+
  Stdlib.Strings.String.substring n m s =
  Stdlib.Strings.String.substring 0 (n + m) s.
Proof.
  revert n. induction s as [|c s IH]; intros n.
  - destruct n, m; done.
  - destruct n as [|n]; [done|]. simpl. by rewrite <- IH.
Qed.

Lemma substring_whole (n : nat) (s : string) :
  (Stdlib.Strings.String.length s ≤ n)%nat →
  Stdlib.Strings.String.substring 0 n s = s.
Proof.
  revert n. induction s as [|c s IH]; intros n Hle.
  - by destruct n.
  - destruct n as [|n]; simpl in *; [lia|]. rewrite IH; [done|lia].
Qed.

Lemma substring_none (n : nat) (s : string) :
  Stdlib.Strings.String.substring n 0 s = "".
Proof.
  revert n. induction s as [|c s IH]; intros n; destruct n; simpl; done.
Qed.

Lemma length_substring_le (n m : nat) (s : string) :
  (Stdlib.Strings.String.length (Stdlib.Strings.String.substring n m s)
   ≤ m)%nat.
Proof.
  revert n m. induction s as [|c s IH]; intros n m.
  - destruct n, m; simpl; lia.
  - destruct n as [|n]; [|apply IH].
    destruct m as [|m]; simpl; [lia|]. specialize (IH 0%nat m). lia.
Qed.

Lemma append_assoc (s1 s2 s3 : string) :
  (s1 +:+ s2) +:+ s3 = s1 +:+ (s2 +:+ s3).
Proof.
  induction s1 as [|c s1 IH]; [done|].
  change (String c ((s1 +:+ s2) +:+ s3) = String c (s1 +:+ (s2 +:+ s3))).
  by rewrite IH.
Qed.

Lemma append_nil_r (s : string) : s +:+ "" = s.
Proof.
  induction s as [|c s IH]; [done|].
  change (String c (s +:+ "") = String c s). by rewrite IH.
Qed.

Lemma foldr_append (slices : list string) (s : string) :
  foldr String.append s slices = foldr String.append "" slices +:+ s.
Proof.
  induction slices as [|x slices IH]; simpl; [done|].
  rewrite IH. by rewrite append_assoc.
Qed.

(** The first [j] slices of width [k] of a text. *)
Lemma slices_prefix (document : string) (k : Z) (j : nat) :
  0 < k →
  foldr String.append ""
    ((λ i, py_slice document (k * i)
             (Z.min (k * i + k) (len document)))
       <$> seqZ 0 (Z.of_nat j)) =
  Stdlib.Strings.String.substring
    0 (Z.to_nat (Z.min (k * Z.of_nat j) (len document))) document.
Proof.
  intros Hk. induction j as [|j IH].
  - simpl. rewrite Z.mul_0_r, Z.min_l by (unfold len; lia).
    by rewrite substring_none.
  - rewrite seqZ_S, fmap_app, foldr_app. simpl.
    rewrite foldr_append, IH. unfold py_slice.
    change (0 + Z.of_nat j) with (Z.of_nat j).
    destruct (decide (k * Z.of_nat j ≤ len document)) as [Hle|Hgt].
    + rewrite (Z.min_l (k * Z.of_nat j)) by lia.
      rewrite append_nil_r, substring_split. f_equal. lia.
    + rewrite (Z.min_r (k * Z.of_nat j)) by lia.
      replace (Z.to_nat (Z.min (k * Z.of_nat j + k) (len document)
                         - k * Z.of_nat j)) with 0%nat by lia.
      rewrite substring_none, !append_nil_r. f_equal. lia.
Qed.

(** X5.  The slices of a document, put end to end, are the document, and no
    slice is longer than 1 MiB. *)
Theorem slices_cover_document (document : string) :
  foldr String.append "" (slice_document document) = document ∧
  Forall (λ a_slice, len a_slice ≤ megabyte) (slice_document document).
Proof.
  unfold slice_document. case_decide as Hlong.
  2: { split; [simpl; by rewrite append_nil_r|].
       apply Forall_singleton. lia. }
  assert (0 < megabyte) as Hk by done.
  generalize dependent megabyte. intros k Hlong Hk.
  assert (0 ≤ ceil_div (len document) k) as Hn.
  { unfold ceil_div. apply Z.div_pos; unfold len; lia. }
  assert (len document ≤ k * ceil_div (len document) k) as Hall.
  { unfold ceil_div.
    pose proof (Z.mod_pos_bound (len document + k - 1) k Hk).
    pose proof (Z.div_mod (len document + k - 1) k). lia. }
  split.
  - rewrite <- (Z2Nat.id (ceil_div (len document) k)) at 1 by done.
    rewrite slices_prefix by done.
    apply substring_whole. unfold len in *. lia.
  - apply Forall_fmap, Forall_forall. intros i _. simpl.
    unfold py_slice, len.
    pose proof (length_substring_le
      (Z.to_nat (k * i))
      (Z.to_nat (Z.min (k * i + k) (len document) - k * i)) document).
    unfold len in *. lia.
Qed.
End slice_proofs.

Section signature_proofs.
Import datasketch generate_minhashes.
Context `{Tokenizer, MinHashParams}.
Implicit Types (hashvalues : LeanMinHash) (five_gram_set : gset string).

Lemma permuted_hash_bounds ab hv : 0 ≤ permuted_hash ab hv ≤ _max_hash.
Proof.
  unfold permuted_hash.
  assert (∀ x, Z.land x _max_hash = x mod 2 ^ 32) as ->.
  { intros x. by apply (Z.land_ones x 32). }
  unfold _max_hash.
  pose proof (Z.mod_pos_bound
    (((ab.1 * hv + ab.2) mod 2 ^ 64) mod _mersenne_prime) (2 ^ 32)
    eq_refl).
  lia.
Qed.

Lemma update_lookup hashvalues b i :
  update hashvalues b !! i =
  Z.min (permuted_hash (permutation i) (hashfunc b)) <$> hashvalues !! i.
Proof.
  exact (list_lookup_imap
           (λ i v, Z.min (permuted_hash (permutation i) (hashfunc b)) v)
           hashvalues i).
Qed.

(** Entry [i] after the updates: below the entry it started from and
    the permuted hash of every update, and equal to one of them. *)
Lemma updates_lookup (updates : list string) hashvalues i v0 :
  hashvalues !! i = Some v0 →
  ∃ v, (foldl update hashvalues updates : list Z) !! i = Some v ∧
       v ≤ v0 ∧
       (∀ x, x ∈ updates → v ≤ permuted_hash (permutation i) (hashfunc x)) ∧
       (v = v0 ∨
        ∃ x, x ∈ updates ∧ v = permuted_hash (permutation i) (hashfunc x)).
Proof.
  revert hashvalues v0.
  induction updates as [|b updates IH]; intros hashvalues v0 Hi.
  - exists v0. split; [done|]. split; [lia|]. split; [|by left].
    intros x Hx. by apply elem_of_nil in Hx.
  - simpl.
    destruct (IH (update hashvalues b)
                (Z.min (permuted_hash (permutation i) (hashfunc b)) v0))
      as (v & Hv & Hle & Hlow & Hatt).
    { by rewrite update_lookup, Hi. }
    exists v. split; [done|]. split; [lia|]. split.
    + intros x [->|Hx]%elem_of_cons; [lia|by apply Hlow].
    + destruct Hatt as [->|(x & Hx & ->)].
      * destruct (Z.min_spec (permuted_hash (permutation i) (hashfunc b)) v0)
          as [[_ ->]|[_ ->]]; [|by left].
        right. exists b. split; [left|done].
      * right. exists x. split; [by right|done].
Qed.

Lemma minhash_of_set_entry five_gram_set i :
  (i < 10)%nat →
  ∃ v, (minhash_of_set five_gram_set : list Z) !! i = Some v ∧
       (∀ x, x ∈ five_gram_set →
             v ≤ permuted_hash (permutation i) (hashfunc x)) ∧
       (five_gram_set = ∅ ∧ v = _max_hash ∨
        ∃ x, x ∈ five_gram_set ∧
             v = permuted_hash (permutation i) (hashfunc x)).
Proof.
  intros Hi. unfold minhash_of_set.
  destruct (updates_lookup (elements five_gram_set) (MinHash 10) i _max_hash)
    as (v & Hv & Hle & Hlow & Hatt).
  { unfold MinHash. by apply lookup_replicate_2. }
  exists v. split; [done|]. split.
  - intros x Hx. apply Hlow. by apply elem_of_elements.
  - destruct Hatt as [->|(x & Hx & ->)].
    + destruct (decide (five_gram_set = ∅)) as [->|Hne]; [by left|].
      right. apply set_choose_L in Hne as [x Hx]. exists x. split; [done|].
      pose proof (Hlow x (proj2 (elem_of_elements _ _) Hx)).
      pose proof (permuted_hash_bounds (permutation i) (hashfunc x)). lia.
    + right. exists x. split; [|done]. by apply elem_of_elements.
Qed.

(** X7.  Every entry of the signature of a non-empty shingle set is the
    smallest permuted hash of its shingles. *)
Theorem signature_entry_is_minimum five_gram_set i :
  five_gram_set ≠ ∅ → (i < 10)%nat →
  ∃ x, x ∈ five_gram_set ∧
    minhash_of_set five_gram_set !! i =
      Some (permuted_hash (permutation i) (hashfunc x)) ∧
    ∀ y, y ∈ five_gram_set →
      permuted_hash (permutation i) (hashfunc x) ≤
      permuted_hash (permutation i) (hashfunc y).
Proof.
  intros Hne Hi.
  destruct (minhash_of_set_entry five_gram_set i Hi)
    as (v & Hv & Hlow & [[? _]|(x & Hx & ->)]); [done|].
  exists x. done.
Qed.

(** X6.  A signature that [generate_minhash] returns has ten entries, each
    an unsigned 32-bit value, and nothing is logged. *)
Theorem signature_is_well_formed document m logged :
  generate_minhash document = (Some m, logged) →
  length m = 10%nat ∧ Forall (λ v, 0 ≤ v ≤ _max_hash) m ∧ logged = [].
Proof.
  unfold generate_minhash, generate_minhash_try.
  destruct (five_grams_of _ _) as [five_gram_set|e]; [|done].
  simpl. intros [= <- <-].
  split; [apply length_minhash_of_set|]. split; [|done].
  apply Forall_lookup. intros i v Hv.
  assert (i < 10)%nat as Hi.
  { rewrite <- (length_minhash_of_set five_gram_set).
    by eapply lookup_lt_Some. }
  destruct (minhash_of_set_entry five_gram_set i Hi)
    as (v' & Hv' & _ & [[_ ->]|(x & _ & ->)]);
    rewrite Hv in Hv'; injection Hv' as ->.
  - done.
  - apply permuted_hash_bounds.
Qed.

(** X8.  The signature of a union of shingle sets is the entry-wise minimum
    of the signatures of the sets. *)
Theorem signature_of_union five_gram_set1 five_gram_set2 :
  minhash_of_set (five_gram_set1 ∪ five_gram_set2) =
  zip_with Z.min (minhash_of_set five_gram_set1)
                 (minhash_of_set five_gram_set2).
Proof.
  apply list_eq. intros i. rewrite lookup_zip_with.
  destruct (decide (i < 10)%nat) as [Hi|Hi].
  2: { rewrite !lookup_ge_None_2; [done|..];
       rewrite length_minhash_of_set; lia. }
  destruct (minhash_of_set_entry (five_gram_set1 ∪ five_gram_set2) i Hi)
    as (v & -> & Hlow & Hatt).
  destruct (minhash_of_set_entry five_gram_set1 i Hi)
    as (v1 & -> & Hlow1 & Hatt1).
  destruct (minhash_of_set_entry five_gram_set2 i Hi)
    as (v2 & -> & Hlow2 & Hatt2).
  simpl. f_equal.
  assert (∀ x, permuted_hash (permutation i) (hashfunc x) ≤ _max_hash)
    as Hmax by (intros x; apply permuted_hash_bounds).
  assert (v ≤ _max_hash) as Hv.
  { destruct Hatt as [[_ ->]|(x & _ & ->)]; [lia|apply Hmax]. }
  assert (v ≤ v1) as Hv1.
  { destruct Hatt1 as [[_ ->]|(x & Hx & ->)]; [done|].
    apply Hlow, elem_of_union. by left. }
  assert (v ≤ v2) as Hv2.
  { destruct Hatt2 as [[_ ->]|(x & Hx & ->)]; [done|].
    apply Hlow, elem_of_union. by right. }
  assert (Z.min v1 v2 ≤ v); [|lia].
  destruct Hatt as [[Hempty ->]|(x & Hx & ->)].
  - destruct Hatt1 as [[_ ->]|(x & Hx & _)]; [lia|].
    destruct (not_elem_of_empty (C:=gset string) x).
    rewrite <- Hempty. apply elem_of_union. by left.
  - apply elem_of_union in Hx as [Hx|Hx].
    + specialize (Hlow1 x Hx). lia.
    + specialize (Hlow2 x Hx). lia.
Qed.

Lemma ngrams_short {A} n (sequence : list A) :
  (length sequence < n)%nat → ngrams n sequence = [].
Proof.
  intros Hlt. destruct sequence; [done|]. simpl in *.
  by rewrite decide_False by lia.
Qed.

(** X9.  A document of at most 1 MiB with fewer than five tokens has no
    shingle: its signature is the one of the empty document, ten
    times the largest hash value. *)
Theorem short_document_has_empty_signature document tokens :
  len document ≤ megabyte →
  word_tokenize document = Ok tokens →
  (length tokens < 5)%nat →
  generate_minhash document = (Some (MinHash 10), []).
Proof.
  intros Hlen Htok Hshort.
  unfold generate_minhash, generate_minhash_try, slice_document.
  rewrite decide_False by lia. simpl.
  unfold extract_ngrams. rewrite Htok. simpl.
  rewrite ngrams_short by done. simpl.
  rewrite (left_id_L ∅ (∪)). simpl.
  unfold minhash_of_set. by rewrite elements_empty.
Qed.
End signature_proofs.

Section signature_instances.
Import datasketch generate_minhashes.

Lemma signature_entry_is_minimum_witness :
  ∃ x, x ∈ ({["a b c d e"]} : gset string) ∧
    @minhash_of_set toy_params {["a b c d e"]} !! 0%nat =
      Some (permuted_hash (@permutation toy_params 0%nat)
                          (@hashfunc toy_params x)) ∧
    ∀ y, y ∈ ({["a b c d e"]} : gset string) →
      permuted_hash (@permutation toy_params 0%nat) (@hashfunc toy_params x) ≤
      permuted_hash (@permutation toy_params 0%nat) (@hashfunc toy_params y).
Proof.
  apply (@signature_entry_is_minimum toy_params {["a b c d e"]} 0%nat).
  - apply non_empty_singleton_L.
  - lia.
Defined.

Lemma signature_is_well_formed_witness :
  length (@MinHash 10) = 10%nat ∧
  Forall (λ v, 0 ≤ v ≤ _max_hash) (MinHash 10) ∧
  ([] : list log_record) = [].
Proof.
  apply (@signature_is_well_formed whitespace_tokenizer toy_params
           "" (MinHash 10) []).
  reflexivity.
Defined.

Lemma short_document_has_empty_signature_witness :
  @generate_minhash whitespace_tokenizer toy_params "a b c"
  = (Some (MinHash 10), []).
Proof.
  apply (@short_document_has_empty_signature whitespace_tokenizer toy_params
           "a b c" ["a"; "b"; "c"]).
  - by vm_compute.
  - reflexivity.
  - simpl. lia.
Defined.
End signature_instances.

(** ** The store, end to end *)

Section roundtrip_proofs.
Import datasketch generate_minhashes generate_minhashes_spec
       working_with_minhashes.
Context `{Tokenizer, MinHashParams}.
Implicit Types (d : working_dir) (pile batch : list (Z * string))
               (files : gmap Z (file (list (Z * minhash)))).

(** X11.  The recovery block never raises: it releases the lock, removes the
    temporary checkpoint of an interrupted commit and touches no batch
    file; on the directory it leaves, and on any directory without a
    lock, it changes nothing. *)
Theorem recover_always_succeeds d :
  ∃ d', recover d = Ok d' ∧
        transaction_lock d' = false ∧
        minhashes_files d' = minhashes_files d ∧
        (transaction_lock d = true → checkpoint_temp_file d' = Absent) ∧
        (transaction_lock d = false → d' = d) ∧
        recover d' = Ok d'.
Proof.
  destruct d as [ck tmp old [] files]; unfold recover; simpl.
  - destruct tmp, old; simpl; eexists; repeat split; done.
  - eexists. repeat split; done.
Qed.

Lemma minhashes_and_meta_task_results batch :
  minhashes_and_meta batch (task_results batch) =
  (λ od, (od.1, (generate_minhash od.2).1)) <$> batch.
Proof.
  unfold minhashes_and_meta, task_results.
  induction batch as [|od batch IH]; [done|]. csimpl. by rewrite IH.
Qed.

(** The sorted list of files is determined by the directory: any
    listing of the files in increasing order of start offset is it. *)
Lemma minhash_files_unique files (listing : list (Z * file (list (Z * minhash)))) :
  StronglySorted by_start_offset listing →
  listing ≡ₚ map_to_list files →
  minhash_files files = listing.
Proof.
  intros Hsorted Hperm. unfold minhash_files.
  apply (Sorted_unique_strong by_start_offset).
  - intros [k1 f1] [k2 f2] Hin1 Hin2 H12 H21.
    unfold by_start_offset in *. simpl in *.
    assert (k1 = k2) as -> by lia. f_equal.
    rewrite merge_sort_Permutation in Hin1. rewrite Hperm in Hin2.
    apply elem_of_map_to_list in Hin1, Hin2. congruence.
  - apply StronglySorted_Sorted, StronglySorted_merge_sort; apply _.
  - by apply StronglySorted_Sorted.
  - by rewrite merge_sort_Permutation.
Qed.

Lemma minhash_files_insert_last files s f :
  (∀ k, is_Some (files !! k) → k < s) →
  minhash_files (<[s := f]> files) = minhash_files files ++ [(s, f)].
Proof.
  intros Hbelow. apply minhash_files_unique.
  - apply StronglySorted_app_2.
    + intros [k1 f1] x2 Hin1 ->%list_elem_of_singleton.
      unfold minhash_files in Hin1.
      rewrite merge_sort_Permutation in Hin1.
      apply elem_of_map_to_list in Hin1.
      unfold by_start_offset. simpl.
      specialize (Hbelow k1 (mk_is_Some _ _ Hin1)). lia.
    + apply StronglySorted_merge_sort; apply _.
    + repeat constructor.
  - rewrite map_to_list_insert.
    + unfold minhash_files. rewrite merge_sort_Permutation.
      by rewrite Permutation_app_comm.
    + apply eq_None_not_Some. intros Hsome%Hbelow. lia.
Qed.

Lemma load_files_app {A} (files1 files2 : list (Z * file (list A))) items :
  load_files files1 = (items, None) →
  load_files (files1 ++ files2) =
  ((items ++ (load_files files2).1), (load_files files2).2).
Proof.
  revert items. induction files1 as [|[k f] files1 IH]; intros items.
  - intros [= <-]. simpl. by destruct (load_files files2).
  - simpl. destruct (pickle_load f) as [data|e]; [|done].
    destruct (load_files files1) as [items1 e1] eqn:Hl1.
    intros [= <- ->]. rewrite (IH items1 eq_refl).
    by rewrite (assoc_L (++)).
Qed.

Lemma yield_minhashes_insert_last files s data items :
  (∀ k, is_Some (files !! k) → k < s) →
  yield_minhashes files = (items, None) →
  yield_minhashes (<[s := Full data]> files) = (items ++ data, None).
Proof.
  intros Hbelow Hyield. unfold yield_minhashes in *.
  rewrite minhash_files_insert_last by done.
  rewrite (load_files_app _ _ _ Hyield). simpl. by rewrite app_nil_r.
Qed.

(** What the loop of [main] leaves in the store when every document
    has a signature: the batch files read back in order add the
    minhash of every document handled, in pile order, and the
    checkpoint holds the last offset handled. *)
Lemma main_loop_stores pile acc d checkpoint_offset items :
  hashable (acc ++ pile) →
  StronglySorted Z.lt (acc ++ pile).*1 →
  Forall (λ od, checkpoint_offset ≤ od.1) pile →
  llen acc < batch_size →
  (∀ k, is_Some (minhashes_files d !! k) →
        Forall (λ o, k < o) (acc ++ pile).*1) →
  yield_minhashes (minhashes_files d) = (items, None) →
  transaction_lock d = false →
  ∃ d',
    main_loop pile checkpoint_offset acc d = Ok d' ∧
    yield_minhashes (minhashes_files d') =
      (items ++ ((λ od, (od.1, (generate_minhash od.2).1))
                   <$> acc ++ pile), None) ∧
    transaction_lock d' = false ∧
    checkpoint_file d' =
      from_option (λ od, Full od.1) (checkpoint_file d) (last (acc ++ pile)).
Proof.
  revert acc d items.
  induction pile as [|[offset document] pile IH];
    intros acc d items Hall Hsorted Hge Hlen Hkeys Hyield Hlock.
  - rewrite app_nil_r in *. simpl. case_decide as Hne.
    + destruct acc as [|[s doc] acc]; [done|].
      destruct (last ((s, doc) :: acc)) as [[l ldoc]|] eqn:Hlast;
        [|by apply last_None in Hlast].
      destruct (transaction_succeeds ((s, doc) :: acc)
                  (task_results ((s, doc) :: acc)) d s l)
        as (d' & Hrun & Hfiles & Hck & _ & Hlock'); [done|..].
      { unfold final_offset. by rewrite Hlast. }
      exists d'. split; [by rewrite process_batch_Ok|]. rewrite Hfiles.
      split; [|done].
      rewrite minhashes_and_meta_task_results.
      apply yield_minhashes_insert_last; [|done].
      intros k Hk. specialize (Hkeys k Hk).
      by apply Forall_cons in Hkeys as [? _].
    + destruct acc; [|unfold llen in Hne; simpl in Hne; lia].
      exists d. simpl. by rewrite app_nil_r.
  - apply Forall_cons in Hge as [Hoff Hge]. simpl in Hoff.
    cbn [main_loop]. rewrite decide_False by lia.
    assert ((acc ++ [(offset, document)]) ++ pile
            = acc ++ (offset, document) :: pile) as Hassoc
      by by rewrite <- (assoc_L (++)).
    case_decide as Hfull.
    + destruct (acc ++ [(offset, document)]) as [|[s doc] batch] eqn:Hbatch;
        [by destruct acc|].
      rewrite <- Hbatch in *.
      assert (first_offset (acc ++ [(offset, document)]) = Ok s) as Hs
        by by rewrite Hbatch.
      destruct (transaction_succeeds (acc ++ [(offset, document)])
                  (task_results (acc ++ [(offset, document)])) d s offset Hs)
        as (d1 & Hrun & Hfiles & Hck & _ & Hlock1).
      { unfold final_offset. by rewrite last_snoc. }
      rewrite <- Hassoc in Hall, Hsorted, Hkeys.
      pose proof Hall as [Hbatch_all Hrest_all]%Forall_app.
      rewrite process_batch_Ok by done. rewrite Hrun. simpl.
      rewrite fmap_app in Hsorted.
      assert (s ∈ (acc ++ [(offset, document)]).*1) as Hsin.
      { rewrite Hbatch. left. }
      destruct (IH [] d1
                  (items ++ ((λ od, (od.1, (generate_minhash od.2).1))
                               <$> acc ++ [(offset, document)])))
        as (d' & Hloop & Hyield' & Hlock' & Hck').
      * done.
      * by apply StronglySorted_app_1_r in Hsorted.
      * done.
      * done.
      * intros k Hk. rewrite Hfiles in Hk. simpl.
        apply Forall_forall. intros o Ho.
        destruct (decide (k = s)) as [->|Hne].
        -- by eapply (StronglySorted_app_1_elem_of _ _ _ _ _ Hsorted).
        -- rewrite lookup_insert_ne in Hk by done.
           specialize (Hkeys k Hk). rewrite fmap_app in Hkeys.
           apply Forall_app in Hkeys as [_ Hkeys].
           by apply (proj1 (Forall_forall _ _) Hkeys).
      * rewrite Hfiles, minhashes_and_meta_task_results.
        apply yield_minhashes_insert_last; [|done].
        intros k Hk. specialize (Hkeys k Hk). rewrite fmap_app in Hkeys.
        apply Forall_app in Hkeys as [Hkeys _].
        by apply (proj1 (Forall_forall _ _) Hkeys).
      * done.
      * exists d'. split; [done|]. simpl in Hyield', Hck'.
        rewrite <- Hassoc, fmap_app, (assoc_L (++)).
        split; [done|]. split; [done|].
        rewrite Hck', Hck, last_app.
        destruct (last pile); [done|]. by rewrite last_snoc.
    + destruct (IH (acc ++ [(offset, document)]) d items)
        as (d' & Hloop & Hyield' & Hlock' & Hck'); try done.
      * by rewrite Hassoc.
      * by rewrite Hassoc.
      * unfold llen in *. rewrite length_app in *. simpl in *. lia.
      * by rewrite Hassoc.
      * exists d'. by rewrite <- Hassoc.
Qed.

Lemma main_stores pile :
  hashable pile →
  StronglySorted Z.lt pile.*1 →
  Forall (λ od, 0 ≤ od.1) pile →
  ∃ d',
    main pile empty_dir = Ok d' ∧
    yield_minhashes (minhashes_files d') =
      ((λ od, (od.1, (generate_minhash od.2).1)) <$> pile, None) ∧
    transaction_lock d' = false ∧
    checkpoint_file d' =
      from_option (λ od, Full od.1) Absent (last pile).
Proof.
  intros Hall Hsorted Hge. unfold main. simpl.
  apply (main_loop_stores pile [] empty_dir 0 []); try done.
  intros k [? Hk]. simpl in Hk. by rewrite lookup_empty in Hk.
Qed.

(** X12.  An uninterrupted run over a pile with increasing offsets in
    which every document has a signature, from an empty working
    directory, stores the minhash of every document: [yield_minhashes]
    on the directory it leaves yields, for each document in pile
    order, its offset and what [generate_minhash] returns for it. *)
Theorem stored_minhashes_read_back pile :
  hashable pile →
  StronglySorted Z.lt pile.*1 →
  Forall (λ od, 0 ≤ od.1) pile →
  ∃ d',
    main pile empty_dir = Ok d' ∧
    yield_minhashes (minhashes_files d') =
      ((λ od, (od.1, (generate_minhash od.2).1)) <$> pile, None).
Proof.
  intros Hall Hsorted Hge.
  destruct (main_stores pile Hall Hsorted Hge) as (d' & ? & ? & _).
  by exists d'.
Qed.

Lemma main_loop_nothing_left pile checkpoint_offset d :
  Forall (λ od, od.1 < checkpoint_offset) pile →
  main_loop pile checkpoint_offset [] d = Ok d.
Proof.
  induction 1 as [|[offset document] pile Hlt _ IH]; [done|].
  simpl in *. by rewrite decide_True.
Qed.

(** X13.  When every document of the pile has a signature, the first run
    ends normally, and a second run over the same pile finds every
    document below the checkpoint and leaves the directory as the
    first run left it. *)
Theorem second_run_changes_nothing pile :
  hashable pile →
  StronglySorted Z.lt pile.*1 →
  Forall (λ od, 0 ≤ od.1) pile →
  ∃ d', main pile empty_dir = Ok d' ∧ main pile d' = Ok d'.
Proof.
  intros Hall Hsorted Hge.
  destruct (main_stores pile Hall Hsorted Hge)
    as (d' & Hmain & _ & Hlock & Hck).
  exists d'. split; [done|]. unfold main, recover. rewrite Hlock. simpl.
  unfold load_checkpoint_offset. rewrite Hck.
  destruct (last pile) as [[l ldoc]|] eqn:Hlast; simpl.
  - apply main_loop_nothing_left, Forall_forall. intros [o doc] Hin. simpl.
    apply last_Some in Hlast as [pile' ->].
    apply elem_of_app in Hin as [Hin|Hin%list_elem_of_singleton].
    + rewrite fmap_app in Hsorted.
      assert (o < l); [|lia].
      apply (StronglySorted_app_1_elem_of _ _ _ _ _ Hsorted).
      * apply list_elem_of_fmap. by exists (o, doc).
      * simpl. left.
    + injection Hin as -> ->. lia.
  - apply last_None in Hlast as ->. done.
Qed.
End roundtrip_proofs.

Section roundtrip_instances.
Import datasketch generate_minhashes generate_minhashes_spec
       working_with_minhashes.

Lemma process_batch_commits_witness :
  ∃ d',
    run (transaction two_docs two_minhashes) empty_dir = Ok d' ∧
    consistent d' (1 + 1) ∧
    checkpoint_file d' = Full 1 ∧
    minhashes_file d' 0 = Full (minhashes_and_meta two_docs two_minhashes).
Proof.
  apply (process_batch_commits empty_dir two_docs two_minhashes 0 1).
  - exact empty_dir_consistent.
  - reflexivity.
  - reflexivity.
  - lia.
Defined.

Lemma stored_minhashes_read_back_witness :
  ∃ d',
    @main whitespace_tokenizer toy_params two_docs empty_dir = Ok d' ∧
    yield_minhashes (minhashes_files d') =
      ((λ od, (od.1, (@generate_minhash whitespace_tokenizer toy_params
                        od.2).1)) <$> two_docs, None).
Proof.
  apply (@stored_minhashes_read_back whitespace_tokenizer toy_params two_docs).
  - repeat constructor; by vm_compute.
  - repeat constructor; simpl; lia.
  - repeat constructor; simpl; lia.
Defined.

Lemma second_run_changes_nothing_witness :
  ∃ d',
    @main whitespace_tokenizer toy_params two_docs empty_dir = Ok d' ∧
    @main whitespace_tokenizer toy_params two_docs d' = Ok d'.
Proof.
  apply (@second_run_changes_nothing whitespace_tokenizer toy_params two_docs).
  - repeat constructor; by vm_compute.
  - repeat constructor; simpl; lia.
  - repeat constructor; simpl; lia.
Defined.
End roundtrip_instances.

(** ** The dedupe run: bookkeeping, restarts and bad input *)

Section bookkeeping_proofs.
Import datasketch generate_minhashes working_with_minhashes dedupe dedupe_spec.
Context `{Banding, Disk}.
Implicit Types (st : state) (es : list event)
               (sigs : list (Z * LeanMinHash)).

Lemma batch_numbers_app es1 es2 :
  batch_numbers (es1 ++ es2) = batch_numbers es1 ++ batch_numbers es2.
Proof. unfold batch_numbers. apply bind_app. Qed.

Lemma seqZ_snoc n : 0 ≤ n → seqZ 0 (n + 1) = seqZ 0 n ++ [n].
Proof. intros Hn. rewrite seqZ_app by lia. f_equal. Qed.

Lemma record_duplicate_accounted offset m st res st' :
  record_duplicate offset m st = (res, st') →
  accounted st →
  accounted st' ∧ lsh_pkl st' = lsh_pkl st ∧ done_file st' = done_file st.
Proof.
  unfold record_duplicate, accounted.
  destruct (query (lsh st) m) as [results|e]; [|by intros [= <- <-]].
  destruct (found_other offset results); [|by intros [= <- <-]].
  simpl. intros Hrec (Hcount & Hpos & Hnum).
  destruct (remove (lsh st) offset); injection Hrec as <- <-; simpl;
    rewrite llen_app; unfold llen at 3; simpl; repeat split; try done; lia.
Qed.

Lemma flush_if_full_accounted st res st' :
  flush_if_full st = (res, st') →
  accounted st →
  accounted st' ∧ lsh_pkl st' = lsh_pkl st ∧ done_file st' = done_file st.
Proof.
  unfold flush_if_full, accounted. case_decide as Hfull.
  2: { by intros [= <- <-]. }
  unfold ensure_disk_space, save_duplicate_batch. simpl.
  intros [= <- <-] (Hcount & Hpos & Hnum). simpl.
  rewrite !emitted_app, !batch_numbers_app, !llen_app. simpl.
  rewrite !app_nil_r, Hnum. unfold llen at 3 4. simpl.
  repeat split; try done; try lia.
  by rewrite seqZ_snoc.
Qed.

Lemma main_loop_accounted items st res st' :
  main_loop items st = (res, st') →
  accounted st →
  accounted st' ∧ lsh_pkl st' = lsh_pkl st ∧ done_file st' = done_file st.
Proof.
  revert st. induction items as [|item items IH]; intros st; simpl.
  { by intros [= <- <-]. }
  unfold loop_body.
  destruct (record_duplicate item.1 item.2 st) as [r1 st1] eqn:Hrec.
  intros Hloop Hacc.
  destruct (record_duplicate_accounted _ _ _ _ _ Hrec Hacc)
    as (Hacc1 & Hpkl1 & Hdone1).
  destruct r1 as [[]|e]; [|injection Hloop as <- <-; done].
  destruct (flush_if_full st1) as [r2 st2] eqn:Hflush.
  destruct (flush_if_full_accounted _ _ _ Hflush Hacc1)
    as (Hacc2 & Hpkl2 & Hdone2).
  destruct r2 as [[]|e].
  - destruct (IH _ Hloop Hacc2) as (? & -> & ->). by rewrite Hpkl2, Hdone2.
  - injection Hloop as <- <-. by rewrite Hpkl2, Hdone2.
Qed.

Lemma load_or_create_lsh_accounted dir lsh_pkl0 res st :
  load_or_create_lsh dir (initial_state lsh_pkl0 false) = (res, st) →
  accounted st ∧ duplicates st = [] ∧ done_file st = false.
Proof.
  unfold load_or_create_lsh, accounted. simpl.
  destruct lsh_pkl0 as [| |l]; simpl.
  - destruct (yield_minhashes dir) as [minhashes failure].
    destruct (build_lsh _ _); [|by intros [= <- <-]].
    destruct failure; by intros [= <- <-].
  - by intros [= <- <-].
  - by intros [= <- <-].
Qed.

(** X14.  What a successful run of [main] leaves: the statistics are written
    after the last batch, they count exactly the records in the batch
    files, and the [dedupe.done] marker follows. *)
Theorem statistics_count_the_records dir lsh_pkl0 st' :
  main dir (initial_state lsh_pkl0 false) = (Ok (), st') →
  ∃ es,
    events st' = es ++ [SavedDuplicateStats (llen (emitted es)); TouchedDone] ∧
    done_file st' = true.
Proof.
  unfold main. simpl.
  destruct (load_or_create_lsh dir (initial_state lsh_pkl0 false))
    as [r0 st0] eqn:Hload.
  destruct (load_or_create_lsh_accounted _ _ _ _ Hload) as (Hacc0 & _ & _).
  destruct r0 as [[]|e]; [|done].
  destruct (yield_minhashes dir) as [minhashes failure].
  destruct (main_loop minhashes st0) as [r1 st1] eqn:Hloop.
  destruct (main_loop_accounted _ _ _ _ Hloop Hacc0)
    as ((Hcount & _ & _) & _ & _).
  destruct r1 as [[]|e]; [|done].
  destruct failure; [done|]. intros [= <-]. simpl.
  case_decide as Hne.
  - exists (events st1 ++ [SavedDuplicateBatch (batch_number st1) (duplicates st1)]).
    simpl. rewrite <- !(assoc_L (++)). simpl. split; [|done].
    rewrite emitted_app, llen_app. simpl. rewrite app_nil_r.
    by rewrite Hcount.
  - exists (events st1). rewrite <- !(assoc_L (++)). simpl. split; [|done].
    rewrite Hcount. do 3 f_equal. lia.
Qed.

(** X15.  The batch files a run writes are numbered 0, 1, 2, ... in the
    order in which they are written, whatever the outcome of the
    run. *)
Theorem batch_files_are_numbered_in_order dir lsh_pkl0 :
  ∃ n, 0 ≤ n ∧
    batch_numbers (events (main dir (initial_state lsh_pkl0 false)).2)
    = seqZ 0 n.
Proof.
  unfold main. simpl.
  destruct (load_or_create_lsh dir (initial_state lsh_pkl0 false))
    as [r0 st0] eqn:Hload.
  destruct (load_or_create_lsh_accounted _ _ _ _ Hload)
    as (Hacc0 & _ & _).
  destruct r0 as [[]|e]; [|by destruct Hacc0 as (_ & ? & ?); eexists].
  destruct (yield_minhashes dir) as [minhashes failure].
  destruct (main_loop minhashes st0) as [r1 st1] eqn:Hloop.
  destruct (main_loop_accounted _ _ _ _ Hloop Hacc0)
    as ((_ & Hpos & Hnum) & _ & _).
  destruct r1 as [[]|e]; [|by eexists].
  destruct failure; [by eexists|]. simpl.
  case_decide as Hne.
  - exists (batch_number st1 + 1). split; [lia|]. simpl.
    rewrite !batch_numbers_app. simpl. rewrite !app_nil_r, Hnum.
    by rewrite seqZ_snoc.
  - exists (batch_number st1). split; [done|].
    rewrite !batch_numbers_app. simpl. by rewrite !app_nil_r.
Qed.

(** X16.  Once a run has succeeded, the [dedupe.done] marker makes every
    later run return at once, on any minhashes directory, without
    writing anything. *)
Theorem finished_run_is_not_repeated dir dir' st st' :
  main dir st = (Ok (), st') → main dir' st' = (Ok (), st').
Proof.
  unfold main at 1. destruct (done_file st) eqn:Hdone.
  { intros [= <-]. unfold main. by rewrite Hdone. }
  destruct (load_or_create_lsh dir st) as [[[]|e] st0]; [|done].
  destruct (yield_minhashes dir) as [minhashes failure].
  destruct (main_loop minhashes st0) as [[[]|e] st1]; [|done].
  destruct failure; [done|]. intros [= <-]. done.
Qed.
End bookkeeping_proofs.

(** ** The dedupe run: what it keeps, restarts and bad input *)

Section outcome_proofs.
Import datasketch generate_minhashes working_with_minhashes dedupe dedupe_spec.
Context `{Banding, Disk}.
Implicit Types (live : gmap Z LeanMinHash) (hv : LeanMinHash)
               (sigs : list (Z * LeanMinHash)) (st : state).

Lemma StronglySorted_sublist {A} (R : relation A) (l1 l2 : list A) :
  l1 `sublist_of` l2 → StronglySorted R l2 → StronglySorted R l1.
Proof.
  induction 1 as [|x l1 l2 Hsub IH|x l1 l2 Hsub IH]; intros Hs.
  - constructor.
  - apply StronglySorted_inv in Hs as [Hs Hall]. constructor; [by apply IH|].
    apply Forall_forall. intros y Hy.
    apply (proj1 (Forall_forall _ _) Hall). by eapply elem_of_sublist.
  - apply StronglySorted_inv in Hs as [Hs _]. by apply IH.
Qed.

(** X17.  The duplicate records are written in the order of the stream, at
    most one for each offset of the stream. *)
Theorem records_follow_the_stream dir sigs :
  (∀ n, free_space_ok n = true) →
  yield_minhashes dir = (stored sigs, None) →
  StronglySorted Z.lt sigs.*1 →
  Forall (λ x, length x.2 = 10%nat) sigs →
  ∃ st',
    main dir (initial_state Absent false) = (Ok (), st') ∧
    (emitted (events st')).*1 `sublist_of` sigs.*1 ∧
    StronglySorted Z.lt (emitted (events st')).*1.
Proof.
  intros Hdisk Hyield Hs Hlen.
  destruct (main_emits_pass dir sigs Hdisk Hyield Hs Hlen)
    as (st' & Hmain & Hem).
  exists st'. split; [done|]. rewrite Hem.
  destruct (pass_spec _ _ (pass_inv_initial sigs Hs)) as (Hsl & _ & _).
  split; [done|]. by eapply StronglySorted_sublist.
Qed.

(** X18.  The documents the run leaves without a duplicate record are
    pairwise free of collisions: no two of them agree on a band. *)
Theorem survivors_do_not_collide dir sigs :
  (∀ n, free_space_ok n = true) →
  yield_minhashes dir = (stored sigs, None) →
  StronglySorted Z.lt sigs.*1 →
  Forall (λ x, length x.2 = 10%nat) sigs →
  ∃ st',
    main dir (initial_state Absent false) = (Ok (), st') ∧
    ∀ x y, x ∈ sigs → y ∈ sigs → x.1 ≠ y.1 →
      x.1 ∉ (emitted (events st')).*1 →
      y.1 ∉ (emitted (events st')).*1 →
      ¬ collide x.2 y.2.
Proof.
  intros Hdisk Hyield Hs Hlen.
  destruct (main_emits_pass dir sigs Hdisk Hyield Hs Hlen)
    as (st' & Hmain & Hem).
  exists st'. split; [done|]. rewrite Hem.
  destruct (pass_spec _ _ (pass_inv_initial sigs Hs)) as (_ & _ & Hiff).
  intros [o1 hv1] [o2 hv2] Hin1 Hin2 Hne Hkept1 Hkept2 Hcollide.
  simpl in *. destruct (decide (o1 < o2)) as [Hlt|Hge].
  - apply Hkept1, (Hiff o1 hv1 Hin1). by exists o2, hv2.
  - apply Hkept2, (Hiff o2 hv2 Hin2). exists o1, hv1.
    split; [done|]. split; [lia|]. by apply collide_sym.
Qed.

Lemma main_from_saved_index dir sigs l :
  (∀ n, free_space_ok n = true) →
  yield_minhashes dir = (stored sigs, None) →
  StronglySorted Z.lt sigs.*1 →
  Forall (λ x, length x.2 = 10%nat) sigs →
  rep l (list_to_map sigs) →
  ∃ st',
    main dir (initial_state (Full l) false) = (Ok (), st') ∧
    emitted (events st') = pass (list_to_map sigs) sigs.
Proof.
  intros Hdisk Hyield Hs Hlen Hrep.
  pose proof (sorted_NoDup _ Hs) as Hnd.
  unfold main, load_or_create_lsh; simpl. rewrite Hyield.
  match goal with
  | |- context [main_loop (stored sigs) ?st] =>
      destruct (main_loop_pass sigs st (list_to_map sigs) Hdisk Hrep Hnd)
        as (st2 & -> & Hem)
  end.
  { intros o hv Hin. split; [by apply elem_of_list_to_map_1|].
    by apply (proj1 (Forall_forall _ _) Hlen (o, hv)). }
  simpl in Hem.
  eexists. split; [done|]. simpl.
  rewrite !emitted_app. simpl. rewrite !app_nil_r. rewrite <- Hem.
  case_decide as Hd.
  - unfold save_duplicate_batch. simpl. rewrite emitted_app. simpl.
    by rewrite app_nil_r.
  - destruct (duplicates st2); [by rewrite app_nil_r|].
    unfold llen in Hd. simpl in Hd. lia.
Qed.

(** X19.  A run that finds the [lsh.pkl] an earlier run dumped (the
    [dedupe.done] marker missing) loads the index instead of building
    it and writes the same duplicate records as the earlier run. *)
Theorem restart_from_saved_index dir sigs :
  (∀ n, free_space_ok n = true) →
  yield_minhashes dir = (stored sigs, None) →
  StronglySorted Z.lt sigs.*1 →
  Forall (λ x, length x.2 = 10%nat) sigs →
  ∃ st1 st2 l,
    main dir (initial_state Absent false) = (Ok (), st1) ∧
    lsh_pkl st1 = Full l ∧
    main dir (initial_state (Full l) false) = (Ok (), st2) ∧
    emitted (events st2) = emitted (events st1) ∧
    OpenedLSH ∉ events st2.
Proof.
  intros Hdisk Hyield Hs Hlen.
  destruct (main_emits_pass dir sigs Hdisk Hyield Hs Hlen)
    as (st1 & Hmain & Hem).
  pose proof (sorted_NoDup _ Hs) as Hnd.
  destruct (build_lsh_rep sigs (MinHashLSH_init 10) ∅ rep_init Hnd)
    as (l & Hbuild & Hrep).
  { intros o hv Hin. split; [apply lookup_empty|].
    by apply (proj1 (Forall_forall _ _) Hlen (o, hv)). }
  rewrite (right_id_L ∅ (∪)) in Hrep.
  destruct (main_from_saved_index dir sigs l Hdisk Hyield Hs Hlen Hrep)
    as (st2 & Hmain2 & Hem2).
  exists st1, st2, l. split; [done|]. split.
  { revert Hmain. unfold main, load_or_create_lsh; simpl.
    rewrite Hyield, Hbuild. simpl.
    destruct (main_loop (stored sigs) _) as [[[]|e] st] eqn:Hloop; [|done].
    intros [= <-]. simpl.
    destruct (main_loop_accounted _ _ _ _ Hloop) as (_ & Hpkl & _).
    { by unfold accounted. }
    by case_decide. }
  split; [done|]. split; [by rewrite Hem2|].
  revert Hmain2. unfold main, load_or_create_lsh; simpl. rewrite Hyield.
  destruct (main_loop (stored sigs) _) as [[[]|e] st] eqn:Hloop;
    [|by intros [=]].
  intros [= <-]. simpl.
  destruct (main_loop_trace (stored sigs)
              (set_lsh l (initial_state (Full l) false)))
    as (res & st' & es & tail & Hloop' & Hev & Hes & Htail); [done|].
  rewrite Hloop in Hloop'. injection Hloop' as <- <-.
  assert (∀ es, passed_flushes es → OpenedLSH ∉ es) as Hflushes.
  { induction 1 as [|es0 n ds _ IH _]; [apply not_elem_of_nil|].
    rewrite not_elem_of_app, !not_elem_of_cons.
    repeat split; try done. apply not_elem_of_nil. }
  assert (OpenedLSH ∉ events st) as Hst.
  { rewrite Hev. simpl. rewrite not_elem_of_app. split; [by apply Hflushes|].
    destruct Htail as [(_ & _ & ->)|[(? & ? & ->)|(? & _)]];
      [apply not_elem_of_nil..|done]. }
  case_decide; unfold save_duplicate_batch, emit; simpl;
    rewrite !not_elem_of_app, !not_elem_of_cons;
    repeat split; try done; apply not_elem_of_nil.
Qed.

Lemma build_lsh_app l (minhashes1 minhashes2 : list (Z * minhash)) :
  build_lsh l (minhashes1 ++ minhashes2) =
  (l' ← build_lsh l minhashes1; build_lsh l' minhashes2).
Proof.
  revert l. induction minhashes1 as [|[o m] minhashes1 IH]; intros l.
  - done.
  - simpl. destruct (insert l o m); simpl; [apply IH|done].
Qed.

(** X20.  A [None] among the stored minhashes stops the run with
    [TypeError] while the index is built: nothing is written, not even
    [lsh.pkl]. *)
Theorem failed_minhash_stops_the_run dir sigs offset rest failure :
  yield_minhashes dir = (stored sigs ++ (offset, None) :: rest, failure) →
  NoDup sigs.*1 →
  Forall (λ x, length x.2 = 10%nat) sigs →
  main dir (initial_state Absent false)
  = (Err TypeError, initial_state Absent false).
Proof.
  intros Hyield Hnd Hlen.
  destruct (build_lsh_rep sigs (MinHashLSH_init 10) ∅ rep_init Hnd)
    as (l & Hbuild & Hrep).
  { intros o hv Hin. split; [apply lookup_empty|].
    by apply (proj1 (Forall_forall _ _) Hlen (o, hv)). }
  unfold main, load_or_create_lsh; simpl.
  by rewrite Hyield, build_lsh_app, Hbuild.
Qed.

(** X21.  An offset that the stream yields a second time stops the run with
    [ValueError] while the index is built: nothing is written. *)
Theorem repeated_offset_stops_the_run dir sigs offset hv rest failure :
  yield_minhashes dir = (stored sigs ++ (offset, Some hv) :: rest, failure) →
  NoDup sigs.*1 →
  Forall (λ x, length x.2 = 10%nat) sigs →
  offset ∈ sigs.*1 →
  main dir (initial_state Absent false)
  = (Err ValueError, initial_state Absent false).
Proof.
  intros Hyield Hnd Hlen Hin.
  destruct (build_lsh_rep sigs (MinHashLSH_init 10) ∅ rep_init Hnd)
    as (l & Hbuild & Hh & Hranges & Hkeys & Htables).
  { intros o hv' Hin'. split; [apply lookup_empty|].
    by apply (proj1 (Forall_forall _ _) Hlen (o, hv')). }
  unfold main, load_or_create_lsh; simpl.
  rewrite Hyield, build_lsh_app, Hbuild. simpl.
  unfold insert. case_decide; [done|].
  rewrite decide_True; [done|].
  rewrite Hkeys, lookup_fmap, (right_id_L ∅ (∪)).
  apply list_elem_of_fmap in Hin as ([o hv'] & -> & Hin).
  by rewrite (elem_of_list_to_map_1 _ _ _ Hnd Hin).
Qed.
End outcome_proofs.

Section outcome_instances.
Import datasketch generate_minhashes working_with_minhashes dedupe dedupe_spec.

Lemma statistics_count_the_records_witness :
  ∃ es,
    events (@main three_bands roomy_disk twins
              (initial_state Absent false)).2
    = es ++ [SavedDuplicateStats (llen (emitted es)); TouchedDone] ∧
    done_file (@main three_bands roomy_disk twins
                 (initial_state Absent false)).2 = true.
Proof.
  apply (@statistics_count_the_records three_bands roomy_disk twins Absent).
  by vm_compute.
Defined.

Lemma finished_run_is_not_repeated_witness :
  @main three_bands roomy_disk ∅
    (@main three_bands roomy_disk twins (initial_state Absent false)).2
  = (Ok (),
     (@main three_bands roomy_disk twins (initial_state Absent false)).2).
Proof.
  apply (@finished_run_is_not_repeated three_bands roomy_disk twins ∅
           (initial_state Absent false)).
  by vm_compute.
Defined.

Lemma records_follow_the_stream_witness :
  ∃ st',
    @main three_bands roomy_disk twins (initial_state Absent false)
      = (Ok (), st') ∧
    (emitted (events st')).*1 `sublist_of` twin_sigs.*1 ∧
    StronglySorted Z.lt (emitted (events st')).*1.
Proof.
  apply (@records_follow_the_stream three_bands roomy_disk twins twin_sigs).
  - reflexivity.
  - reflexivity.
  - exact twin_sigs_sorted.
  - exact twin_sigs_lengths.
Defined.

Lemma survivors_do_not_collide_witness :
  ∃ st',
    @main three_bands roomy_disk twins (initial_state Absent false)
      = (Ok (), st') ∧
    ∀ x y, x ∈ twin_sigs → y ∈ twin_sigs → x.1 ≠ y.1 →
      x.1 ∉ (emitted (events st')).*1 →
      y.1 ∉ (emitted (events st')).*1 →
      ¬ @collide three_bands x.2 y.2.
Proof.
  apply (@survivors_do_not_collide three_bands roomy_disk twins twin_sigs).
  - reflexivity.
  - reflexivity.
  - exact twin_sigs_sorted.
  - exact twin_sigs_lengths.
Defined.

Lemma restart_from_saved_index_witness :
  ∃ st1 st2 l,
    @main three_bands roomy_disk twins (initial_state Absent false)
      = (Ok (), st1) ∧
    lsh_pkl st1 = Full l ∧
    @main three_bands roomy_disk twins (initial_state (Full l) false)
      = (Ok (), st2) ∧
    emitted (events st2) = emitted (events st1) ∧
    OpenedLSH ∉ events st2.
Proof.
  apply (@restart_from_saved_index three_bands roomy_disk twins twin_sigs).
  - reflexivity.
  - reflexivity.
  - exact twin_sigs_sorted.
  - exact twin_sigs_lengths.
Defined.

Lemma failed_minhash_stops_the_run_witness :
  @main three_bands roomy_disk
    {[ 0 := Full (stored [(0, twin_signature)] ++ [(1, None)]) ]}
    (initial_state Absent false)
  = (Err TypeError, initial_state Absent false).
Proof.
  apply (@failed_minhash_stops_the_run three_bands roomy_disk
           {[ 0 := Full (stored [(0, twin_signature)] ++ [(1, None)]) ]}
           [(0, twin_signature)] 1 [] None).
  - reflexivity.
  - repeat constructor. by intros ?%elem_of_nil.
  - repeat constructor.
Defined.

Lemma repeated_offset_stops_the_run_witness :
  @main three_bands roomy_disk
    {[ 0 := Full (stored [(0, twin_signature)]
                    ++ [(0, Some twin_signature)]) ]}
    (initial_state Absent false)
  = (Err ValueError, initial_state Absent false).
Proof.
  apply (@repeated_offset_stops_the_run three_bands roomy_disk
           {[ 0 := Full (stored [(0, twin_signature)]
                           ++ [(0, Some twin_signature)]) ]}
           [(0, twin_signature)] 0 twin_signature [] None).
  - reflexivity.
  - repeat constructor. by intros ?%elem_of_nil.
  - repeat constructor.
  - left.
Defined.
End outcome_instances.

(** ** The readers *)

Section minhash_reader_proofs.
Import datasketch generate_minhashes working_with_minhashes.
Implicit Types (listing : list (Z * file (list (Z * minhash)))).

Lemma sorted_by_start_offset listing :
  StronglySorted Z.lt listing.*1 → StronglySorted by_start_offset listing.
Proof.
  induction listing as [|[k f] listing IH]; intros Hs; [constructor|].
  rewrite fmap_cons in Hs.
  apply StronglySorted_inv in Hs as [Hs Hall]. constructor; [by apply IH|].
  rewrite Forall_fmap in Hall. eapply Forall_impl; [exact Hall|].
  intros [k' f'] Hlt. unfold by_start_offset. simpl in *. lia.
Qed.

Lemma minhash_files_of_listing listing :
  StronglySorted Z.lt listing.*1 →
  minhash_files (list_to_map listing) = listing.
Proof.
  intros Hs. apply minhash_files_unique; [by apply sorted_by_start_offset|].
  symmetry. apply map_to_list_to_map. by apply sorted_NoDup.
Qed.

(** X22.  A batch file that is not completely written ends the stream with
    an error, after the minhashes of the files with smaller start
    offsets and before any of the files with larger ones. *)
Theorem incomplete_file_ends_the_stream before s after :
  StronglySorted Z.lt (before ++ (s, Partial) :: after).*1 →
  Forall (λ x, ∃ data, x.2 = Full data) before →
  yield_minhashes (list_to_map (before ++ (s, Partial) :: after)) =
  (before ≫= (λ x, match x.2 with Full data => data | _ => [] end),
   Some UnpicklingError).
Proof.
  intros Hs Hfull. unfold yield_minhashes.
  rewrite minhash_files_of_listing by done. clear Hs.
  induction Hfull as [|[k f] before [data Hf] _ IH]; [done|].
  simpl in Hf. subst f. csimpl. by rewrite IH.
Qed.
End minhash_reader_proofs.

Section duplicates_reader_proofs.
Import working_with_duplicates yield_deduped_pile.
Implicit Types (listing : directory).

Lemma read_first_file (files : list (string * file pickle)) :
  read_files files true = read_files (take 1 files) false.
Proof.
  destruct files as [|[name f] files]; [done|]. simpl.
  destruct (pickle_load f) as [data|e]; [|done].
  destruct (unpack data) as [items [e|]]; [done|]. by rewrite app_nil_r.
Qed.

Lemma read_files_prefix (files : list (string * file pickle)) :
  (read_files files true).1 `prefix_of` (read_files files false).1.
Proof.
  destruct files as [|[name f] files]; [done|]. simpl.
  destruct (pickle_load f) as [data|e]; [|done].
  destruct (unpack data) as [items [e|]]; [done|].
  destruct (read_files files false) as [more e]. simpl.
  by apply prefix_app_r.
Qed.

(** X23.  With [first_file_only] the reader behaves as on a directory that
    holds only the first file it selects; what it yields is a prefix
    of what it yields without the flag. *)
Theorem first_file_only_reads_one_file duplicates_directory listing :
  yield_duplicates duplicates_directory listing true =
    read_files (take 1 (duplicates_files duplicates_directory listing)) false ∧
  (yield_duplicates duplicates_directory listing true).1 `prefix_of`
    (yield_duplicates duplicates_directory listing false).1.
Proof.
  unfold yield_duplicates. split; [apply read_first_file|].
  apply read_files_prefix.
Qed.

Lemma prefix_append (needle s1 s2 : string) :
  Stdlib.Strings.String.prefix needle s1 = true →
  Stdlib.Strings.String.prefix needle (s1 +:+ s2) = true.
Proof.
  revert s1. induction needle as [|c needle IH]; intros s1.
  { intros _. by destruct (s1 +:+ s2). }
  destruct s1 as [|c1 s1]; [done|].
  change (String c1 s1 +:+ s2) with (String c1 (s1 +:+ s2)). simpl.
  destruct (ascii_dec c c1); [apply IH|done].
Qed.

Lemma contains_append (needle s1 s2 : string) :
  contains needle s1 = true → contains needle (s1 +:+ s2) = true.
Proof.
  induction s1 as [|c1 s1 IH].
  - simpl. rewrite orb_false_r. intros Hp.
    destruct needle; [|done]. by destruct s2.
  - change (String c1 s1 +:+ s2) with (String c1 (s1 +:+ s2)).
    cbn [contains]. rewrite !orb_true_iff.
    intros [Hp|Hc]; [left|right; by apply IH].
    by apply (prefix_append _ (String c1 s1) s2).
Qed.

Lemma contains_os_path_join (needle path name : string) :
  contains needle path = true →
  path ≠ "" →
  contains needle (os_path_join path name) = true.
Proof.
  intros Hc Hne. unfold os_path_join.
  destruct path as [|c path]; [done|].
  destruct (Stdlib.Strings.String.eqb _ _); by apply contains_append.
Qed.

(** X24.  When the path of the duplicates directory itself contains [smol],
    the reader selects no file and yields nothing, whatever the
    directory holds. *)
Theorem smol_directory_yields_nothing
    duplicates_directory listing first_file_only :
  contains "smol" duplicates_directory = true →
  yield_duplicates duplicates_directory listing first_file_only = ([], None).
Proof.
  intros Hsmol. unfold yield_duplicates.
  assert (duplicates_files duplicates_directory listing = []) as ->; [|done].
  unfold duplicates_files, glob.
  induction (List.filter _ listing) as [|[name f] files IH]; [done|].
  csimpl. rewrite contains_os_path_join; [done..|].
  intros ->. done.
Qed.

(** X25.  The reader selects files in listing order and, when each of them
    is a completely written record file, yields their records file
    after file in that order. *)
Theorem duplicates_follow_the_listing duplicates_directory listing :
  Forall (λ x, ∃ data, x.2 = Full (Records data))
         (duplicates_files duplicates_directory listing) →
  (duplicates_files duplicates_directory listing).*2
    `sublist_of` listing.*2 ∧
  yield_duplicates duplicates_directory listing false =
    (duplicates_files duplicates_directory listing ≫= λ x, records_of x.2,
     None).
Proof.
  intros Hfull. split; [|by apply read_files_in_order].
  clear Hfull. unfold duplicates_files, glob.
  induction listing as [|[name f] listing IH]; [done|].
  cbn [List.filter]. destruct (_ && _); csimpl.
  - destruct (negb _); csimpl; [by apply sublist_skip|by apply sublist_cons].
  - by apply sublist_cons.
Qed.
End duplicates_reader_proofs.

Section inspect_proofs.
Import working_with_duplicates.
Implicit Types (records : list (Z * list Z)) (index : document_index)
               (pile : list (Z * string)).

Lemma prepare_found_offsets_lookup (found_offsets : list Z) index k :
  foldl (λ index found_offset, <[found_offset := None]> index)
        index found_offsets !! k =
  if decide (k ∈ found_offsets) then Some None else index !! k.
Proof.
  revert index. induction found_offsets as [|o found_offsets IH];
    intros index; cbn [foldl].
  - rewrite decide_False; [done|apply not_elem_of_nil].
  - rewrite IH. destruct (decide (k ∈ found_offsets)) as [Hin|Hnin].
    + rewrite decide_True; [done|by right].
    + destruct (decide (k = o)) as [->|Hne].
      * rewrite lookup_insert_eq. rewrite decide_True; [done|left].
      * rewrite lookup_insert_ne by done. rewrite decide_False; [done|].
        rewrite elem_of_cons. tauto.
Qed.

Lemma prepare_index_lookup records index k :
  prepare_index records index !! k =
  if decide (k ∈ records ≫= λ r, r.1 :: r.2) then Some None
  else index !! k.
Proof.
  revert index. induction records as [|[o M] records IH]; intros index.
  - cbn [prepare_index]. rewrite decide_False; [done|apply not_elem_of_nil].
  - cbn [prepare_index]. rewrite IH, prepare_found_offsets_lookup.
    csimpl.
    destruct (decide (k ∈ records ≫= λ r, r.1 :: r.2)) as [Hin|Hnin].
    + rewrite decide_True; [done|]. right. apply elem_of_app. by right.
    + destruct (decide (k ∈ M)) as [HM|HM].
      * rewrite decide_True; [done|]. right. apply elem_of_app. by left.
      * destruct (decide (k = o)) as [->|Hne].
        -- rewrite lookup_insert_eq. rewrite decide_True; [done|left].
        -- rewrite lookup_insert_ne by done. rewrite decide_False; [done|].
           rewrite elem_of_cons, elem_of_app. tauto.
Qed.

Lemma full_scan_lookup pile index k :
  NoDup pile.*1 →
  full_scan pile index !! k =
  match index !! k with
  | Some document =>
      Some (from_option Some document
              ((list_to_map pile : gmap Z string) !! k))
  | None => None
  end.
Proof.
  revert index. induction pile as [|[o document] pile IH];
    intros index Hnd.
  - simpl. rewrite lookup_empty. by destruct (index !! k).
  - apply NoDup_cons in Hnd as [Ho Hnd]. cbn [full_scan].
    rewrite IH by done. csimpl.
    destruct (decide (k = o)) as [->|Hne].
    + rewrite lookup_insert_eq.
      assert ((list_to_map pile : gmap Z string) !! o = None) as ->.
      { by apply not_elem_of_list_to_map_1. }
      case_decide as Hsome.
      * rewrite lookup_insert_eq. by destruct Hsome as [? ->].
      * apply eq_None_not_Some in Hsome. by rewrite Hsome.
    + rewrite (lookup_insert_ne (list_to_map pile)) by done.
      case_decide; [by rewrite lookup_insert_ne|done].
Qed.

Lemma mapM_getitem index (found_offsets : list Z) (shown : Z → option string) :
  (∀ k, k ∈ found_offsets → getitem index k = Ok (shown k)) →
  mapM (getitem index) found_offsets = Ok (shown <$> found_offsets).
Proof.
  induction found_offsets as [|o found_offsets IH]; intros Hall; [done|].
  cbn [mapM]. rewrite Hall by left. rewrite bind_Ok. rewrite IH; [done|].
  intros k Hk. apply Hall. by right.
Qed.

Lemma show_records_indexed records index (shown : Z → option string) :
  (∀ k, k ∈ records ≫= (λ r : Z * list Z, r.1 :: r.2) →
        getitem index k = Ok (shown k)) →
  show_records records index =
  Ok ((λ r : Z * list Z, (shown r.1, shown <$> r.2)) <$> records).
Proof.
  induction records as [|[o M] records IH]; intros Hall; [done|].
  cbn [show_records]. rewrite Hall by (csimpl; left). rewrite bind_Ok.
  rewrite (mapM_getitem _ _ shown).
  2: { intros k Hk. apply Hall. csimpl. right. apply elem_of_app. by left. }
  rewrite bind_Ok. rewrite IH; [done|].
  intros k Hk. apply Hall. csimpl. right. apply elem_of_app. by right.
Qed.

(** X26.  Without a saved index, [inspect_duplicates] builds one that holds
    every offset named by a record of the first duplicates file, so no
    lookup raises [KeyError]: for each record it logs the document of
    the pile at its offset and at each found offset, and [None] for an
    offset that the pile does not hold. *)
Theorem inspect_duplicates_finds_every_offset
    duplicates_directory listing pile records :
  yield_duplicates duplicates_directory listing true = (records, None) →
  NoDup pile.*1 →
  ∃ index,
    inspect_duplicates duplicates_directory listing Absent pile =
    Ok (Full index,
        (λ r : Z * list Z, ((list_to_map pile : gmap Z string) !! r.1,
               (λ k, (list_to_map pile : gmap Z string) !! k) <$> r.2))
          <$> records).
Proof.
  intros Hyield Hnd. unfold inspect_duplicates. simpl. rewrite Hyield.
  csimpl. eexists.
  rewrite (show_records_indexed _ _
             (λ k, (list_to_map pile : gmap Z string) !! k)); [done|].
  intros k Hk. unfold getitem.
  rewrite full_scan_lookup, prepare_index_lookup by done.
  rewrite decide_True by done. simpl.
  by destruct (list_to_map pile !! k).
Qed.
End inspect_proofs.

Section reader_instances.
Import datasketch generate_minhashes working_with_minhashes
       working_with_duplicates.

Lemma incomplete_file_ends_the_stream_witness :
  yield_minhashes
    (list_to_map ([(0, Full [(0, None)])] ++ (100000, Partial) :: []))
  = ([(0, Full [(0, None : minhash)])]
       ≫= (λ x, match x.2 with Full data => data | _ => [] end),
     Some UnpicklingError).
Proof.
  apply (incomplete_file_ends_the_stream [(0, Full [(0, None)])] 100000 []).
  - repeat constructor; simpl; lia.
  - repeat constructor. by eexists.
Defined.

Lemma smol_directory_yields_nothing_witness :
  yield_duplicates "smol_run" unordered_listing false = ([], None).
Proof.
  apply (smol_directory_yields_nothing "smol_run" unordered_listing false).
  reflexivity.
Defined.

Lemma duplicates_follow_the_listing_witness :
  (duplicates_files "pile_duplicates" unordered_listing).*2
    `sublist_of` unordered_listing.*2 ∧
  yield_duplicates "pile_duplicates" unordered_listing false =
    (duplicates_files "pile_duplicates" unordered_listing
       ≫= λ x, records_of x.2, None).
Proof.
  apply (duplicates_follow_the_listing "pile_duplicates" unordered_listing).
  repeat constructor; by eexists.
Defined.

Lemma inspect_duplicates_finds_every_offset_witness :
  ∃ index,
    inspect_duplicates "pile_duplicates" unordered_listing Absent twin_pile =
    Ok (Full index,
        (λ r : Z * list Z,
           ((list_to_map twin_pile : gmap Z string) !! r.1,
               (λ k, (list_to_map twin_pile : gmap Z string) !! k) <$> r.2))
          <$> [(7, [9; 7])]).
Proof.
  apply (inspect_duplicates_finds_every_offset
           "pile_duplicates" unordered_listing twin_pile [(7, [9; 7])]).
  - reflexivity.
  - repeat constructor; simpl; rewrite ?elem_of_cons, ?elem_of_nil; lia.
Defined.
End reader_instances.

(** ** Verification of the stored minhashes *)

Section verify_proofs.
Import datasketch generate_minhashes generate_minhashes_spec
       working_with_minhashes.
Context `{Tokenizer, MinHashParams}.
Implicit Types (minhashes : list (Z * minhash)) (pile : list (Z * string))
               (random_samples : list Z).

(** A loop that ends without an error has seen consecutive offsets,
    each equal to the offset of the pile document at the same
    position. *)
Lemma verify_loop_offsets minhashes previous_offset pile
    next_sample random_samples :
  verify_loop minhashes previous_offset pile next_sample random_samples
    = Ok () →
  minhashes.*1 = seqZ (previous_offset + 1) (llen minhashes) ∧
  (take (length minhashes) pile).*1 = minhashes.*1.
Proof.
  revert previous_offset pile next_sample random_samples.
  induction minhashes as [|[offset m] minhashes IH];
    intros previous_offset pile next_sample random_samples; [done|].
  cbn [verify_loop]. case_decide as Hnext; [|done]. subst offset.
  destruct pile as [|[ground_truth_offset document] pile]; [done|].
  case_decide as Htruth; [|done]. subst ground_truth_offset.
  intros Hloop.
  assert (minhashes.*1 = seqZ (previous_offset + 1 + 1) (llen minhashes) ∧
          (take (length minhashes) pile).*1 = minhashes.*1) as [Hseq Hpile].
  { case_decide; [|by eapply IH].
    case_decide; [|done].
    destruct random_samples; by eapply IH. }
  csimpl. rewrite Hpile. split; [|done].
  unfold llen. simpl length. rewrite Nat2Z.inj_succ.
  rewrite (seqZ_cons (previous_offset + 1)) by lia.
  f_equal. rewrite Hseq. f_equal. unfold llen. lia.
Qed.

(** In a loop that ends without an error, the minhash stored for each
    offset of the sample still ahead equals the minhash computed again
    from the pile document. *)
Lemma verify_loop_samples minhashes previous_offset pile
    next_sample random_samples :
  verify_loop minhashes previous_offset pile next_sample random_samples
    = Ok () →
  StronglySorted Z.lt (next_sample :: random_samples) →
  previous_offset < next_sample →
  ∀ i s m document,
    s ∈ next_sample :: random_samples →
    minhashes !! i = Some (s, m) →
    pile !! i = Some (s, document) →
    m = (generate_minhash document).1.
Proof.
  revert previous_offset pile next_sample random_samples.
  induction minhashes as [|[offset m0] minhashes IH];
    intros previous_offset pile next_sample random_samples; [done|].
  cbn [verify_loop]. case_decide as Hnext; [|done]. subst offset.
  destruct pile as [|[ground_truth_offset document0] pile]; [done|].
  case_decide as Htruth; [|done]. subst ground_truth_offset.
  intros Hloop Hsorted Hlt i s m document Hs Hi Hpile.
  pose proof Hsorted as [Hsorted' Hall]%StronglySorted_inv.
  assert (∀ j m', minhashes !! j = Some (s, m') → previous_offset + 1 < s)
    as Hahead.
  { intros j m' Hj.
    assert (∃ r3 r4, verify_loop minhashes (previous_offset + 1)
              pile r3 r4 = Ok ()) as (r3 & r4 & Hrest).
    { revert Hloop. case_decide; [|by eauto].
      case_decide; [|done]. destruct random_samples; eauto. }
    apply verify_loop_offsets in Hrest as [Hseq _].
    assert (s ∈ minhashes.*1) as Hin.
    { apply list_elem_of_fmap. exists (s, m'). split; [done|].
      by eapply list_elem_of_lookup_2. }
    rewrite Hseq in Hin. apply elem_of_seqZ in Hin. lia. }
  destruct i as [|i]; simpl in Hi, Hpile.
  - injection Hi as <- <-. injection Hpile as <-.
    apply elem_of_cons in Hs as [Hs|Hs].
    + rewrite decide_True in Hloop by done. by case_decide.
    + apply (proj1 (Forall_forall _ _) Hall) in Hs. lia.
  - specialize (Hahead i m Hi).
    apply elem_of_cons in Hs as [->|Hs]; case_decide as Hsample.
    + lia.
    + eapply (IH _ _ _ _ Hloop); [done|lia|left|done..].
    + case_decide; [|done].
      destruct random_samples as [|next random_samples];
        [by apply elem_of_nil in Hs|].
      eapply (IH _ _ _ _ Hloop); [done| |done..].
      apply Forall_cons in Hall as [? _]. lia.
    + eapply (IH _ _ _ _ Hloop); [done|lia|by right|done..].
Qed.

(** X27.  When [verify_minhashes] returns on 10000 minhashes or more, the
    stored offsets are consecutive from 0, each is the offset of the
    pile document at the same position, and for every offset of the
    sample the stored minhash equals the one computed again from the
    document. *)
Theorem verified_minhashes_are_dense minhashes pile random_samples :
  verify_minhashes (minhashes, None) pile random_samples = Ok () →
  10000 ≤ llen minhashes →
  StronglySorted Z.lt random_samples →
  Forall (λ s, 0 ≤ s) random_samples →
  minhashes.*1 = seqZ 0 (llen minhashes) ∧
  (take (length minhashes) pile).*1 = minhashes.*1 ∧
  ∀ i s m document,
    s ∈ random_samples →
    minhashes !! i = Some (s, m) →
    pile !! i = Some (s, document) →
    m = (generate_minhash document).1.
Proof.
  unfold verify_minhashes. simpl. intros Hverify Hcount Hsorted Hpos.
  rewrite decide_False in Hverify by lia.
  destruct random_samples as [|next_sample random_samples]; [done|].
  destruct (verify_loop_offsets _ _ _ _ _ Hverify) as [Hseq Hpile].
  split; [done|]. split; [done|].
  apply (verify_loop_samples _ _ _ _ _ Hverify Hsorted).
  apply Forall_cons in Hpos as [? _]. lia.
Qed.

Lemma verify_loop_passes pile more previous_offset next_sample random_samples :
  pile.*1 = seqZ (previous_offset + 1) (llen pile) →
  verify_loop ((λ od, (od.1, (generate_minhash od.2).1)) <$> pile)
              previous_offset (pile ++ more) next_sample random_samples
  = Ok ().
Proof.
  revert previous_offset next_sample random_samples.
  induction pile as [|[offset document] pile IH];
    intros previous_offset next_sample random_samples Hdense; [done|].
  revert Hdense. unfold llen. simpl length. rewrite Nat2Z.inj_succ.
  rewrite (seqZ_cons (previous_offset + 1)) by lia. csimpl.
  intros [= -> Hdense].
  replace (Z.pred (Z.succ (Z.of_nat (length pile)))) with (llen pile)
    in Hdense by (unfold llen; lia).
  replace (Z.succ (previous_offset + 1)) with (previous_offset + 1 + 1)
    in Hdense by lia.
  rewrite !decide_True by done.
  case_decide; [|by apply IH].
  rewrite decide_True by done.
  destruct random_samples; by apply IH.
Qed.

(** X28.  The store that an uninterrupted run of the generator leaves for a
    pile numbered from 0 in which every document has a signature
    passes [verify_minhashes], whatever sample is drawn. *)
Theorem generated_store_is_verified pile next_sample random_samples :
  hashable pile →
  pile.*1 = seqZ 0 (llen pile) →
  ∃ d',
    main pile empty_dir = Ok d' ∧
    verify_minhashes (yield_minhashes (minhashes_files d')) pile
                     (next_sample :: random_samples) = Ok ().
Proof.
  intros Hall Hdense.
  destruct (main_stores pile) as (d' & Hmain & Hyield & _); [done|..].
  { rewrite Hdense. clear Hdense. generalize 0.
    unfold llen. induction (length pile) as [|n IH]; intros start.
    - constructor.
    - rewrite Nat2Z.inj_succ, seqZ_cons by lia. constructor.
      + replace (Z.pred (Z.succ (Z.of_nat n))) with (Z.of_nat n) by lia.
        apply IH.
      + apply Forall_forall. intros o Ho%elem_of_seqZ. lia. }
  { apply Forall_forall. intros [o document] Hin.
    assert (o ∈ pile.*1) as Ho.
    { apply list_elem_of_fmap. by exists (o, document). }
    rewrite Hdense in Ho. apply elem_of_seqZ in Ho. simpl. lia. }
  exists d'. split; [done|]. rewrite Hyield.
  unfold verify_minhashes. simpl. case_decide; [done|].
  rewrite <- (app_nil_r pile) at 2. by apply verify_loop_passes.
Qed.
End verify_proofs.

Section verify_instances.
Import datasketch generate_minhashes generate_minhashes_spec
       working_with_minhashes.

Lemma sorted_seqZ start n : StronglySorted Z.lt (seqZ start n).
Proof.
  destruct (decide (0 ≤ n)) as [Hn|Hn].
  2: { assert (seqZ start n = []) as ->; [|constructor].
       apply length_zero_iff_nil. rewrite length_seqZ. lia. }
  rewrite <- (Z2Nat.id n) by done. clear Hn. revert start.
  induction (Z.to_nat n) as [|k IH]; intros start; [constructor|].
  rewrite Nat2Z.inj_succ, seqZ_cons by lia. constructor.
  - replace (Z.pred (Z.succ (Z.of_nat k))) with (Z.of_nat k) by lia.
    apply IH.
  - apply Forall_forall. intros o Ho%elem_of_seqZ. lia.
Qed.

Lemma verified_minhashes_are_dense_witness :
  ((λ od, (od.1, (@generate_minhash whitespace_tokenizer toy_params od.2).1))
     <$> full_batch 0).*1
    = seqZ 0 (llen ((λ od : Z * string,
                       (od.1, (@generate_minhash whitespace_tokenizer
                                 toy_params od.2).1)) <$> full_batch 0)) ∧
  (take (length ((λ od : Z * string,
                    (od.1, (@generate_minhash whitespace_tokenizer
                              toy_params od.2).1)) <$> full_batch 0))
        (full_batch 0)).*1
    = ((λ od, (od.1, (@generate_minhash whitespace_tokenizer toy_params
                        od.2).1)) <$> full_batch 0).*1 ∧
  ∀ i s m document,
    s ∈ seqZ 0 10000 →
    ((λ od, (od.1, (@generate_minhash whitespace_tokenizer toy_params
                      od.2).1)) <$> full_batch 0) !! i = Some (s, m) →
    full_batch 0 !! i = Some (s, document) →
    m = (@generate_minhash whitespace_tokenizer toy_params document).1.
Proof.
  apply (@verified_minhashes_are_dense whitespace_tokenizer toy_params
           ((λ od, (od.1, (@generate_minhash whitespace_tokenizer toy_params
                             od.2).1)) <$> full_batch 0)
           (full_batch 0) (seqZ 0 10000)).
  - unfold verify_minhashes. cbn [fst snd].
    rewrite decide_False.
    2: { unfold llen, full_batch. rewrite !length_fmap, length_seqZ.
         unfold batch_size. lia. }
    rewrite (seqZ_cons 0 10000) by lia.
    rewrite <- (app_nil_r (full_batch 0)) at 2.
    apply verify_loop_passes.
    unfold llen, full_batch.
    rewrite <- list_fmap_compose, length_fmap, length_seqZ.
    rewrite (list_fmap_ext _ id (seqZ 0 batch_size)) by done.
    rewrite list_fmap_id. f_equal; unfold batch_size; lia.
  - unfold llen, full_batch. rewrite !length_fmap, length_seqZ.
    unfold batch_size. lia.
  - apply sorted_seqZ.
  - apply Forall_forall. intros s Hs%elem_of_seqZ. lia.
Defined.

Lemma generated_store_is_verified_witness :
  ∃ d',
    @main whitespace_tokenizer toy_params (full_batch 0) empty_dir = Ok d' ∧
    @verify_minhashes whitespace_tokenizer toy_params
      (yield_minhashes (minhashes_files d')) (full_batch 0)
      (0 :: seqZ 1 9999) = Ok ().
Proof.
  apply (@generated_store_is_verified whitespace_tokenizer toy_params
           (full_batch 0) 0 (seqZ 1 9999)).
  { by apply (@full_batch_hashable whitespace_tokenizer toy_params []). }
  unfold llen, full_batch.
  rewrite <- list_fmap_compose, length_fmap, length_seqZ.
  rewrite (list_fmap_ext _ id (seqZ 0 batch_size)) by done.
  rewrite list_fmap_id. f_equal; unfold batch_size; lia.
Defined.
End verify_instances.

(** ** A crash and a restart rebuild the store *)

Section crash_proofs.
Import datasketch generate_minhashes generate_minhashes_spec
       working_with_minhashes.
Context `{Tokenizer, MinHashParams}.
Implicit Types (d : working_dir) (pile batch : list (Z * string))
               (bs : list (list (Z * string))).

Lemma working_dir_eq d1 d2 :
  checkpoint_file d1 = checkpoint_file d2 →
  checkpoint_temp_file d1 = checkpoint_temp_file d2 →
  checkpoint_old_file d1 = checkpoint_old_file d2 →
  transaction_lock d1 = transaction_lock d2 →
  minhashes_files d1 = minhashes_files d2 →
  d1 = d2.
Proof. destruct d1, d2. simpl. by intros -> -> -> -> ->. Qed.

(** What a commit that runs to its end leaves, from any directory. *)
Lemma transaction_effect {D} (batch : list (Z * D)) minhashes d s l :
  first_offset batch = Ok s →
  final_offset batch = Ok l →
  run (transaction batch minhashes) d =
  Ok (WorkingDir (Full l) Absent
        (if exists_file (checkpoint_file d) then checkpoint_file d
         else checkpoint_old_file d)
        false
        (<[s := Full (minhashes_and_meta batch minhashes)]>
           (minhashes_files d))).
Proof.
  intros Hs Hl. unfold transaction. rewrite Hs, Hl.
  destruct d as [ck tmp old lock files].
  destruct ck; simpl; f_equal; apply working_dir_eq; simpl; try done;
    by rewrite insert_insert_eq.
Qed.

Lemma process_batch_effect batch d s l :
  hashable batch →
  first_offset batch = Ok s →
  final_offset batch = Ok l →
  process_batch batch d =
  Ok (WorkingDir (Full l) Absent
        (if exists_file (checkpoint_file d) then checkpoint_file d
         else checkpoint_old_file d)
        false
        (<[s := Full (minhashes_and_meta batch (task_results batch))]>
           (minhashes_files d))).
Proof.
  intros Hall. rewrite process_batch_Ok by done. apply transaction_effect.
Qed.

(** Every batch of a pile whose documents all have a signature is made
    of such documents. *)
Lemma batches_hashable pile acc :
  hashable (acc ++ pile) → Forall hashable (batches pile acc).
Proof.
  revert acc. induction pile as [|od pile IH]; intros acc Hall.
  - rewrite app_nil_r in Hall. simpl. case_decide; by repeat constructor.
  - replace (acc ++ od :: pile) with ((acc ++ [od]) ++ pile) in Hall
      by by rewrite <- (assoc_L (++)).
    cbn [batches]. case_decide; [|by apply IH].
    apply Forall_app in Hall as [Hbatch Hrest].
    constructor; [done|]. by apply IH.
Qed.

Lemma commit_all_app bs1 bs2 d :
  commit_all (bs1 ++ bs2) d = (d' ← commit_all bs1 d; commit_all bs2 d').
Proof.
  revert d. induction bs1 as [|batch bs1 IH]; intros d; [done|].
  simpl. destruct (process_batch batch d); simpl; [apply IH|done].
Qed.

Lemma main_loop_batches pile checkpoint_offset acc d :
  Forall (λ od, checkpoint_offset ≤ od.1) pile →
  main_loop pile checkpoint_offset acc d = commit_all (batches pile acc) d.
Proof.
  intros Hge. revert acc d.
  induction Hge as [|[offset document] pile Hoff _ IH]; intros acc d.
  - simpl. case_decide; [|done]. simpl. by destruct (process_batch acc d).
  - simpl in Hoff. cbn [main_loop batches]. rewrite decide_False by lia.
    case_decide; [|apply IH].
    simpl. destruct (process_batch _ d); simpl; [apply IH|done].
Qed.

Lemma batches_nonempty pile acc : Forall (λ batch, batch ≠ []) (batches pile acc).
Proof.
  revert acc. induction pile as [|od pile IH]; intros acc; simpl.
  - case_decide as Hne; [|constructor]. constructor; [|constructor].
    by intros ->.
  - case_decide; [|apply IH]. constructor; [|apply IH]. by destruct acc.
Qed.

(** Either the pile ends before the batch is full, or a first full
    batch is cut off and the rest is batched afresh. *)
Lemma batches_fill pile acc :
  llen acc < batch_size →
  (batches pile acc
     = (if decide (llen (acc ++ pile) ≠ 0) then [acc ++ pile] else [])) ∨
  ∃ ahead rest,
    pile = ahead ++ rest ∧
    batches pile acc = (acc ++ ahead) :: batches rest [].
Proof.
  revert acc. induction pile as [|od pile IH]; intros acc Hlen.
  - left. by rewrite app_nil_r.
  - cbn [batches]. case_decide as Hfull.
    + right. by exists [od], pile.
    + destruct (IH (acc ++ [od])) as [Hend|(ahead & rest & -> & Hcut)].
      * unfold llen in *. rewrite length_app in *. simpl in *. lia.
      * left. by rewrite <- (assoc_L (++)) in Hend.
      * right. exists (od :: ahead), rest. split; [done|].
        by rewrite <- (assoc_L (++)) in Hcut.
Qed.

Lemma batches_take_drop pile j :
  (j ≤ length (batches pile []))%nat →
  ∃ rest,
    pile = concat (take j (batches pile [])) ++ rest ∧
    batches rest [] = drop j (batches pile []).
Proof.
  revert pile. induction j as [|j IH]; intros pile Hj; [by exists pile|].
  destruct (batches_fill pile []) as [Hend|(ahead & rest0 & -> & Hcut)];
    [done|..].
  - rewrite Hend in *. simpl in *. case_decide; simpl in Hj; [|lia].
    assert (j = 0%nat) as -> by lia. exists []. simpl.
    by rewrite !app_nil_r.
  - simpl in Hcut. rewrite Hcut in *. simpl in Hj.
    destruct (IH rest0) as (rest & Hrest & Hdrop); [lia|].
    exists rest. simpl. rewrite <- (assoc_L (++)), <- Hrest. done.
Qed.

Lemma batches_sizes pile acc :
  llen acc < batch_size →
  concat (batches pile acc) = acc ++ pile ∧
  ∀ i batch, batches pile acc !! i = Some batch →
    0 < llen batch ≤ batch_size ∧
    ((S i < length (batches pile acc))%nat → llen batch = batch_size).
Proof.
  revert acc. induction pile as [|od pile IH]; intros acc Hlen.
  - simpl. case_decide as Hne.
    + split; [done|]. intros [|i] batch Hi; [|done].
      injection Hi as <-. simpl. unfold llen in *. lia.
    + split; [|done]. destruct acc; [done|].
      unfold llen in Hne. simpl in Hne. lia.
  - cbn [batches]. case_decide as Hfull.
    + destruct (IH []) as [Hconcat Hsizes]; [done|].
      split; [simpl; by rewrite Hconcat, <- (assoc_L (++))|].
      intros [|i] batch Hi.
      * injection Hi as <-. split; [unfold batch_size in *; lia|done].
      * destruct (Hsizes i batch Hi) as [Hsize Hlast].
        split; [done|]. simpl. intros Hnext. apply Hlast. lia.
    + destruct (IH (acc ++ [od])) as [Hconcat Hsizes].
      { unfold llen in *. rewrite length_app in *. simpl in *. lia. }
      split; [by rewrite Hconcat, <- (assoc_L (++))|done].
Qed.

(** X29.  The loop of [main] cuts the pile into batches without losing or
    reordering a document: every batch but the last has exactly
    [batch_size] documents, the last one at least one, and the run is
    the commit of these batches one after the other. *)
Theorem main_commits_full_batches pile :
  Forall (λ od, 0 ≤ od.1) pile →
  main pile empty_dir = commit_all (batches pile []) empty_dir ∧
  concat (batches pile []) = pile ∧
  ∀ i batch, batches pile [] !! i = Some batch →
    0 < llen batch ≤ batch_size ∧
    ((S i < length (batches pile []))%nat → llen batch = batch_size).
Proof.
  intros Hge. split.
  - unfold main. simpl. by apply main_loop_batches.
  - by apply (batches_sizes pile []).
Qed.

Lemma main_from_empty pile :
  Forall (λ od, 0 ≤ od.1) pile →
  main pile empty_dir = commit_all (batches pile []) empty_dir.
Proof. intros Hge. unfold main. simpl. by apply main_loop_batches. Qed.

(** A resumed loop commits the batches from the checkpoint on. *)
Lemma main_loop_resumes pile j checkpoint_offset d :
  StronglySorted Z.lt pile.*1 →
  (j ≤ length (batches pile []))%nat →
  match j with
  | O => Forall (λ od, checkpoint_offset ≤ od.1) pile
  | S j' => ∃ batch l, batches pile [] !! j' = Some batch ∧
                       final_offset batch = Ok l ∧
                       checkpoint_offset = l + 1
  end →
  main_loop pile checkpoint_offset [] d =
  commit_all (drop j (batches pile [])) d.
Proof.
  intros Hsorted Hj Hresume. destruct j as [|j].
  { by apply main_loop_batches. }
  destruct Hresume as (batch & l & Hbatch & Hl & ->).
  destruct (batches_take_drop pile (S j) Hj) as (rest & Hpile & Hdrop).
  rewrite <- Hdrop.
  erewrite take_S_r in Hpile by done.
  rewrite concat_app in Hpile. simpl in Hpile. rewrite app_nil_r in Hpile.
  unfold final_offset in Hl.
  destruct (last batch) as [[l' ldoc]|] eqn:Hlast; [|done].
  injection Hl as ->. apply last_Some in Hlast as [batch' ->].
  rewrite Hpile in Hsorted |- *.
  rewrite !fmap_app in Hsorted. simpl in Hsorted.
  rewrite main_loop_skip_all.
  - apply main_loop_batches. apply Forall_forall. intros [o doc] Hin.
    simpl. assert (l < o); [|lia].
    apply (StronglySorted_app_1_elem_of _ _ _ _ _ Hsorted).
    + apply elem_of_app. right. apply elem_of_app. right. left.
    + apply list_elem_of_fmap. by exists (o, doc).
  - apply StronglySorted_app_1_l in Hsorted.
    rewrite (assoc_L (++)) in Hsorted.
    apply Forall_forall. intros [o doc] Hin. simpl.
    rewrite (assoc_L (++)) in Hin.
    apply elem_of_app in Hin as [Hin|Hin%list_elem_of_singleton].
    + assert (o < l); [|lia].
      apply (StronglySorted_app_1_elem_of _ _ _ _ _ Hsorted).
      * rewrite <- fmap_app. apply list_elem_of_fmap. by exists (o, doc).
      * left.
    + injection Hin as -> ->. lia.
Qed.

(** The commits of [bs] make two washed-out directories equal. *)
Lemma commit_all_washed_out bs d1 d2 :
  Forall (λ batch, batch ≠ []) bs →
  washed_out bs d1 d2 →
  commit_all bs d1 = commit_all bs d2.
Proof.
  intros Hne. revert d1 d2.
  induction Hne as [|batch bs Hbatch _ IH]; intros d1 d2 Hw.
  - destruct Hw as (Hck & Htl & Hold & Hfiles).
    destruct (Htl eq_refl) as [Htmp Hlock].
    destruct Hold as [Hold|[_ ?]]; [|done].
    destruct d1, d2; simpl in *. subst. do 2 f_equal.
    apply map_eq. intros s. apply Hfiles. intros batch Hin.
    by apply elem_of_nil in Hin.
  - destruct (offsets_of_batch batch Hbatch) as (s & l & Hs & Hl).
    simpl. unfold process_batch.
    destruct (pool_map batch) as [minhashes|e]; [|done].
    rewrite !bind_Ok, !(transaction_effect batch minhashes _ s l) by done.
    simpl. apply IH. destruct Hw as (Hck & _ & Hold & Hfiles).
    split; [done|]. split; [done|]. split.
    + left. simpl. rewrite <- Hck.
      destruct (exists_file (checkpoint_file d1)) eqn:Hex; [done|].
      destruct Hold as [Hold|[? _]]; done.
    + intros s' Hs'. simpl. destruct (decide (s' = s)) as [->|Hdiff].
      * by rewrite !lookup_insert_eq.
      * rewrite !lookup_insert_ne by done. apply Hfiles.
        intros batch' [->|Hin]%elem_of_cons; [congruence|by apply Hs'].
Qed.

(** The directory after the first [k] commits of a run from an empty
    directory. *)
Lemma prefix_state pile k :
  hashable pile →
  (k ≤ length (batches pile []))%nat →
  ∃ d_k,
    commit_all (take k (batches pile [])) empty_dir = Ok d_k ∧
    match k with
    | O => d_k = empty_dir
    | S k' =>
        ∃ d_prev batch s l,
          commit_all (take k' (batches pile [])) empty_dir = Ok d_prev ∧
          batches pile [] !! k' = Some batch ∧
          first_offset batch = Ok s ∧ final_offset batch = Ok l ∧
          d_k = WorkingDir (Full l) Absent
                  (if exists_file (checkpoint_file d_prev)
                   then checkpoint_file d_prev
                   else checkpoint_old_file d_prev)
                  false
                  (<[s := Full (minhashes_and_meta batch
                                  (task_results batch))]>
                     (minhashes_files d_prev))
    end.
Proof.
  intros Hall.
  induction k as [|k IH]; intros Hk; [by exists empty_dir|].
  destruct IH as (d_prev & Hprev & _); [lia|].
  destruct (lookup_lt_is_Some_2 (batches pile []) k) as [batch Hbatch];
    [lia|].
  destruct (offsets_of_batch batch) as (s & l & Hs & Hl).
  { apply (proj1 (Forall_forall _ _) (batches_nonempty pile [])).
    by eapply list_elem_of_lookup_2. }
  assert (hashable batch) as Hbatch_all.
  { apply (proj1 (Forall_forall _ _) (batches_hashable pile [] Hall)).
    by eapply list_elem_of_lookup_2. }
  eexists. split.
  - erewrite take_S_r by done. rewrite commit_all_app, Hprev. simpl.
    by rewrite (process_batch_effect batch d_prev s l).
  - by exists d_prev, batch, s, l.
Qed.

Lemma commit_all_from j pile d_j :
  commit_all (take j (batches pile [])) empty_dir = Ok d_j →
  commit_all (batches pile []) empty_dir =
  commit_all (drop j (batches pile [])) d_j.
Proof.
  intros Hj. rewrite <- (take_drop j (batches pile [])) at 1.
  by rewrite commit_all_app, Hj.
Qed.

(** The loop of a restarted run ends as the uninterrupted run when it
    resumes after [j] batches on a directory that the commits still to
    come wash out. *)
Lemma restart_completes pile j checkpoint_offset d_rec d_j :
  StronglySorted Z.lt pile.*1 →
  Forall (λ od, 0 ≤ od.1) pile →
  (j ≤ length (batches pile []))%nat →
  commit_all (take j (batches pile [])) empty_dir = Ok d_j →
  washed_out (drop j (batches pile [])) d_rec d_j →
  match j with
  | O => checkpoint_offset = 0
  | S j' => ∃ batch l, batches pile [] !! j' = Some batch ∧
                       final_offset batch = Ok l ∧
                       checkpoint_offset = l + 1
  end →
  main_loop pile checkpoint_offset [] d_rec = main pile empty_dir.
Proof.
  intros Hsorted Hge Hj Hdj Hw Hresume.
  rewrite main_from_empty, (commit_all_from j pile d_j) by done.
  rewrite (main_loop_resumes pile j) by (by destruct j; subst).
  apply commit_all_washed_out; [|done].
  apply Forall_drop, batches_nonempty.
Qed.

Lemma washed_out_refl bs d : washed_out bs d d.
Proof. split; [done|]. split; [done|]. split; [by left|done]. Qed.

(** What a kill after [n] actions of a commit and the recovery of the
    next start leave: the directory as before the commit, up to the
    batch file of the interrupted batch and a restored checkpoint; or
    the old checkpoint in place of the checkpoint; or the commit
    completed. *)
Lemma crash_outcome {D} (batch : list (Z * D)) minhashes s l n ck old files :
  first_offset batch = Ok s →
  final_offset batch = Ok l →
  ck ≠ Partial → old ≠ Partial → (ck = Absent → old = Absent) →
  ∃ d_crash d_rec,
    killed_after n batch minhashes
      (WorkingDir ck Absent old false files) = Ok d_crash ∧
    recover d_crash = Ok d_rec ∧
    ((checkpoint_file d_rec = ck ∧
      (checkpoint_old_file d_rec = old ∨ exists_file ck = true) ∧
      ∀ s', s' ≠ s → minhashes_files d_rec !! s' = files !! s')
     ∨ (checkpoint_file d_rec = old ∧ exists_file old = true ∧
        ∀ s', s' ≠ s → minhashes_files d_rec !! s' = files !! s')
     ∨ d_rec = WorkingDir (Full l) Absent
                 (if exists_file ck then ck else old) false
                 (<[s := Full (minhashes_and_meta batch minhashes)]>
                    files)).
Proof.
  intros Hs Hl Hck Hold Hnone. unfold killed_after, transaction.
  rewrite Hs, Hl.
  destruct ck as [| |c];
    [rewrite (Hnone eq_refl) in *; clear Hnone
    |done
    |destruct old as [| |o]; [|done|]].
  all: destruct n as [|[|[|[|[|[|[|[|n]]]]]]]]; simpl; rewrite ?take_nil;
    simpl.
  all: eexists _, _; (split; [reflexivity|]); (split; [reflexivity|]).
  all: cbv beta iota delta
         [set_lock set_checkpoint_temp set_checkpoint set_checkpoint_old
          set_minhashes checkpoint_file checkpoint_temp_file
          checkpoint_old_file transaction_lock minhashes_files
          exists_file].
  all: first
    [ right; right; by rewrite insert_insert_eq
    | left; split; [done|]; split; [by auto|];
      intros s' Hne; by rewrite ?lookup_insert_ne by done
    | right; left; split; [done|]; split; [done|];
      intros s' Hne; by rewrite ?lookup_insert_ne by done ].
Qed.

Lemma lookup_in_drop bs j k batch :
  (j ≤ k)%nat → bs !! k = Some batch → batch ∈ drop j bs.
Proof.
  intros Hjk Hk. apply (list_elem_of_lookup_2 _ (k - j)).
  rewrite lookup_drop. by replace (j + (k - j))%nat with k by lia.
Qed.

(** X30.  Every document of the pile has a signature.  The run is killed
    after any number of file-system actions of any of its commits; the
    next start recovers and runs to the end.  The working directory it
    leaves is the one the uninterrupted run leaves. *)
Theorem crash_and_restart_rebuild_the_store pile k n batch :
  hashable pile →
  StronglySorted Z.lt pile.*1 →
  Forall (λ od, 0 ≤ od.1) pile →
  batches pile [] !! k = Some batch →
  ∃ d_k minhashes d_crash d',
    commit_all (take k (batches pile [])) empty_dir = Ok d_k ∧
    pool_map batch = Ok minhashes ∧
    killed_after n batch minhashes d_k = Ok d_crash ∧
    main pile d_crash = Ok d' ∧
    main pile empty_dir = Ok d'.
Proof.
  intros Hall Hsorted Hge Hbatch.
  pose proof (lookup_lt_Some _ _ _ Hbatch) as Hk.
  destruct (main_stores pile Hall Hsorted Hge) as (d' & Hfull & _).
  destruct (offsets_of_batch batch) as (s & l & Hs & Hl).
  { apply (proj1 (Forall_forall _ _) (batches_nonempty pile [])).
    by eapply list_elem_of_lookup_2. }
  assert (hashable batch) as Hbatch_all.
  { apply (proj1 (Forall_forall _ _) (batches_hashable pile [] Hall)).
    by eapply list_elem_of_lookup_2. }
  destruct (prefix_state pile k Hall) as (d_k & Hdk & Hstate); [lia|].
  assert (commit_all (take (S k) (batches pile [])) empty_dir
          = process_batch batch d_k) as Hnext.
  { erewrite take_S_r by done. rewrite commit_all_app, Hdk. simpl.
    by destruct (process_batch batch d_k). }
  assert (∀ d_crash d_rec checkpoint_offset j d_j,
    killed_after n batch (task_results batch) d_k = Ok d_crash →
    recover d_crash = Ok d_rec →
    load_checkpoint_offset d_rec = Ok checkpoint_offset →
    (j ≤ length (batches pile []))%nat →
    commit_all (take j (batches pile [])) empty_dir = Ok d_j →
    washed_out (drop j (batches pile [])) d_rec d_j →
    match j with
    | O => checkpoint_offset = 0
    | S j' => ∃ batch l, batches pile [] !! j' = Some batch ∧
                         final_offset batch = Ok l ∧
                         checkpoint_offset = l + 1
    end →
    ∃ d_k minhashes d_crash d',
      commit_all (take k (batches pile [])) empty_dir = Ok d_k ∧
      pool_map batch = Ok minhashes ∧
      killed_after n batch minhashes d_k = Ok d_crash ∧
      main pile d_crash = Ok d' ∧
      main pile empty_dir = Ok d') as Hfinish.
  { intros d_crash d_rec c j d_j Hcrash Hrec Hload Hj Hdj Hw Hresume.
    exists d_k, (task_results batch), d_crash, d'. split; [done|].
    split; [by apply pool_map_Ok|]. split; [done|].
    split; [|done]. rewrite <- Hfull. unfold main at 1.
    rewrite Hrec. simpl. rewrite Hload. simpl.
    by eapply restart_completes. }
  destruct k as [|k'].
  - (* the first commit of the run *)
    subst d_k.
    destruct (crash_outcome batch (task_results batch) s l n Absent Absent ∅
                Hs Hl)
      as (d_crash & d_rec & Hcrash & Hrec & Hclass); [done..|].
    destruct Hclass as [(Hck & Hold & Hfiles)|[(Hck & Hex & _)|Hdone]];
      [|done|].
    + apply (Hfinish d_crash d_rec 0 0%nat empty_dir Hcrash Hrec);
        [|lia|done| |done].
      * unfold load_checkpoint_offset. by rewrite Hck.
      * split; [done|]. split; [by destruct (batches pile [])|].
        split; [by destruct Hold; [left|]|].
        intros s' Hs'. simpl. rewrite lookup_empty.
        rewrite Hfiles; [done|]. intros ->.
        by apply (Hs' batch); [eapply list_elem_of_lookup_2|].
    + apply (Hfinish d_crash d_rec (l + 1) 1%nat d_rec Hcrash Hrec);
        [by rewrite Hdone|lia| |apply washed_out_refl|by exists batch, l].
      rewrite Hnext, Hdone. by apply process_batch_effect.
  - destruct Hstate as (d_prev & previous & s_p & l_p & Hprev & Hprevious
                        & Hs_p & Hl_p & ->).
    destruct (prefix_state pile k' Hall) as (d_prev' & Hprev' & Hstate');
      [lia|].
    rewrite Hprev in Hprev'. injection Hprev' as <-.
    set (old_k := if exists_file (checkpoint_file d_prev)
                  then checkpoint_file d_prev
                  else checkpoint_old_file d_prev) in *.
    assert (old_k ≠ Partial ∧
            (exists_file old_k = true →
             checkpoint_file d_prev = old_k ∧
             ∃ k'' before l_pp,
               k' = S k'' ∧ batches pile [] !! k'' = Some before ∧
               final_offset before = Ok l_pp ∧ old_k = Full l_pp))
      as [Hold_k Hstale].
    { unfold old_k. destruct k' as [|k''].
      - subst d_prev. simpl. done.
      - destruct Hstate' as (d_pp & before & s_pp & l_pp & _ & Hbefore
                             & _ & Hl_pp & ->).
        simpl. split; [done|]. intros _. split; [done|].
        by exists k'', before, l_pp. }
    destruct (crash_outcome batch (task_results batch) s l n (Full l_p) old_k
                (<[s_p := Full (minhashes_and_meta previous
                                  (task_results previous))]>
                   (minhashes_files d_prev)) Hs Hl)
      as (d_crash & d_rec & Hcrash & Hrec & Hclass); [done..|].
    destruct Hclass as [(Hck & Hold & Hfiles)|[(Hck & Hex & Hfiles)|Hdone]].
    + eapply (Hfinish d_crash d_rec (l_p + 1) (S k') _ Hcrash Hrec);
        [|lia|exact Hdk| |by exists previous, l_p].
      * unfold load_checkpoint_offset. by rewrite Hck.
      * split; [by rewrite Hck|].
        assert (drop (S k') (batches pile []) ≠ []) as Hne.
        { intros Hnil. pose proof (lookup_in_drop _ (S k') (S k') batch
                                     ltac:(lia) Hbatch) as Hin.
          rewrite Hnil in Hin. by apply elem_of_nil in Hin. }
        split; [done|]. split.
        { destruct Hold as [Hold|Hold]; [by left|].
          right. by rewrite Hck. }
        intros s' Hs'. simpl. apply Hfiles. intros ->.
        apply (Hs' batch); [|done]. by apply (lookup_in_drop _ _ (S k')).
    + destruct (Hstale Hex) as (Hck_prev & k'' & before & l_pp & -> & Hbefore
                                & Hl_pp & Hold_eq).
      apply (Hfinish d_crash d_rec (l_pp + 1) (S k'') d_prev Hcrash Hrec);
        [|lia|exact Hprev| |by exists before, l_pp].
      * unfold load_checkpoint_offset. by rewrite Hck, Hold_eq.
      * split; [by rewrite Hck, Hck_prev|].
        assert (drop (S k'') (batches pile []) ≠ []) as Hne.
        { intros Hnil. pose proof (lookup_in_drop _ (S k'') (S (S k'')) batch
                                     ltac:(lia) Hbatch) as Hin.
          rewrite Hnil in Hin. by apply elem_of_nil in Hin. }
        split; [done|]. split.
        { right. rewrite Hck. by split. }
        intros s' Hs'. rewrite Hfiles.
        -- rewrite lookup_insert_ne; [done|]. intros ->.
           apply (Hs' previous); [|done].
           by apply (lookup_in_drop _ _ (S k'')).
        -- intros ->. apply (Hs' batch); [|done].
           apply (lookup_in_drop _ _ (S (S k''))); [lia|done].
    + apply (Hfinish d_crash d_rec (l + 1) (S (S k')) d_rec Hcrash Hrec);
        [by rewrite Hdone|lia| |apply washed_out_refl|by exists batch, l].
      rewrite Hnext, Hdone. by apply process_batch_effect.
Qed.
End crash_proofs.

Section crash_instances.
Import datasketch generate_minhashes generate_minhashes_spec
       working_with_minhashes.

Lemma main_commits_full_batches_witness :
  @main whitespace_tokenizer toy_params two_docs empty_dir
    = @commit_all whitespace_tokenizer toy_params
        (batches two_docs []) empty_dir ∧
  concat (batches two_docs []) = two_docs ∧
  ∀ i batch, batches two_docs [] !! i = Some batch →
    0 < llen batch ≤ batch_size ∧
    ((S i < length (batches two_docs []))%nat → llen batch = batch_size).
Proof.
  apply (@main_commits_full_batches whitespace_tokenizer toy_params two_docs).
  repeat constructor; simpl; lia.
Defined.

Lemma crash_and_restart_rebuild_the_store_witness :
  ∃ d_k minhashes d_crash d',
    @commit_all whitespace_tokenizer toy_params
      (take 0 (batches two_docs [])) empty_dir = Ok d_k ∧
    @pool_map whitespace_tokenizer toy_params two_docs = Ok minhashes ∧
    killed_after 5 two_docs minhashes d_k = Ok d_crash ∧
    @main whitespace_tokenizer toy_params two_docs d_crash = Ok d' ∧
    @main whitespace_tokenizer toy_params two_docs empty_dir = Ok d'.
Proof.
  apply (@crash_and_restart_rebuild_the_store whitespace_tokenizer toy_params
           two_docs 0 5 two_docs).
  - repeat constructor; by vm_compute.
  - repeat constructor; simpl; lia.
  - repeat constructor; simpl; lia.
  - reflexivity.
Defined.
End crash_instances.

(** ** An incomplete batch file is written again *)

Section rewrite_proofs.
Import datasketch generate_minhashes generate_minhashes_spec.
Context `{Tokenizer, MinHashParams}.
Implicit Types (d : working_dir) (pile batch : list (Z * string)).

(** The last batch of a run: fewer than [batch_size] documents are
    handed to [process_batch] when the pile ends. *)
Lemma main_loop_last_batch ahead acc checkpoint_offset d :
  llen (acc ++ ahead) < batch_size →
  Forall (λ od, checkpoint_offset ≤ od.1) ahead →
  main_loop ahead checkpoint_offset acc d =
  if decide (llen (acc ++ ahead) ≠ 0) then process_batch (acc ++ ahead) d
  else Ok d.
Proof.
  revert acc. induction ahead as [|[offset document] ahead IH];
    intros acc Hlen Hall.
  - by rewrite app_nil_r.
  - apply Forall_cons in Hall as [Ho Hall]. simpl in Ho.
    cbn [main_loop]. rewrite decide_False by lia.
    replace (acc ++ (offset, document) :: ahead)
      with ((acc ++ [(offset, document)]) ++ ahead) in *
      by by rewrite <- (assoc_L (++)).
    rewrite decide_False.
    + by apply IH.
    + unfold llen in *. rewrite !length_app in *. simpl in *. lia.
Qed.

(** Where a kill leaves a batch file incomplete, recovery leaves the
    checkpoint where it was before the commit. *)
Lemma incomplete_batch_file {D} d (batch : list (Z * D)) minhashes n c0 l :
  consistent d c0 →
  first_offset batch = Ok c0 →
  final_offset batch = Ok l →
  ∃ d1,
    killed_after n batch minhashes d = Ok d1 ∧
    checkpoint_file d1 ≠ Partial ∧
    ∀ s, minhashes_file d1 s = Partial →
      s = c0 ∧
      (minhashes_file d s = Partial ∨ transaction_lock d1 = true) ∧
      ∃ d2, recover d1 = Ok d2 ∧ consistent d2 c0.
Proof.
  intros (Hq & Hc & Hp) Hs Hl.
  destruct Hq as (Hlock & Htemp & Hck & Hold & Hlt).
  destruct d as [ck tmp old lock files]; simpl in *; subst lock tmp.
  unfold killed_after, transaction. rewrite Hs, Hl.
  unfold consistent, quiescent.
  destruct ck as [| |c]; [|done|]; (destruct old as [| |o]; [|done|]).
  all: try (destruct (Hlt _ eq_refl) as (? & [= <-] & Hoc)).
  all: try (by destruct (Hlt _ eq_refl) as (? & ? & _)).
  all: destruct n as [|[|[|[|[|[|[|[|n]]]]]]]]; simpl; rewrite ?take_nil;
    simpl.
  all: eexists; (split; [reflexivity|]); (split; [done|]).
  all: unfold load_checkpoint_offset, minhashes_file in *; simpl in *.
  all: try (injection Hc as <-).
  all: intros s'; rewrite ?lookup_insert; repeat case_decide; simpl;
    try done.
  all: try subst s'.
  all: try (intros Hs'; pose proof (Hp _ Hs'); done).
  all: intros Hs'; try pose proof (Hp _ Hs') as ->.
  all: (split; [done|]); (split; [by auto|]).
  all: eexists; (split; [reflexivity|]); simpl.
  all: repeat split; try done.
  all: try (intros ? [= <-]; eexists; split; [done|lia]).
  all: intros s'; rewrite ?lookup_insert; repeat case_decide;
       simpl; try done; auto.
Qed.

(** C5 (as amended).  The checkpoint is the artifact written by
    temp-then-rename: wherever the batch commit is cut short, the file
    under the final checkpoint name is absent or complete.  A batch
    file is written in place.  One that the kill leaves incomplete is
    the file of the batch being committed (or of the batch the run was
    about to commit) and is accompanied by the transaction lock,
    unless it was incomplete before the commit.  The next start then
    re-does that batch: recovery leaves the checkpoint as it was
    before the commit, the run skips the documents below it, hands the
    same batch to [process_batch] first and goes on from the directory
    that commit leaves, in which the batch file is complete. *)
Theorem checkpoint_never_partial d batch minhashes n c0 l skipped rest :
  consistent d c0 →
  first_offset batch = Ok c0 →
  final_offset batch = Ok l →
  Forall (λ od, c0 ≤ od.1) batch →
  pool_map batch = Ok minhashes →
  Forall (λ od, od.1 < c0) skipped →
  llen batch = batch_size ∨ (llen batch < batch_size ∧ rest = []) →
  ∃ d1,
    killed_after n batch minhashes d = Ok d1 ∧
    checkpoint_file d1 ≠ Partial ∧
    ∀ s, minhashes_file d1 s = Partial →
      s = c0 ∧
      (minhashes_file d s = Partial ∨ transaction_lock d1 = true) ∧
      ∃ d2 d3,
        recover d1 = Ok d2 ∧
        load_checkpoint_offset d2 = Ok c0 ∧
        process_batch batch d2 = Ok d3 ∧
        minhashes_file d3 c0 = Full (minhashes_and_meta batch minhashes) ∧
        main (skipped ++ batch ++ rest) d1 = main_loop rest c0 [] d3.
Proof.
  intros Hcons Hs Hl Hge Hpool Hskipped Hsize.
  destruct (incomplete_batch_file d batch minhashes n c0 l Hcons Hs Hl)
    as (d1 & Hkill & Hck & Hpartial).
  exists d1. split; [done|]. split; [done|].
  intros s Hfile.
  destruct (Hpartial s Hfile) as (-> & Hlock & d2 & Hrec & Hcons2).
  split; [done|]. split; [done|].
  destruct (transaction_succeeds batch minhashes d2 c0 l Hs Hl)
    as (d3 & Hrun & Hfiles & _).
  assert (process_batch batch d2 = Ok d3) as Hproc.
  { unfold process_batch. by rewrite Hpool. }
  assert (minhashes_file d3 c0 = Full (minhashes_and_meta batch minhashes))
    as Hfull.
  { unfold minhashes_file. by rewrite Hfiles, lookup_insert_eq. }
  destruct Hcons2 as (_ & Hload & _).
  exists d2, d3. do 4 (split; [done|]).
  unfold main. rewrite Hrec, bind_Ok, Hload, bind_Ok.
  rewrite main_loop_skip_all by done.
  assert (batch ≠ []) as Hne by (by intros ->).
  destruct Hsize as [Hfull_batch|[Hshort ->]].
  - rewrite (main_loop_full_batch batch [] rest c0 d2) by done.
    simpl. by rewrite Hproc.
  - rewrite app_nil_r, main_loop_last_batch by done. simpl.
    rewrite decide_True, Hproc; [done|].
    destruct batch; [done|]. unfold llen. simpl. lia.
Qed.
End rewrite_proofs.

Section rewrite_instances.
Import datasketch generate_minhashes generate_minhashes_spec.

Lemma checkpoint_never_partial_witness :
  ∃ d1,
    killed_after 2 two_docs two_minhashes empty_dir = Ok d1 ∧
    checkpoint_file d1 ≠ Partial ∧
    ∀ s, minhashes_file d1 s = Partial →
      s = 0 ∧
      (minhashes_file empty_dir s = Partial ∨ transaction_lock d1 = true) ∧
      ∃ d2 d3,
        recover d1 = Ok d2 ∧
        load_checkpoint_offset d2 = Ok 0 ∧
        @process_batch whitespace_tokenizer toy_params two_docs d2 = Ok d3 ∧
        minhashes_file d3 0
          = Full (minhashes_and_meta two_docs two_minhashes) ∧
        @main whitespace_tokenizer toy_params ([] ++ two_docs ++ []) d1
          = @main_loop whitespace_tokenizer toy_params [] 0 [] d3.
Proof.
  apply (@checkpoint_never_partial whitespace_tokenizer toy_params
           empty_dir two_docs two_minhashes 2 0 1 [] []).
  - exact empty_dir_consistent.
  - reflexivity.
  - reflexivity.
  - repeat constructor; simpl; lia.
  - reflexivity.
  - constructor.
  - right. split; [reflexivity|reflexivity].
Defined.
End rewrite_instances.
